(** * TaskWeave: a typed dataflow task engine

    A shallow embedding of the TaskWeave sources (Edge.h, IEdge.h, Node.h,
    Helper.h, Metafunctions.h, ITask.h, Task.h, ThreadPool.h,
    ThreadPoolExecutor.h) and the proofs of the properties stated about
    them.

    Objects live at addresses ([nat]); a pointer is an address and a
    nullable pointer is an [option].  Fields that the code mutates are kept
    in finite maps from addresses to values, fields fixed before execution
    (the wiring of the graph, the callables) in a static table. *)

From stdpp Require Import gmap list.
From Stdlib Require Import ZArith Lia Sorted.

Local Open Scope Z_scope.

(** ** Machine integers

    [reachability_] is a [size_t]; the scratch array of
    [Node::set_reachability] holds [int]; [active_task_count_] is a
    [std::atomic<int>]. *)

Module MachineInt.

Definition INT_MIN : Z := - 2 ^ 31.
Definition INT_MAX : Z := 2 ^ 31 - 1.

(** Conversion to [int]: the value modulo 2^32, in the signed range. *)
Definition to_int (z : Z) : Z := (z + 2 ^ 31) mod 2 ^ 32 - 2 ^ 31.

(** Conversion to [size_t]: the value modulo 2^64. *)
Definition to_size_t (z : Z) : Z := z mod 2 ^ 64.

(** [a + b] on [int]: signed overflow has no defined result. *)
Definition int_add (a b : Z) : option Z :=
  if decide (INT_MIN ≤ a + b ≤ INT_MAX) then Some (a + b) else None.

(** [fetch_add] / [fetch_sub] on [std::atomic<int>] wrap around. *)
Definition atomic_add (a b : Z) : Z := to_int (a + b).
Definition atomic_sub (a b : Z) : Z := to_int (a - b).

End MachineInt.

(** ** Node.h, Helper.h: the dependency graph and its reachability pass *)

Module Node.
Import MachineInt.

(** The wiring of the graph.  [in_edges_ n] is the tuple of inward edge
    pointers of node [n], one slot per declared input type, [None] for a
    slot that holds a null pointer; a node declared without input types
    (the [Node<OutwardT>] specialisation) has the empty tuple.
    [owner_ e] is the node that edge [e] was constructed with. *)
Record Graph := {
  in_edges_ : gmap nat (list (option nat));
  owner_ : gmap nat nat
}.

(** What a reachability pass reads and writes: the traverse marker
    ([std::set<size_t>] of node addresses) and the [reachability_] field
    of every node (zero-initialised). *)
Record Pass := {
  marker : gset nat;
  reachability_ : gmap nat Z
}.

(** [Node::get_reachability]: the cached field; constant [0] in the
    specialisation without inputs. *)
Definition get_reachability (g : Graph) (r : gmap nat Z) (n : nat) : Z :=
  match in_edges_ g !! n with
  | Some [] => 0
  | _ => default 0 (r !! n)
  end.

(** [*std::max_element(first, last)]; the empty range has no element. *)
Definition max_element (l : list Z) : option Z :=
  match l with
  | [] => None
  | x :: l' => Some (foldl Z.max x l')
  end.

(** The [for] loop of [set_reachability]: visits the owner of every
    non-null inward edge through [visit] and collects, per slot, the
    owner's reachability converted to [int] ([0] for a null slot). *)
Fixpoint inward_reachabilities (visit : nat → Pass → option Pass)
    (g : Graph) (inward_edges : list (option nat)) (s : Pass)
    : option (Pass * list Z) :=
  match inward_edges with
  | [] => Some (s, [])
  | edge :: rest =>
      '(s1, current) ←
        match edge with
        | Some e =>
            node ← owner_ g !! e;
            s1 ← visit node s;
            Some (s1, get_reachability g (reachability_ s1) node)
        | None => Some (s, 0)
        end;
      '(s2, arr) ← inward_reachabilities visit g rest s1;
      Some (s2, to_int current :: arr)
  end.

(** [Node::set_reachability(TraverseMarkerT&)].  The recursion of the
    source follows the inward edges and need not end on a cyclic graph,
    so the embedding takes fuel; [None] is fuel exhausted, a dangling
    pointer, or signed overflow in [max + 1]. *)
Fixpoint set_reachability (fuel : nat) (g : Graph) (n : nat) (s : Pass)
    : option Pass :=
  match fuel with
  | O => None
  | S fuel' =>
      if decide (n ∈ marker s) then Some s
      else
        let s0 := {| marker := {[n]} ∪ marker s;
                     reachability_ := reachability_ s |} in
        match in_edges_ g !! n with
        | None => None
        | Some [] => Some s0
        | Some inward_edges =>
            '(s1, arr) ←
              inward_reachabilities (set_reachability fuel' g) g inward_edges s0;
            m ← max_element arr;
            r ← int_add m 1;
            Some {| marker := marker s1;
                    reachability_ := <[n := to_size_t r]> (reachability_ s1) |}
        end
  end.

(** The loop of [compute_reachability]: null task pointers are skipped. *)
Fixpoint visit_tasks (fuel : nat) (g : Graph) (tasks : list (option nat))
    (s : Pass) : option Pass :=
  match tasks with
  | [] => Some s
  | None :: rest => visit_tasks fuel g rest s
  | Some task :: rest =>
      s1 ← set_reachability fuel g task s;
      visit_tasks fuel g rest s1
  end.

(** [tw::compute_reachability]: one fresh marker for the whole range. *)
Definition compute_reachability (fuel : nat) (g : Graph)
    (tasks : list (option nat)) (r : gmap nat Z) : option (gmap nat Z) :=
  s ← visit_tasks fuel g tasks {| marker := ∅; reachability_ := r |};
  Some (reachability_ s).

(** [INode::operator<], which [ITask::operator<] delegates to. *)
Definition lt (g : Graph) (r : gmap nat Z) (a b : nat) : bool :=
  bool_decide (get_reachability g r a < get_reachability g r b).

(** [producer g n p]: some inward edge of [n] is owned by [p]. *)
Definition producer (g : Graph) (n p : nat) : Prop :=
  ∃ es e, in_edges_ g !! n = Some es ∧ Some e ∈ es ∧ owner_ g !! e = Some p.

(** *** What the traversal computes, as a function of the graph

    [rank] follows [set_reachability] without the marker: [0] for the
    specialisation without inputs, otherwise one more than the largest
    rank among the owners of the inward edges, a null slot counting
    [0].  The recursion is along the edges and takes fuel;
    [Rank g n k] says that the rank of [n] is defined and equals [k];
    it is undefined where a cycle is reachable from [n]. *)
Definition slot_rank (rank : nat → option nat) (g : Graph)
    (edge : option nat) : option nat :=
  match edge with
  | Some e => node ← owner_ g !! e; rank node
  | None => Some O
  end.

Fixpoint rank (fuel : nat) (g : Graph) (n : nat) : option nat :=
  match fuel with
  | O => None
  | S fuel' =>
      es ← in_edges_ g !! n;
      match es with
      | [] => Some O
      | _ => ds ← mapM (slot_rank (rank fuel' g) g) es; Some (S (max_list ds))
      end
  end.

Definition Rank (g : Graph) (n k : nat) : Prop :=
  ∃ fuel, rank fuel g n = Some k.

Definition slot_Rank (g : Graph) (edge : option nat) (d : nat) : Prop :=
  match edge with
  | Some e => ∃ p, owner_ g !! e = Some p ∧ Rank g p d
  | None => d = O
  end.

(** A DAG, seen from the submitted range [tasks]: no cycle is
    reachable from a submitted node (its rank is defined), and the
    rank fits the [int] scratch array. *)
Definition acyclic (g : Graph) (tasks : list (option nat)) : Prop :=
  ∀ t, Some t ∈ tasks → ∃ k, Rank g t k ∧ Z.of_nat k ≤ INT_MAX.

(** An executable check of [acyclic]. *)
Definition check_acyclic (fuel : nat) (g : Graph)
    (tasks : list (option nat)) : bool :=
  forallb (λ task,
             match task with
             | None => true
             | Some t =>
                 match rank fuel g t with
                 | Some k => bool_decide (Z.of_nat k ≤ INT_MAX)
                 | None => false
                 end
             end) tasks.

(** *** The depth [d] of the specification

    [d(n) = 0] for a node with no inward edge, otherwise one more than
    the largest [d] among the producers of its inward edges.  Again
    with fuel; [Depth g n k] says that [d(n)] is defined and equals
    [k]. *)
Definition producers (g : Graph) (inward_edges : list (option nat))
    : option (list nat) :=
  mapM (λ e, owner_ g !! e) (omap id inward_edges).
Global Arguments producers : simpl never.

Fixpoint depth (fuel : nat) (g : Graph) (n : nat) : option nat :=
  match fuel with
  | O => None
  | S fuel' =>
      es ← in_edges_ g !! n;
      ps ← producers g es;
      match ps with
      | [] => Some O
      | _ => ds ← mapM (depth fuel' g) ps; Some (S (max_list ds))
      end
  end.

Definition Depth (g : Graph) (n k : nat) : Prop :=
  ∃ fuel, depth fuel g n = Some k.

(** No missing edges: no node that declares inputs has all of them
    unattached. *)
Definition no_missing_edges (g : Graph) : Prop :=
  map_Forall (λ _ es, es ≠ [] → omap id es ≠ []) (in_edges_ g).

#[global] Instance no_missing_edges_dec g : Decision (no_missing_edges g).
Proof. unfold no_missing_edges. apply _. Defined.

(** A well-formed DAG, seen from the submitted range [tasks]: no edge is
    missing, no cycle is reachable from a submitted node (its depth is
    defined), and the depth fits the [int] scratch array. *)
Definition well_formed (g : Graph) (tasks : list (option nat)) : Prop :=
  no_missing_edges g ∧
  ∀ t, Some t ∈ tasks → ∃ k, Depth g t k ∧ Z.of_nat k ≤ INT_MAX.

(** An executable check of [well_formed]. *)
Definition check_well_formed (fuel : nat) (g : Graph)
    (tasks : list (option nat)) : bool :=
  bool_decide (no_missing_edges g) &&
  forallb (λ task,
             match task with
             | None => true
             | Some t =>
                 match depth fuel g t with
                 | Some k => bool_decide (Z.of_nat k ≤ INT_MAX)
                 | None => false
                 end
             end) tasks.

(** *** What the traversal maintains *)

Section Traversal.
Variable g : Graph.

(** Every marked node of rank below [k] holds its rank. *)
Definition good_below (k : nat) (s : Pass) : Prop :=
  ∀ m j, m ∈ marker s → Rank g m j → (j < k)%nat →
    get_reachability g (reachability_ s) m = Z.of_nat j.

Definition producers_marked (s : Pass) (m : nat) : Prop :=
  ∀ p, producer g m p → p ∈ marker s.

(** [visit_post R b s s']: the marker only grows; the field of a node
    that was marked before, or is still unmarked, is untouched; a
    newly marked node satisfies [R], has all its producers marked,
    and holds its rank, which is at most [b]. *)
Definition visit_post (R : nat → Prop) (b : nat) (s s' : Pass) : Prop :=
  marker s ⊆ marker s' ∧
  (∀ m, m ∈ marker s ∨ m ∉ marker s' →
     reachability_ s' !! m = reachability_ s !! m) ∧
  (∀ m, m ∈ marker s' → m ∉ marker s →
     R m ∧ producers_marked s' m ∧
     ∃ j, Rank g m j ∧ (j ≤ b)%nat ∧
          get_reachability g (reachability_ s') m = Z.of_nat j).

(** Nodes reachable from [n] along inward edges, [n] included. *)
Definition ancestor (n m : nat) : Prop := rtc (producer g) n m.

(** Nodes reachable from the submitted range. *)
Definition from_tasks (tasks : list (option nat)) (m : nat) : Prop :=
  ∃ t, Some t ∈ tasks ∧ ancestor t m.

(** What the loop of [set_reachability] stores for one slot. *)
Definition slot_value (s : Pass) (edge : option nat) (a : Z) : Prop :=
  match edge with
  | Some e => ∃ p j, owner_ g !! e = Some p ∧ Rank g p j ∧
                     a = Z.of_nat j ∧ p ∈ marker s
  | None => a = 0
  end.
End Traversal.

(** [Node::set_reachability()], the overload without arguments: the
    same loop over the inward edges, with a marker of its own that does
    not hold the node itself and is dropped on return.  In the
    specialisation without inputs the body is empty. *)
Definition set_reachability_fresh (fuel : nat) (g : Graph) (n : nat)
    (r : gmap nat Z) : option (gmap nat Z) :=
  match in_edges_ g !! n with
  | None => None
  | Some [] => Some r
  | Some inward_edges =>
      '(s1, arr) ←
        inward_reachabilities (set_reachability fuel g) g inward_edges
          {| marker := ∅; reachability_ := r |};
      m ← max_element arr;
      r' ← int_add m 1;
      Some (<[n := to_size_t r']> (reachability_ s1))
  end.

(** Every pointer of the graph leads somewhere: the owner of each
    attached inward edge is a node of the graph. *)
Definition slot_valid (g : Graph) (edge : option nat) : Prop :=
  match edge with
  | Some e =>
      match owner_ g !! e with
      | Some p => is_Some (in_edges_ g !! p)
      | None => False
      end
  | None => True
  end.

#[global] Instance slot_valid_dec g edge : Decision (slot_valid g edge).
Proof.
  destruct edge as [e|]; simpl; [destruct (owner_ g !! e)|]; apply _.
Defined.

Definition pointers_valid (g : Graph) : Prop :=
  map_Forall (λ _ es, Forall (slot_valid g) es) (in_edges_ g).

(** No [reachability_] field is above [b]. *)
Definition fields_below (b : Z) (r : gmap nat Z) : Prop :=
  map_Forall (λ _ v, 0 ≤ v ≤ b) r.

(** The nodes of the graph that a pass has not yet marked. *)
Definition unmarked (g : Graph) (s : Pass) : nat :=
  size (dom (in_edges_ g) ∖ marker s).

(** [path g n k]: [k] inward edges in a row lead away from [n], each
    from a node to one of its producers. *)
Inductive path (g : Graph) : nat → nat → Prop :=
| path_here n : path g n O
| path_step n p k : producer g n p → path g p k → path g n (S k).

End Node.

(** ** Edge.h, IEdge.h: the one-shot value slot with its latch *)

(** [T()]: the value-initialised object of a payload type. *)
Class ValueInit (T : Type) := value_init : T.

#[global] Instance Z_value_init : ValueInit Z := 0.

Module Edge.
Section Edge.
Context {T : Type}.

(** [Edge<T>]: the owner pointer and latch of [IEdge], and the data.
    [Edge<void>] has no data; it is this record with [data_] never
    written. *)
Record t := {
  owner_ : nat;
  data_ : T;
  is_retrievable_ : bool
}.

(** [Edge(INode* owner)]: [data_{}], [is_retrievable_{}]. *)
Definition make `{ValueInit T} (owner : nat) : t :=
  {| owner_ := owner; data_ := value_init; is_retrievable_ := false |}.

Definition is_retrievable (e : t) : bool := is_retrievable_ e.

Definition get_owner (e : t) : nat := owner_ e.

(** [IEdge::set_as_retrievable]: stores [true] under the mutex, then
    [notify_all]. *)
Definition set_as_retrievable (e : t) : t :=
  {| owner_ := owner_ e; data_ := data_ e; is_retrievable_ := true |}.

(** [Edge<T>::set_data]: [data_ = data; set_as_retrievable();]. *)
Definition set_data (data : T) (e : t) : t :=
  set_as_retrievable
    {| owner_ := owner_ e; data_ := data; is_retrievable_ := is_retrievable_ e |}.

(** [Edge<void>::set_data]. *)
Definition set_data_void (e : t) : t := set_as_retrievable e.

Definition get_data (e : t) : T := data_ e.

(** [IEdge::wait_until_retrievable] returns once the latch is set;
    [None] stands for a caller that is still blocked. *)
Definition wait_until_retrievable (e : t) : option unit :=
  if is_retrievable_ e then Some () else None.

(** A client of one edge: the calls it makes, and what the reads
    return. *)
Inductive Call := SetData (data : T) | GetData.

Fixpoint calls (cs : list Call) (e : t) : t * list T :=
  match cs with
  | [] => (e, [])
  | SetData data :: cs' => calls cs' (set_data data e)
  | GetData :: cs' =>
      let '(e', reads) := calls cs' e in (e', get_data e :: reads)
  end.

(** The values that the calls of a client store, oldest first. *)
Definition writes (cs : list Call) : list T :=
  omap (λ c, match c with SetData data => Some data | GetData => None end) cs.
End Edge.
Global Arguments t : clear implicits.
Global Arguments Call : clear implicits.
End Edge.

(** ** ThreadPool.h: the worker pool *)

Module ThreadPool.
Import MachineInt.
Section Pool.
(** [F]: what a queued closure is. *)
Context {F : Type}.

(** The argument of [add_task].  Only a function pointer and a
    [std::function] are compared with [nullptr]; any other callable
    type bypasses the check and is never null. *)
Inductive Callable :=
| FunctionPointer (fn : option F)
| StdFunction (fn : option F)
| Functor (fn : F).

(** [tasks_] has its front at the head of the list.  [on_complete_] is
    [true] when the callback is non-empty; every invocation of the
    callback is counted in [completions]. *)
Record t := {
  tasks_ : list F;
  active_task_count_ : Z;
  on_complete_ : bool;
  thread_count_ : nat;
  completions : nat
}.

(** [ThreadPool(thread_count, on_complete_callback)]. *)
Definition make (thread_count : nat) (on_complete_callback : bool) : t :=
  {| tasks_ := []; active_task_count_ := 0;
     on_complete_ := on_complete_callback;
     thread_count_ := thread_count; completions := O |}.

(** [ThreadPool::add_task]. *)
Definition add_task (fn : Callable) (p : t) : bool * t :=
  let enqueue f :=
    (true, {| tasks_ := tasks_ p ++ [f];
              active_task_count_ := atomic_add (active_task_count_ p) 1;
              on_complete_ := on_complete_ p;
              thread_count_ := thread_count_ p;
              completions := completions p |}) in
  match fn with
  | FunctionPointer None | StdFunction None => (false, p)
  | FunctionPointer (Some f) | StdFunction (Some f) | Functor f => enqueue f
  end.

Definition is_null (fn : Callable) : bool :=
  match fn with
  | FunctionPointer None | StdFunction None => true
  | _ => false
  end.

(** The closure that [add_task] stores, if any. *)
Definition closure (fn : Callable) : option F :=
  match fn with
  | FunctionPointer f | StdFunction f => f
  | Functor f => Some f
  end.

(** [ThreadPool::clear_queued_tasks]: [fetch_sub(tasks_.size())], the
    size converted from [size_t] to [int], then the queue is emptied. *)
Definition clear_queued_tasks (p : t) : t :=
  {| tasks_ := [];
     active_task_count_ :=
       atomic_sub (active_task_count_ p) (to_int (Z.of_nat (length (tasks_ p))));
     on_complete_ := on_complete_ p;
     thread_count_ := thread_count_ p;
     completions := completions p |}.

Definition is_idle (p : t) : bool := bool_decide (active_task_count_ p = 0).
Definition active_task_count (p : t) : Z := active_task_count_ p.
Definition empty (p : t) : bool := bool_decide (tasks_ p = []).
Definition size (p : t) : nat := length (tasks_ p).
Definition worker_count (p : t) : nat := thread_count_ p.

(** [ThreadPool::wait] returns when [is_idle()] holds. *)
Definition wait_returns (p : t) : Prop := is_idle p = true.

(** [execute_task], first critical section: the front closure, if
    any, is moved out of the queue. *)
Definition pop_task (p : t) : option F * t :=
  match tasks_ p with
  | [] => (None, p)
  | f :: rest =>
      (Some f, {| tasks_ := rest;
                  active_task_count_ := active_task_count_ p;
                  on_complete_ := on_complete_ p;
                  thread_count_ := thread_count_ p;
                  completions := completions p |})
  end.

(** [execute_task], after [task_to_do()] has returned: [fetch_sub(1)]
    under [wait_mtx_] ... *)
Definition decrement (p : t) : t :=
  {| tasks_ := tasks_ p;
     active_task_count_ := atomic_sub (active_task_count_ p) 1;
     on_complete_ := on_complete_ p;
     thread_count_ := thread_count_ p;
     completions := completions p |}.

(** ... then the counter is loaded again and, when it reads zero, the
    callback (if any) is invoked and the waiters are notified. *)
Definition check_idle (p : t) : t :=
  if bool_decide (active_task_count_ p = 0) && on_complete_ p then
    {| tasks_ := tasks_ p;
       active_task_count_ := active_task_count_ p;
       on_complete_ := on_complete_ p;
       thread_count_ := thread_count_ p;
       completions := S (completions p) |}
  else p.

Definition complete_task (p : t) : t := check_idle (decrement p).

(** *** The pool and the threads around it

    [in_flight]: closures that a worker has popped and whose
    completion it has not yet accounted for.  [checking]: a worker
    stands between its [fetch_sub] and its load; it holds [wait_mtx_],
    which keeps other workers out of that section but neither
    [add_task] nor [clear_queued_tasks]. *)
Record Threads := {
  pool : t;
  in_flight : nat;
  checking : bool
}.

Inductive Event :=
| Submit (fn : Callable)   (* a thread calls [add_task] *)
| Cancel                   (* a thread calls [clear_queued_tasks] *)
| Pop                      (* a worker pops the front closure *)
| Decrement                (* a worker finished its closure: [fetch_sub] *)
| Check                    (* the same worker: load and test *)
| Complete.                (* [Decrement] and [Check] with nothing between *)

Definition step (ev : Event) (s : Threads) : option Threads :=
  match ev with
  | Submit fn =>
      Some {| pool := (add_task fn (pool s)).2;
              in_flight := in_flight s; checking := checking s |}
  | Cancel =>
      Some {| pool := clear_queued_tasks (pool s);
              in_flight := in_flight s; checking := checking s |}
  | Pop =>
      match pop_task (pool s) with
      | (Some _, p') =>
          Some {| pool := p'; in_flight := S (in_flight s);
                  checking := checking s |}
      | (None, _) => Some s
      end
  | Decrement =>
      match in_flight s, checking s with
      | S k, false =>
          Some {| pool := decrement (pool s); in_flight := k;
                  checking := true |}
      | _, _ => None
      end
  | Check =>
      if checking s then
        Some {| pool := check_idle (pool s); in_flight := in_flight s;
                checking := false |}
      else None
  | Complete =>
      match in_flight s, checking s with
      | S k, false =>
          Some {| pool := complete_task (pool s); in_flight := k;
                  checking := false |}
      | _, _ => None
      end
  end.

(** A run of events, with what an observer of the counter and of the
    callback sees: [crossings] counts the steps that take the
    outstanding counter from a positive value to zero, [cancelled]
    those among them made by [clear_queued_tasks]. *)
Record Observed := {
  threads : Threads;
  crossings : nat;
  cancelled : nat
}.

Definition crossed (before after : Threads) : bool :=
  bool_decide (0 < active_task_count_ (pool before)) &&
  bool_decide (active_task_count_ (pool after) = 0).

Definition is_cancel (ev : Event) : bool :=
  match ev with Cancel => true | _ => false end.

Definition observe (ev : Event) (o : Observed) : option Observed :=
  s' ← step ev (threads o);
  let c := crossed (threads o) s' in
  Some {| threads := s';
          crossings := if c then S (crossings o) else crossings o;
          cancelled := if c && is_cancel ev then S (cancelled o)
                       else cancelled o |}.

Fixpoint run_events (evs : list Event) (o : Observed) : option Observed :=
  match evs with
  | [] => Some o
  | ev :: evs' => o' ← observe ev o; run_events evs' o'
  end.

Definition start (p : t) : Observed :=
  {| threads := {| pool := p; in_flight := O; checking := false |};
     crossings := O; cancelled := O |}.





(** [ThreadPool::get_queued_tasks]: a copy of the queue. *)
Definition get_queued_tasks (p : t) : list F := tasks_ p.

(** A client that submits a series of callables, one [add_task] after
    the other. *)
Definition add_tasks (fns : list Callable) (p : t) : t :=
  foldl (λ p fn, (add_task fn p).2) p fns.

(** The counter is the number of closures queued or in flight, and
    [budget] more submissions fit the [int]. *)
Definition counted (budget : nat) (s : Threads) : Prop :=
  active_task_count_ (pool s) =
    Z.of_nat (length (tasks_ (pool s)) + in_flight s) ∧
  Z.of_nat (length (tasks_ (pool s)) + in_flight s + budget) ≤ INT_MAX.
End Pool.
Global Arguments t : clear implicits.
Global Arguments Callable : clear implicits.
Global Arguments Event : clear implicits.
Global Arguments Threads : clear implicits.
Global Arguments Observed : clear implicits.
End ThreadPool.

(** ** Metafunctions.h: computations on type lists

    A parameter pack or a tuple type is the list of its types; types are
    compared with [std::is_same_v], and [void] is one of them. *)

Module Metafunctions.
Section Types.
Context {Ty : Type} `{EqDecision Ty}.
Variable void : Ty.

(** [filter_void<T>]: [std::tuple<>] for [void], [std::tuple<T>]
    otherwise. *)
Definition filter_void (T : Ty) : list Ty :=
  if decide (T = void) then [] else [T].

(** [remove_voids<Ts...>]: [std::tuple_cat] of the [filter_void<Ts>]. *)
Definition remove_voids (Ts : list Ty) : list Ty :=
  mjoin (filter_void <$> Ts).

(** [integer_sequence_void_filter<Ts...>::create_filtered_sequence].
    The first lambda starts from a buffer of [sizeof...(Ts)] zeros and
    a [count] of zero and, for every type that is not [void], in
    order, stores its index at [buffer[count++]]. *)
Definition store (state : list nat * nat) (entry : Ty * nat)
    : list nat * nat :=
  if decide (entry.1 = void) then state
  else (<[state.2 := entry.2]> state.1, S state.2).

Definition indices (Ts : list Ty) : list nat :=
  (foldl store (replicate (length Ts) O, O) (zip Ts (seq 0 (length Ts)))).1.

(** [((!std::is_same_v<Ts, void> ? 1 : 0) + ...)]: a fold over [+],
    which has no value for an empty pack. *)
Definition non_voids (Ts : list Ty) : nat :=
  sum_list ((λ T, if decide (T = void) then O else 1%nat) <$> Ts).

Definition count (Ts : list Ty) : option nat :=
  match Ts with
  | [] => None
  | _ => Some (non_voids Ts)
  end.

(** [filtered]: [std::index_sequence<indices[Idxss]...>] for
    [Idxss] in [make_index_sequence<count>]; an index outside the
    array leaves no constant expression. *)
Definition filtered (Ts : list Ty) : option (list nat) :=
  n ← count Ts;
  mapM (λ Idxss, indices Ts !! Idxss) (seq 0 n).

(** [contained_no_duplicate_types<TupleT>]: for every [I] and every
    [J] of the index sequence, [false] if [I < J] and the element
    types at [I] and [J] are the same. *)
Definition contained_no_duplicate_types (TupleT : list Ty) : bool :=
  forallb (λ I,
             forallb (λ J,
                        if decide ((I < J)%nat ∧ TupleT !! I = TupleT !! J)
                        then false else true)
                     (seq 0 (length TupleT)))
          (seq 0 (length TupleT)).

(** [function_traits<FnT>]: the return type and the argument types
    of a callable; [arg<I>::type] asserts [I < arity]. *)
Record function_traits := {
  return_type : Ty;
  args_tuple : list Ty
}.

Definition arity (FnT : function_traits) : nat := length (args_tuple FnT).

Definition arg (FnT : function_traits) (I : nat) : option Ty :=
  args_tuple FnT !! I.

(** [function_has_the_required_prototype<FnT, RequiredReturnT,
    RequiredArgsT...>::value], and the same for the variant that
    takes the required arguments as a tuple: the return types are the
    same and, for every index of [RequiredArgsT], [arg<Idx>::type] is
    the required type.  Every [arg<Idx>] is instantiated; [None] is a
    failed [static_assert]. *)
Definition is_all_argument_matched (FnT : function_traits)
    (RequiredArgsT : list Ty) : option bool :=
  matched ← mapM (λ entry : nat * Ty,
                    T ← arg FnT entry.1;
                    Some (bool_decide (T = entry.2)))
                 (zip (seq 0 (length RequiredArgsT)) RequiredArgsT);
  Some (forallb id matched).

Definition function_has_the_required_prototype (FnT : function_traits)
    (RequiredReturnT : Ty) (RequiredArgsT : list Ty) : option bool :=
  matched ← is_all_argument_matched FnT RequiredArgsT;
  Some (bool_decide (return_type FnT = RequiredReturnT) && matched).
End Types.
Global Arguments function_traits : clear implicits.
End Metafunctions.

(** ** ITask.h, Task.h: tasks and their execution *)

Inductive TaskState := Incomplete | Running | Complete.

#[global] Instance TaskState_eq_dec : EqDecision TaskState.
Proof. solve_decision. Defined.

Module Task.
Section Task.
(** One payload type [V] stands for the non-void input and return
    types; which types of a task are [void] is recorded per task. *)
Context {V : Type} `{ValueInit V}.

(** What is fixed before execution begins: the declared types, the
    inward edge pointers, the address of the owned outward edge and
    the callable.  The callable takes the values of the non-void
    inputs in positional order; for a [void] return type its result
    is dropped. *)
Record t := {
  input_void : list bool;
  in_edges_ : list (option nat);
  out_edge_ : nat;
  return_void : bool;
  callable_ : list V → V
}.

(** What execution reads and writes: the edges, the fields of every
    task ([state_], [result_], [start_time_], [end_time_],
    [reachability_]), the steady clock, the tasks whose callable has
    been invoked and has returned, and the calls of
    [cv_.notify_one()], both latest first. *)
Record World := {
  edges : gmap nat (Edge.t V);
  state_ : gmap nat TaskState;
  result_ : gmap nat V;
  start_time_ : gmap nat nat;
  end_time_ : gmap nat nat;
  reachability_ : gmap nat Z;
  now : nat;
  invoked : list nat;
  notified : list nat
}.

Definition get_state (w : World) (self : nat) : TaskState :=
  default Incomplete (state_ w !! self).

Definition get_result (w : World) (self : nat) : V :=
  default value_init (result_ w !! self).

Definition is_retrievable (w : World) (e : nat) : bool :=
  match edges w !! e with
  | Some edge => Edge.is_retrievable edge
  | None => false
  end.

Definition set_state (self : nat) (st : TaskState) (w : World) : World :=
  {| edges := edges w; state_ := <[self := st]> (state_ w);
     result_ := result_ w; start_time_ := start_time_ w;
     end_time_ := end_time_ w; reachability_ := reachability_ w;
     now := now w; invoked := invoked w; notified := notified w |}.

(** [set_start_time(std::chrono::steady_clock::now())]: the clock is
    read and moves on. *)
Definition set_start_time (self : nat) (w : World) : World :=
  {| edges := edges w; state_ := state_ w; result_ := result_ w;
     start_time_ := <[self := now w]> (start_time_ w);
     end_time_ := end_time_ w; reachability_ := reachability_ w;
     now := S (now w); invoked := invoked w;
     notified := notified w |}.

Definition set_end_time (self : nat) (w : World) : World :=
  {| edges := edges w; state_ := state_ w; result_ := result_ w;
     start_time_ := start_time_ w;
     end_time_ := <[self := now w]> (end_time_ w);
     reachability_ := reachability_ w;
     now := S (now w); invoked := invoked w;
     notified := notified w |}.

Definition log_invoked (self : nat) (w : World) : World :=
  {| edges := edges w; state_ := state_ w; result_ := result_ w;
     start_time_ := start_time_ w; end_time_ := end_time_ w;
     reachability_ := reachability_ w;
     now := now w; invoked := self :: invoked w;
     notified := notified w |}.

Definition set_result (self : nat) (r : V) (w : World) : World :=
  {| edges := edges w; state_ := state_ w;
     result_ := <[self := r]> (result_ w);
     start_time_ := start_time_ w; end_time_ := end_time_ w;
     reachability_ := reachability_ w;
     now := now w; invoked := invoked w; notified := notified w |}.

Definition set_edge (e : nat) (edge : Edge.t V) (w : World) : World :=
  {| edges := <[e := edge]> (edges w); state_ := state_ w;
     result_ := result_ w; start_time_ := start_time_ w;
     end_time_ := end_time_ w; reachability_ := reachability_ w;
     now := now w; invoked := invoked w; notified := notified w |}.

Definition notify_one (self : nat) (w : World) : World :=
  {| edges := edges w; state_ := state_ w; result_ := result_ w;
     start_time_ := start_time_ w; end_time_ := end_time_ w;
     reachability_ := reachability_ w;
     now := now w; invoked := invoked w;
     notified := self :: notified w |}.

Definition set_reachabilities (r : gmap nat Z) (w : World) : World :=
  {| edges := edges w; state_ := state_ w; result_ := result_ w;
     start_time_ := start_time_ w; end_time_ := end_time_ w;
     reachability_ := r;
     now := now w; invoked := invoked w; notified := notified w |}.

(** [integer_sequence_void_filter<InputTs...>::filtered]: the
    positions of the non-void input types, in order. *)
Fixpoint filtered_from (idx : nat) (input_void : list bool) : list nat :=
  match input_void with
  | [] => []
  | true :: rest => filtered_from (S idx) rest
  | false :: rest => idx :: filtered_from (S idx) rest
  end.

Definition filtered (input_void : list bool) : list nat :=
  filtered_from O input_void.

(** [Node::get_inward_edge_value<Idx>]: the data of the edge, or a
    value-initialised object when the slot holds a null pointer.
    [None] is a pointer to no edge. *)
Definition get_inward_edge_value (w : World) (task : t) (idx : nat)
    : option V :=
  match in_edges_ task !! idx with
  | Some (Some e) => Edge.get_data <$> edges w !! e
  | _ => Some value_init
  end.

(** [callable_()] or [run_impl(filtered{})]. *)
Definition arguments (w : World) (task : t) : option (list V) :=
  mapM (get_inward_edge_value w task) (filtered (input_void task)).

(** The statements of [Task::run], one constructor per statement. *)
Inductive Stmt :=
| WaitUntilRetrievable (edge : nat)
| SetState (st : TaskState)
| SetStartTime
| Invoke
| SetEndTime
| SetOutEdgeData
| NotifyOne.

#[global] Instance Stmt_eq_dec : EqDecision Stmt.
Proof. solve_decision. Defined.

(** The inward edges that [run()] waits for: the non-null ones. *)
Definition waits (task : t) : list nat := omap id (in_edges_ task).

(** [Task::run], both the primary template and [Task<void, ...>]:
    the loop over the inward edges, which skips null pointers, then
    the seven statements in the order of the source. *)

Definition after_waits : list Stmt :=
  [SetState Running; SetStartTime; Invoke; SetEndTime; SetOutEdgeData;
   SetState Complete; NotifyOne].

Definition run_body (task : t) : list Stmt :=
  (WaitUntilRetrievable <$> waits task) ++ after_waits.

(** One statement of [self->run()].  [None]: the statement cannot be
    taken in [w] (the wait is still blocked), or it follows a pointer
    to no object. *)
Definition exec (task : t) (self : nat) (stmt : Stmt) (w : World)
    : option World :=
  match stmt with
  | WaitUntilRetrievable e =>
      edge ← edges w !! e;
      _ ← Edge.wait_until_retrievable edge;
      Some w
  | SetState st => Some (set_state self st w)
  | SetStartTime => Some (set_start_time self w)
  | Invoke =>
      args ← arguments w task;
      let r := callable_ task args in
      Some (log_invoked self
              (if return_void task then w else set_result self r w))
  | SetEndTime => Some (set_end_time self w)
  | SetOutEdgeData =>
      edge ← edges w !! out_edge_ task;
      Some (set_edge (out_edge_ task)
              (if return_void task then Edge.set_data_void edge
               else Edge.set_data (get_result w self) edge) w)
  | NotifyOne => Some (notify_one self w)
  end.

Fixpoint exec_all (task : t) (self : nat) (stmts : list Stmt) (w : World)
    : option World :=
  match stmts with
  | [] => Some w
  | stmt :: rest => w' ← exec task self stmt w; exec_all task self rest w'
  end.

(** [self->run()] on a thread of its own, start to end. *)
Definition run (task : t) (self : nat) (w : World) : option World :=
  exec_all task self (run_body task) w.

(** [add_inward_edge<Idx>(edge)]. *)
Definition add_inward_edge (idx : nat) (edge : nat) (task : t) : t :=
  {| input_void := input_void task;
     in_edges_ := <[idx := Some edge]> (in_edges_ task);
     out_edge_ := out_edge_ task;
     return_void := return_void task;
     callable_ := callable_ task |}.

(** *** Access by type

    A node whose inward types are [InwardTs...] also wires and reads
    its slots by type.  [None] is a call that does not compile. *)
Section ByType.
Context {Ty : Type} `{EqDecision Ty}.
Variable void : Ty.

(** [std::get<T>] on a tuple with element types [Ts]: the index of
    the element of type [T]; ill-formed unless the tuple holds
    exactly one such element. *)
Definition tuple_index (Ts : list Ty) (T : Ty) : option nat :=
  match filter (λ Idx, Ts !! Idx = Some T) (seq 0 (length Ts)) with
  | [Idx] => Some Idx
  | _ => None
  end.

(** [Node::add_inward_edge<InputT>].  The constraint is on the
    tuple of the pointer types [const Edge<InwardTs>*], which holds
    a type twice exactly when [InwardTs] does; the [else] branch of
    the [if constexpr] is a [static_assert] that fails. *)
Definition add_inward_edge_by_type (InwardTs : list Ty) (InputT : Ty)
    (edge : nat) (task : t) : option t :=
  if Metafunctions.contained_no_duplicate_types InwardTs then
    if bool_decide (InputT ∈ InwardTs) then
      Idx ← tuple_index InwardTs InputT;
      Some (add_inward_edge Idx edge task)
    else None
  else None.

(** [Node::get_inward_edge_value<InputT>]; [Edge<void>] has no
    [get_data]. *)
Definition get_inward_edge_value_by_type (w : World)
    (InwardTs : list Ty) (InputT : Ty) (task : t) : option (option V) :=
  if Metafunctions.contained_no_duplicate_types InwardTs then
    if decide (InputT = void) then None
    else
      Idx ← tuple_index InwardTs InputT;
      Some (get_inward_edge_value w task Idx)
  else None.
End ByType.

(** [ITask::get_duration]: [end_time_ - start_time_]; a time point
    that was never set is the epoch. *)
Definition get_duration (w : World) (self : nat) : Z :=
  Z.of_nat (default O (end_time_ w !! self))
  - Z.of_nat (default O (start_time_ w !! self)).

(** [Task::wait] returns, with the state it then reads, once the
    state is [Complete]; [None] stands for a caller that is still
    blocked. *)
Definition wait (w : World) (self : nat) : option TaskState :=
  if decide (get_state w self = Complete) then Some (get_state w self)
  else None.
End Task.
Global Arguments t : clear implicits.
Global Arguments World : clear implicits.
End Task.

(** ** ITask.h, IEdge.h: the atomics of a task, as another thread reads them

    [ITask::state_] is stored by [set_state] and loaded by [get_state]
    with [std::memory_order_relaxed]; [IEdge::is_retrievable_] is stored
    by [set_as_retrievable] with [std::memory_order_release] and loaded
    by [is_retrievable] with [std::memory_order_acquire].  What a load
    returns is one of the stores in the modification order of the
    object, none older than what the loading thread has already seen of
    that object.  A load-acquire that takes its value from a
    store-release synchronises with it: the loading thread has then seen
    all that the storing thread had seen when it stored.  Relaxed
    accesses order nothing but the object itself. *)

Module Atomics.

Inductive memory_order :=
| memory_order_relaxed
| memory_order_acquire
| memory_order_release.

(** The atomic objects: [state_] of a task and [is_retrievable_] of an
    edge. *)
Inductive Object :=
| StateOf (task : nat)
| LatchOf (edge : nat).

#[global] Instance Object_eq_dec : EqDecision Object.
Proof. solve_decision. Defined.

Inductive Value :=
| OfState (st : TaskState)
| OfBool (b : bool).

(** What a thread has seen: for every object a position in its
    modification order, [0] for the value the object was constructed
    with, [t + 1] for the store number [t]. *)
Definition View := Object → nat.

Definition nothing : View := λ _, O.

Definition see (x : Object) (t : nat) (seen : View) : View :=
  λ y, if decide (y = x) then t else seen y.

Definition join (a b : View) : View := λ x, (a x `max` b x)%nat.

(** A store in a modification order, with what a load-acquire learns
    from it. *)
Record Store := {
  value : Value;
  released : View
}.

Definition Memory := Object → list Store.

Section Machine.
Context {V : Type} `{ValueInit V}.
(** The task in [run()], its address, and the world in which
    [run()] is called. *)
Variables (task : Task.t V) (self : nat) (w0 : Task.World V).

(** The values that the objects hold when [run()] is called. *)
Definition constructed (x : Object) : Value :=
  match x with
  | StateOf n => OfState (Task.get_state w0 n)
  | LatchOf e => OfBool (Task.is_retrievable w0 e)
  end.

Definition store_at (m : Memory) (x : Object) (t : nat) : option Store :=
  match t with
  | O => Some {| value := constructed x; released := nothing |}
  | S t' => m x !! t'
  end.

(** [x.load(mo)] by a thread that has seen [seen], taking its value
    from position [t] of the modification order: the value and what
    the thread has seen afterwards.  [None]: the thread has already
    seen a later store of [x], or there is no such store. *)
Definition load (mo : memory_order) (x : Object) (t : nat)
    (m : Memory) (seen : View) : option (Value * View) :=
  if decide (seen x ≤ t)%nat then
    st ← store_at m x t;
    Some (value st,
          match mo with
          | memory_order_acquire => join (see x t seen) (released st)
          | _ => see x t seen
          end)
  else None.

(** [x.store(v, mo)].  Each of the two objects of a task is stored by
    the thread in [run()] only, so the store is the last in the
    modification order. *)
Definition store (mo : memory_order) (x : Object) (v : Value)
    (m : Memory) (seen : View) : Memory * View :=
  let t := S (length (m x)) in
  let seen' := see x t seen in
  let st := {| value := v;
               released := match mo with
                           | memory_order_release => seen'
                           | _ => see x t nothing
                           end |} in
  (λ y, if decide (y = x) then m x ++ [st] else m y, seen').

(** The atomic accesses of the statements of [Task::run].  The load
    with which [wait_until_retrievable] passes is made under the
    mutex of the edge, under which the latch is stored as well, so
    it takes the latest store.  [set_data] stores the latch in
    [set_as_retrievable]; [set_state] stores the state. *)
Definition atomics (stmt : Task.Stmt) (m : Memory) (seen : View)
    : Memory * View :=
  match stmt with
  | Task.WaitUntilRetrievable e =>
      match load memory_order_acquire (LatchOf e) (length (m (LatchOf e)))
                 m seen with
      | Some (_, seen') => (m, seen')
      | None => (m, seen)
      end
  | Task.SetState st =>
      store memory_order_relaxed (StateOf self) (OfState st) m seen
  | Task.SetOutEdgeData =>
      store memory_order_release (LatchOf (Task.out_edge_ task))
            (OfBool true) m seen
  | _ => (m, seen)
  end.

(** The thread in [run()], about to execute statement number [pc],
    and an observer on another thread that calls [get_state()] on
    the task and [is_retrievable()] on its outward edge.  [world] is
    what the thread in [run()] has written; [observed] lists what
    the observer has read, latest first. *)
Record Config := {
  world : Task.World V;
  pc : nat;
  memory : Memory;
  runner : View;
  observer : View;
  observed : list (Object * Value)
}.

Inductive Event :=
| Run                      (* the next statement of [run()] *)
| GetState (t : nat)       (* [get_state()], reading position [t] *)
| IsRetrievable (t : nat). (* [is_retrievable()], reading position [t] *)

Definition step (ev : Event) (c : Config) : option Config :=
  match ev with
  | Run =>
      stmt ← Task.run_body task !! pc c;
      w' ← Task.exec task self stmt (world c);
      let after := atomics stmt (memory c) (runner c) in
      Some {| world := w'; pc := S (pc c);
              memory := after.1; runner := after.2;
              observer := observer c; observed := observed c |}
  | GetState t =>
      '(v, seen) ← load memory_order_relaxed (StateOf self) t
                        (memory c) (observer c);
      Some {| world := world c; pc := pc c;
              memory := memory c; runner := runner c;
              observer := seen;
              observed := (StateOf self, v) :: observed c |}
  | IsRetrievable t =>
      '(v, seen) ← load memory_order_acquire (LatchOf (Task.out_edge_ task)) t
                        (memory c) (observer c);
      Some {| world := world c; pc := pc c;
              memory := memory c; runner := runner c;
              observer := seen;
              observed := (LatchOf (Task.out_edge_ task), v) :: observed c |}
  end.

Fixpoint execute (evs : list Event) (c : Config) : option Config :=
  match evs with
  | [] => Some c
  | ev :: rest => c' ← step ev c; execute rest c'
  end.

Definition start : Config :=
  {| world := w0; pc := O; memory := λ _, [];
     runner := nothing; observer := nothing; observed := [] |}.

(** The position of the latest store of an object. *)
Definition latest (c : Config) (x : Object) : nat := length (memory c x).

(** *** What the two threads maintain *)

(** No view is ahead of the memory. *)
Definition within (m : Memory) (seen : View) : Prop :=
  ∀ x, (seen x ≤ length (m x))%nat.

Definition views_within (c : Config) : Prop :=
  within (memory c) (runner c) ∧ within (memory c) (observer c) ∧
  ∀ x st, st ∈ memory c x → within (memory c) (released st).

(** Where the thread in [run()] stands, against what it has stored
    and what the observer has read. *)
Definition in_order (c : Config) : Prop :=
  let nw := length (Task.waits task) in
  let out := Task.out_edge_ task in
  ((2 + nw < pc c)%nat → self ∈ Task.invoked (world c)) ∧
  ((4 + nw < pc c)%nat ↔ Task.is_retrievable (world c) out = true) ∧
  (Task.get_state (world c) self = Complete → (5 + nw < pc c)%nat) ∧
  (∀ st, st ∈ memory c (StateOf self) →
     value st = OfState Running ∨
     (value st = OfState Complete ∧ (5 + nw < pc c)%nat)) ∧
  ((StateOf self, OfState Complete) ∈ observed c → (5 + nw < pc c)%nat) ∧
  (∀ st, st ∈ memory c (LatchOf out) →
     value st = OfBool true ∧ (1 ≤ released st (StateOf self))%nat) ∧
  ((4 + nw < pc c)%nat → memory c (LatchOf out) ≠ []) ∧
  ((nw < pc c)%nat → (1 ≤ runner c (StateOf self))%nat) ∧
  ((LatchOf out, OfBool true) ∈ observed c →
     (1 ≤ observer c (StateOf self))%nat).
End Machine.
End Atomics.

(** ** ThreadPoolExecutor.h: the graph executor *)

Module ThreadPoolExecutor.
Import MachineInt.
Section Executor.
Context {V : Type} `{ValueInit V}.

(** The task objects, by address. *)
Variable table : gmap nat (Task.t V).

(** The graph that [compute_reachability] walks: the inward edges of
    every task and the owner of every edge. *)
Definition graph_of (w : Task.World V) : Node.Graph :=
  {| Node.in_edges_ := Task.in_edges_ <$> table;
     Node.owner_ := Edge.owner_ <$> Task.edges w |}.

(** A worker thread of the pool: waiting for a closure, or inside
    [task->run()], about to execute statement number [pc]. *)
Inductive Worker :=
| Idle
| Busy (self : nat) (pc : nat).

Record System := {
  world : Task.World V;
  pool_ : ThreadPool.t nat;
  workers_ : list Worker
}.

(** [std::sort] with a comparator.  The order among elements that
    the comparator does not separate is unspecified in the source;
    this is insertion after the last element that is not greater. *)
Fixpoint insert_sorted (less : nat → nat → bool) (x : nat) (l : list nat)
    : list nat :=
  match l with
  | [] => [x]
  | y :: l' =>
      if less x y then x :: y :: l' else y :: insert_sorted less x l'
  end.

Definition sort (less : nat → nat → bool) (l : list nat) : list nat :=
  foldl (λ acc x, insert_sorted less x acc) [] l.

(** The loop of [run()] that submits one closure per task. *)
Definition submit_all (tasks : list nat) (p : ThreadPool.t nat)
    : ThreadPool.t nat :=
  foldl (λ p task, (ThreadPool.add_task (ThreadPool.StdFunction (Some task)) p).2)
        p tasks.

(** [ThreadPoolExecutor::run] on an executor without a pool yet:
    the pool is created with [hardware_concurrency] workers and no
    callback, the reachabilities are computed, the tasks sorted with
    [*a < *b] (which compares reachabilities) and submitted, and the
    workers spawned. *)
Definition run (fuel : nat) (hardware_concurrency : nat)
    (tasks_to_run_ : list nat) (w : Task.World V) : option System :=
  r ← Node.compute_reachability fuel (graph_of w) (Some <$> tasks_to_run_)
         (Task.reachability_ w);
  let sorted := sort (Node.lt (graph_of w) r) tasks_to_run_ in
  Some {| world := Task.set_reachabilities r w;
          pool_ := submit_all sorted (ThreadPool.make hardware_concurrency false);
          workers_ := replicate hardware_concurrency Idle |}.

(** One step of worker [i]: it pops the front closure and enters
    [task->run()]; or executes the next statement of [run()]; or, the
    closure having returned, accounts for its completion. *)
Definition step (i : nat) (s : System) : option System :=
  match workers_ s !! i with
  | None => None
  | Some Idle =>
      match ThreadPool.pop_task (pool_ s) with
      | (Some self, p') =>
          Some {| world := world s; pool_ := p';
                  workers_ := <[i := Busy self O]> (workers_ s) |}
      | (None, _) => None
      end
  | Some (Busy self pc) =>
      task ← table !! self;
      match Task.run_body task !! pc with
      | Some stmt =>
          w' ← Task.exec task self stmt (world s);
          Some {| world := w'; pool_ := pool_ s;
                  workers_ := <[i := Busy self (S pc)]> (workers_ s) |}
      | None =>
          Some {| world := world s;
                  pool_ := ThreadPool.complete_task (pool_ s);
                  workers_ := <[i := Idle]> (workers_ s) |}
      end
  end.

(** A schedule names the worker that moves next. *)
Fixpoint steps (schedule : list nat) (s : System) : option System :=
  match schedule with
  | [] => Some s
  | i :: rest => s' ← step i s; steps rest s'
  end.

Definition reachable (s s' : System) : Prop :=
  ∃ schedule, steps schedule s = Some s'.

(** Every task owns an outward edge of its own. *)
Definition out_edges_distinct : Prop :=
  NoDup ((λ entry, Task.out_edge_ entry.2) <$> map_to_list table).

(** Before execution begins: no task has left [Incomplete], no
    outward edge is retrievable, every worker is idle. *)
Definition fresh_tasks (w : Task.World V) : Prop :=
  map_Forall (λ n task,
                Task.get_state w n = Incomplete ∧
                Task.is_retrievable w (Task.out_edge_ task) = false) table.

Definition all_idle (s : System) : Prop :=
  Forall (λ wk, wk = Idle) (workers_ s).

(** [ThreadPoolExecutor::wait] returns when the pool is idle. *)
Definition wait_returns (s : System) : Prop :=
  ThreadPool.wait_returns (pool_ s).

(** [ThreadPoolExecutor::cancel]. *)
Definition cancel (s : System) : System :=
  {| world := world s;
     pool_ := ThreadPool.clear_queued_tasks (pool_ s);
     workers_ := workers_ s |}.

(** *** What the workers maintain *)

(** A worker inside [run()] past the call has logged it; past
    [set_out_edge_data] it has latched the outward edge. *)
Definition worker_in_order (w : Task.World V) (wk : Worker) : Prop :=
  match wk with
  | Idle => True
  | Busy self pc =>
      ∀ task, table !! self = Some task →
        (2 + length (Task.waits task) < pc → self ∈ Task.invoked w)%nat ∧
        (4 + length (Task.waits task) < pc →
           Task.is_retrievable w (Task.out_edge_ task) = true)%nat
  end.

Definition produced_in_order (s : System) : Prop :=
  (∀ n task, table !! n = Some task →
     (Task.get_state (world s) n = Complete →
        Task.is_retrievable (world s) (Task.out_edge_ task) = true) ∧
     (Task.is_retrievable (world s) (Task.out_edge_ task) = true →
        n ∈ Task.invoked (world s))) ∧
  Forall (worker_in_order (world s)) (workers_ s).

Fixpoint busy_count (workers : list Worker) : nat :=
  match workers with
  | [] => O
  | Idle :: rest => busy_count rest
  | Busy _ _ :: rest => S (busy_count rest)
  end.

(** Closures queued or running. *)
Definition outstanding (s : System) : nat :=
  (length (ThreadPool.tasks_ (pool_ s)) + busy_count (workers_ s))%nat.

(** The outward edges of the tasks that return a value. *)
Definition value_edges : list nat :=
  omap (λ entry, if Task.return_void entry.2 then None
                 else Some (Task.out_edge_ entry.2))
       (map_to_list table).

Definition wired_slot (task : Task.t V) (idx : nat) : bool :=
  match Task.in_edges_ task !! idx with
  | Some (Some e) => bool_decide (e ∈ value_edges)
  | _ => true
  end.

(** Every attached value input is the outward edge of a task of the
    table that returns a value. *)
Definition wired : Prop :=
  map_Forall (λ _ task,
                forallb (wired_slot task) (Task.filtered (Task.input_void task))
                = true)
             table.

Section Expected.
(** [eval e]: the value that edge [e] is to carry. *)
Variable eval : nat → V.

Definition expected_value (task : Task.t V) (idx : nat) : V :=
  match Task.in_edges_ task !! idx with
  | Some (Some e) => eval e
  | _ => value_init
  end.

Definition expected_arguments (task : Task.t V) : list V :=
  expected_value task <$> Task.filtered (Task.input_void task).

(** Every callable maps the expected inputs to the expected output. *)
Definition evaluates : Prop :=
  map_Forall (λ _ task,
                Task.return_void task = false →
                Task.callable_ task (expected_arguments task)
                = eval (Task.out_edge_ task))
             table.

Definition edges_hold (w : Task.World V) : Prop :=
  ∀ n task, table !! n = Some task → Task.return_void task = false →
    Task.is_retrievable w (Task.out_edge_ task) = true →
    Edge.get_data <$> Task.edges w !! Task.out_edge_ task
    = Some (eval (Task.out_edge_ task)).

Definition result_holds (w : Task.World V) (n : nat) : Prop :=
  ∀ task, table !! n = Some task → Task.return_void task = false →
    Task.result_ w !! n = Some (eval (Task.out_edge_ task)).

Definition worker_holds (w : Task.World V) (wk : Worker) : Prop :=
  match wk with
  | Idle => True
  | Busy self pc =>
      ∀ task, table !! self = Some task →
        (∀ k e, Task.waits task !! k = Some e → (k < pc)%nat →
                Task.is_retrievable w e = true) ∧
        ((2 + length (Task.waits task) < pc)%nat → result_holds w self)
  end.

Definition results_hold (submitted : list nat) (s : System) : Prop :=
  edges_hold (world s) ∧
  Forall (worker_holds (world s)) (workers_ s) ∧
  (∀ n, n ∈ submitted →
     n ∈ ThreadPool.tasks_ (pool_ s) ∨
     (∃ i pc, workers_ s !! i = Some (Busy n pc)) ∨
     result_holds (world s) n) ∧
  ThreadPool.active_task_count_ (pool_ s) = Z.of_nat (outstanding s) ∧
  Z.of_nat (outstanding s) ≤ INT_MAX.
End Expected.

(** *** Running a whole graph *)

(** The submitted tasks are closed under their inputs in [w]: each is
    a task of the table whose outward edge exists, and each of its
    attached inward edges is the outward edge of a submitted task,
    constructed with that task as its owner. *)
Definition closed (tasks : list nat) (w : Task.World V) : Prop :=
  ∀ n, n ∈ tasks →
    ∃ task, table !! n = Some task ∧
      is_Some (Task.edges w !! Task.out_edge_ task) ∧
      ∀ e, e ∈ Task.waits task →
        ∃ p producer edge,
          p ∈ tasks ∧ table !! p = Some producer ∧
          Task.out_edge_ producer = e ∧
          Task.edges w !! e = Some edge ∧ Edge.owner_ edge = p.

(** An executable check of [closed]. *)
Definition check_closed (tasks : list nat) (w : Task.World V) : bool :=
  forallb (λ n,
             match table !! n with
             | None => false
             | Some task =>
                 bool_decide (is_Some (Task.edges w !! Task.out_edge_ task)) &&
                 forallb (λ e,
                            existsb (λ p,
                                       match table !! p, Task.edges w !! e with
                                       | Some producer, Some edge =>
                                           bool_decide (Task.out_edge_ producer = e) &&
                                           bool_decide (Edge.owner_ edge = p)
                                       | _, _ => false
                                       end) tasks)
                         (Task.waits task)
             end) tasks.

(** The queue [q] holds every producer before its consumers. *)
Definition producers_first (g : Node.Graph) (q : list nat) : Prop :=
  ∀ i j p n, q !! i = Some p → q !! j = Some n →
    Node.producer g n p → (i < j)%nat.

(** What the workers keep on their way through the queue [q0] that
    [run()] left, in the world [w0]: the queue is what remains of
    [q0]; a closure that was popped is still in a worker or has
    latched its outward edge; a worker past [set_out_edge_data] has
    latched it; and every edge of [w0] is still there. *)
Definition draining (q0 : list nat) (w0 : Task.World V) (s : System) : Prop :=
  ∃ popped,
    q0 = popped ++ ThreadPool.tasks_ (pool_ s) ∧
    (∀ n, n ∈ popped →
       (∃ i pc, workers_ s !! i = Some (Busy n pc)) ∨
       (∃ task, table !! n = Some task ∧
                Task.is_retrievable (world s) (Task.out_edge_ task) = true)) ∧
    (∀ i n pc, workers_ s !! i = Some (Busy n pc) →
       n ∈ popped ∧
       ∀ task, table !! n = Some task →
         (4 + length (Task.waits task) < pc)%nat →
         Task.is_retrievable (world s) (Task.out_edge_ task) = true) ∧
    (∀ e, is_Some (Task.edges w0 !! e) → is_Some (Task.edges (world s) !! e)).

(** Nothing is left to do: the queue is empty and no worker is inside
    a closure. *)
Definition drained (s : System) : Prop :=
  all_idle s ∧ ThreadPool.tasks_ (pool_ s) = [].

(** The steps that a closure takes from the queue to its completion:
    one to be popped, one per statement of [run()], one for the
    accounting. *)
Definition cost (n : nat) : nat :=
  match table !! n with
  | Some task => 2 + length (Task.run_body task)
  | None => 2
  end.

Definition remaining (wk : Worker) : nat :=
  match wk with
  | Idle => 0
  | Busy self pc => cost self - 1 - pc
  end.

(** The steps still to be taken. *)
Definition work (s : System) : nat :=
  sum_list (cost <$> ThreadPool.tasks_ (pool_ s))
  + sum_list (remaining <$> workers_ s).

(** A worker is at a statement of [run()] or just behind the last. *)
Definition in_range (wk : Worker) : Prop :=
  match wk with
  | Idle => True
  | Busy self pc => (S pc < cost self)%nat
  end.

(** The task a worker has popped and not yet invoked, and the tasks
    the workers are in. *)
Definition pending (wk : Worker) : option nat :=
  match wk with
  | Idle => None
  | Busy self pc =>
      match table !! self with
      | Some task =>
          if decide (pc ≤ 2 + length (Task.waits task))%nat then Some self
          else None
      | None => Some self
      end
  end.

Definition running (wk : Worker) : option nat :=
  match wk with
  | Idle => None
  | Busy self _ => Some self
  end.

(** A worker has seen every edge it has waited for retrievable. *)
Definition worker_waited (w : Task.World V) (wk : Worker) : Prop :=
  match wk with
  | Idle => True
  | Busy self pc =>
      ∀ task, table !! self = Some task →
        ∀ k e, Task.waits task !! k = Some e → (k < pc)%nat →
               Task.is_retrievable w e = true
  end.

(** A worker past the last store of the state has left its task
    [Complete]. *)
Definition worker_completed (w : Task.World V) (wk : Worker) : Prop :=
  match wk with
  | Idle => True
  | Busy self pc =>
      ∀ task, table !! self = Some task →
        (5 + length (Task.waits task) < pc)%nat →
        Task.get_state w self = Complete
  end.

(** The invocation log (latest first) respects the edges: whoever
    produces an input of a logged task was logged before it. *)
Definition log_in_order (log : list nat) : Prop :=
  ∀ l1 n l2, log = l1 ++ n :: l2 →
    ∀ task e p producer,
      table !! n = Some task → e ∈ Task.waits task →
      table !! p = Some producer → Task.out_edge_ producer = e →
      p ∈ l2.
End Executor.
Global Arguments System : clear implicits.
Global Arguments Worker : clear implicits.
End ThreadPoolExecutor.

(** ** Scenarios *)

Module Scenario.

(** A fresh world: the given edges, every field zero-initialised. *)
Definition fresh (edges : gmap nat (Edge.t Z)) : Task.World Z :=
  {| Task.edges := edges; Task.state_ := ∅; Task.result_ := ∅;
     Task.start_time_ := ∅; Task.end_time_ := ∅; Task.reachability_ := ∅;
     Task.now := O; Task.invoked := []; Task.notified := [] |}.

(** S2, the linear chain of five.  [T0 .. T4] live at addresses
    [10 .. 14], their outward edges at [110 .. 114]. *)
Definition T0 : Task.t Z :=
  {| Task.input_void := []; Task.in_edges_ := []; Task.out_edge_ := 110%nat;
     Task.return_void := false; Task.callable_ := λ _, 1 |}.

Definition increment (args : list Z) : Z :=
  match args with
  | prev :: _ => prev + 1
  | [] => 0
  end.

(** [Task<int, int>] before its input is wired. *)
Definition unwired (i : nat) : Task.t Z :=
  {| Task.input_void := [false]; Task.in_edges_ := [None];
     Task.out_edge_ := (110 + i)%nat;
     Task.return_void := false; Task.callable_ := increment |}.

Definition T (i : nat) : Task.t Z :=
  Task.add_inward_edge 0 (109 + i)%nat (unwired i).

Definition chain : gmap nat (Task.t Z) :=
  {[ 10%nat := T0; 11%nat := T 1; 12%nat := T 2; 13%nat := T 3; 14%nat := T 4 ]}.

Definition chain_edges : gmap nat (Edge.t Z) :=
  {[ 110%nat := Edge.make 10; 111%nat := Edge.make 11; 112%nat := Edge.make 12;
     113%nat := Edge.make 13; 114%nat := Edge.make 14 ]}.

Definition chain_tasks : list nat := [10; 11; 12; 13; 14]%nat.

(** What [T_i] is to put on its outward edge [110 + i]: [i + 1]. *)
Definition chain_eval (e : nat) : Z := Z.of_nat e - 109.

(** The executor after [run()] on the chain: reachabilities assigned,
    the five closures queued in ascending order, the workers spawned. *)
Definition chain_started (hardware_concurrency : nat)
    : ThreadPoolExecutor.System Z :=
  {| ThreadPoolExecutor.world :=
       Task.set_reachabilities
         {[ 11%nat := 1; 12%nat := 2; 13%nat := 3; 14%nat := 4 ]}
         (fresh chain_edges);
     ThreadPoolExecutor.pool_ :=
       {| ThreadPool.tasks_ := chain_tasks;
          ThreadPool.active_task_count_ := 5;
          ThreadPool.on_complete_ := false;
          ThreadPool.thread_count_ := hardware_concurrency;
          ThreadPool.completions := O |};
     ThreadPoolExecutor.workers_ :=
       replicate hardware_concurrency ThreadPoolExecutor.Idle |}.

(** The chain as [compute_reachability] sees it, submitted out of
    order and with a null task pointer in the range. *)
Definition chain_graph : Node.Graph :=
  ThreadPoolExecutor.graph_of chain (fresh chain_edges).

Definition shuffled : list (option nat) :=
  [Some 14; Some 10; None; Some 12; Some 11; Some 13]%nat.

(** [Node<int, int>] with nothing attached to its input, and a
    consumer of its output. *)
Definition lone : Node.Graph :=
  {| Node.in_edges_ := {[ 10%nat := [None]; 11%nat := [Some 110%nat] ]};
     Node.owner_ := {[ 110%nat := 10%nat ]} |}.

(** A diamond with a [void] edge.  [A] at [20] is a [Task<int>] that
    returns [1]; [B] at [21], a [Task<int, int>], adds one to it; [C]
    at [22], a [Task<void, int>], consumes it; [D] at [23], a
    [Task<int, int, void>], waits for [B] and [C] and returns ten times
    the value of [B].  The outward edges live at [120 .. 123]. *)
Definition A : Task.t Z :=
  {| Task.input_void := []; Task.in_edges_ := []; Task.out_edge_ := 120%nat;
     Task.return_void := false; Task.callable_ := λ _, 1 |}.

Definition B : Task.t Z :=
  {| Task.input_void := [false]; Task.in_edges_ := [Some 120%nat];
     Task.out_edge_ := 121%nat;
     Task.return_void := false; Task.callable_ := increment |}.

Definition C : Task.t Z :=
  {| Task.input_void := [false]; Task.in_edges_ := [Some 120%nat];
     Task.out_edge_ := 122%nat;
     Task.return_void := true; Task.callable_ := λ _, 0 |}.

Definition times_ten (args : list Z) : Z :=
  match args with
  | b :: _ => b * 10
  | [] => 0
  end.

Definition D : Task.t Z :=
  {| Task.input_void := [false; true];
     Task.in_edges_ := [Some 121%nat; Some 122%nat];
     Task.out_edge_ := 123%nat;
     Task.return_void := false; Task.callable_ := times_ten |}.

Definition diamond : gmap nat (Task.t Z) :=
  {[ 20%nat := A; 21%nat := B; 22%nat := C; 23%nat := D ]}.

Definition diamond_edges : gmap nat (Edge.t Z) :=
  {[ 120%nat := Edge.make 20; 121%nat := Edge.make 21;
     122%nat := Edge.make 22; 123%nat := Edge.make 23 ]}.

(** The tasks as they are handed to the executor, consumers first. *)
Definition diamond_tasks : list nat := [23; 22; 21; 20]%nat.

(** What the outward edges of [A], [B] and [D] are to carry. *)
Definition diamond_eval (e : nat) : Z :=
  if decide (e = 120%nat) then 1
  else if decide (e = 121%nat) then 2
  else if decide (e = 123%nat) then 20
  else 0.

Definition diamond_graph : Node.Graph :=
  ThreadPoolExecutor.graph_of diamond (fresh diamond_edges).

(** Two nodes that consume each other's output. *)
Definition cycle : Node.Graph :=
  {| Node.in_edges_ := {[ 30%nat := [Some 131%nat]; 31%nat := [Some 130%nat] ]};
     Node.owner_ := {[ 130%nat := 30%nat; 131%nat := 31%nat ]} |}.

End Scenario.

(** * Machine integers *)

Section MachineIntFacts.
Import MachineInt.

Lemma to_int_id z : INT_MIN ≤ z ≤ INT_MAX → to_int z = z.
Proof.
  unfold to_int, INT_MIN, INT_MAX. intros Hz. rewrite Z.mod_small; lia.
Qed.

Lemma to_int_small z : 0 ≤ z ≤ INT_MAX → to_int z = z.
Proof. intros Hz. apply to_int_id. unfold INT_MIN. lia. Qed.

Lemma to_size_t_small z : 0 ≤ z ≤ INT_MAX → to_size_t z = z.
Proof.
  unfold to_size_t, INT_MAX. intros Hz. rewrite Z.mod_small; lia.
Qed.
End MachineIntFacts.

(** * The reachability pass *)

Section ReachabilityPass.
Import Node MachineInt.
Variable g : Graph.

Local Abbreviation good_below := (Node.good_below g).
Local Abbreviation visit_post := (Node.visit_post g).
Local Abbreviation ancestor := (Node.ancestor g).
Local Abbreviation from_tasks := (Node.from_tasks g).
Local Abbreviation slot_value := (Node.slot_value g).
Local Abbreviation slot_Rank := (Node.slot_Rank g).

Lemma slot_rank_mono (f f' : nat) edge d :
  (∀ n k, rank f g n = Some k → rank f' g n = Some k) →
  slot_rank (rank f g) g edge = Some d → slot_rank (rank f' g) g edge = Some d.
Proof.
  intros Hmono. destruct edge as [e|]; simpl; [|done].
  destruct (owner_ g !! e) as [p|]; simpl; [|done]. apply Hmono.
Qed.

Lemma rank_mono f f' n k :
  rank f g n = Some k → (f ≤ f')%nat → rank f' g n = Some k.
Proof.
  revert f' n k. induction f as [|f IH]; intros f' n k Hr Hle; [done|].
  destruct f' as [|f']; [lia|]. simpl in *.
  destruct (in_edges_ g !! n) as [es|]; [|done]. simpl in *.
  destruct es as [|edge es]; [done|].
  destruct (mapM (slot_rank (rank f g) g) (edge :: es)) as [ds|] eqn:Hds; [|done].
  simpl in Hr.
  assert (mapM (slot_rank (rank f' g) g) (edge :: es) = Some ds) as ->; [|done].
  apply mapM_Some in Hds. apply mapM_Some.
  eapply Forall2_impl; [exact Hds|]. intros x y Hxy.
  eapply slot_rank_mono; [|exact Hxy]. intros m j Hm. apply IH; [done|lia].
Qed.

Lemma Rank_unique n k k' : Rank g n k → Rank g n k' → k = k'.
Proof.
  intros [f Hf] [f' Hf'].
  apply (rank_mono _ (f `max` f')) in Hf; [|lia].
  apply (rank_mono _ (f `max` f')) in Hf'; [|lia]. congruence.
Qed.

Lemma slot_Rank_fuel f edge d :
  slot_rank (rank f g) g edge = Some d → slot_Rank edge d.
Proof.
  destruct edge as [e|]; simpl; [|congruence].
  destruct (owner_ g !! e) as [p|]; simpl; [|done].
  intros Hp. exists p. split; [done|by exists f].
Qed.

Lemma Forall2_slot_Rank_fuel es ds :
  Forall2 slot_Rank es ds →
  ∃ f, Forall2 (λ edge d, slot_rank (rank f g) g edge = Some d) es ds.
Proof.
  induction 1 as [|edge d es ds Hd _ [f' IH]]; [by exists O|].
  assert (∃ f, slot_rank (rank f g) g edge = Some d) as [f Hf].
  { destruct edge as [e|]; simpl in *.
    - destruct Hd as (p & Hown & [f Hf]). exists f. by rewrite Hown.
    - exists O. congruence. }
  exists (f `max` f')%nat. constructor.
  - eapply slot_rank_mono; [|exact Hf]. intros m j Hm.
    eapply rank_mono; [exact Hm|lia].
  - eapply Forall2_impl; [exact IH|]. intros x y Hxy.
    eapply slot_rank_mono; [|exact Hxy]. intros m j Hm.
    eapply rank_mono; [exact Hm|lia].
Qed.

Lemma Rank_inv n k :
  Rank g n k ↔
  ∃ es, in_edges_ g !! n = Some es ∧
    ((es = [] ∧ k = O) ∨
     (es ≠ [] ∧ ∃ ds, Forall2 slot_Rank es ds ∧ k = S (max_list ds))).
Proof.
  split.
  - intros [[|f] Hf]; [done|]. simpl in Hf.
    destruct (in_edges_ g !! n) as [es|]; [|done]. simpl in Hf.
    exists es. split; [done|].
    destruct es as [|edge es]; [left; split; congruence|right].
    split; [done|].
    destruct (mapM (slot_rank (rank f g) g) (edge :: es)) as [ds|] eqn:Hds; [|done].
    simpl in Hf. exists ds. split; [|congruence].
    apply mapM_Some in Hds. eapply Forall2_impl; [exact Hds|].
    intros x y. apply slot_Rank_fuel.
  - intros (es & Hes & [[-> ->]|[Hne (ds & Hds & ->)]]).
    + exists 1%nat. simpl. by rewrite Hes.
    + apply Forall2_slot_Rank_fuel in Hds as [f Hds].
      exists (S f). simpl. rewrite Hes; simpl.
      destruct es as [|edge es]; [done|].
      by apply mapM_Some in Hds as ->.
Qed.

(** A producer has a strictly lower rank. *)
Lemma Rank_producer n k p :
  Rank g n k → producer g n p → ∃ j, Rank g p j ∧ (j < k)%nat.
Proof.
  intros Hk (es & e & Hes & He & Hown).
  apply Rank_inv in Hk as (es' & Hes' & Hcase).
  assert (es' = es) as -> by congruence.
  destruct Hcase as [[-> _]|[_ (ds & Hds & ->)]]; [by inversion He|].
  apply list_elem_of_lookup in He as [i Hi].
  destruct (Forall2_lookup_l _ _ _ _ _ Hds Hi) as (j & Hj & (p' & Hown' & HR)).
  assert (p' = p) as -> by congruence.
  exists j. split; [done|].
  assert (j ≤ max_list ds)%nat; [|lia].
  apply max_list_elem_of_le. apply list_elem_of_lookup. by exists i.
Qed.

Lemma get_reachability_ext r r' m :
  r' !! m = r !! m → get_reachability g r' m = get_reachability g r m.
Proof. unfold get_reachability. by intros ->. Qed.

Lemma visit_post_refl R b s : visit_post R b s s.
Proof. split; [done|]. split; [done|]. intros m Hm Hn. done. Qed.

Lemma visit_post_weaken (R R' : nat → Prop) b b' s s' :
  (∀ m, R m → R' m) → (b ≤ b')%nat →
  visit_post R b s s' → visit_post R' b' s s'.
Proof.
  intros HR Hb (Hsub & Hold & Hnew). split; [done|]. split; [done|].
  intros m Hm Hn. destruct (Hnew m Hm Hn) as (HRm & Hcl & j & Hj & Hle & Hget).
  split; [by apply HR|]. split; [done|]. exists j. repeat split; [done|lia|done].
Qed.

Lemma visit_post_trans R b s s1 s2 :
  visit_post R b s s1 → visit_post R b s1 s2 → visit_post R b s s2.
Proof.
  intros (Hsub1 & Hold1 & Hnew1) (Hsub2 & Hold2 & Hnew2).
  split; [by etrans|]. split.
  - intros m [Hm|Hm].
    + rewrite Hold2; [|left; by apply Hsub1]. apply Hold1. by left.
    + rewrite Hold2; [|by right]. apply Hold1. right.
      intros Hm1. by apply Hm, Hsub2.
  - intros m Hm Hn. destruct (decide (m ∈ marker s1)) as [Hm1|Hm1].
    + destruct (Hnew1 m Hm1 Hn) as (HRm & Hcl & j & Hj & Hle & Hget).
      split; [done|]. split; [intros p Hp; by apply Hsub2, Hcl|].
      exists j. repeat split; [done..|].
      rewrite <- Hget. apply get_reachability_ext, Hold2. by left.
    + destruct (Hnew2 m Hm Hm1) as (HRm & Hcl & j & Hj & Hle & Hget).
      split; [done|]. split; [done|]. by exists j.
Qed.

Lemma good_below_step R b k s s' :
  visit_post R b s s' → good_below k s → good_below k s'.
Proof.
  intros (Hsub & Hold & Hnew) Hgood m j Hm Hj Hlt.
  destruct (decide (m ∈ marker s)) as [Hms|Hms].
  - rewrite <- (Hgood m j Hms Hj Hlt).
    apply get_reachability_ext, Hold. by left.
  - destruct (Hnew m Hm Hms) as (_ & _ & j' & Hj' & _ & Hget).
    by rewrite (Rank_unique _ _ _ Hj Hj').
Qed.

Lemma slot_value_mono s s' edge a :
  marker s ⊆ marker s' → slot_value s edge a → slot_value s' edge a.
Proof.
  intros Hsub. destruct edge as [e|]; [|done].
  intros (p & j & ? & ? & ? & ?). exists p, j. repeat split; [done..|].
  by apply Hsub.
Qed.

(** The loop over the inward edges, given that the recursive calls do
    what they should on every node of rank at most [k']. *)
Section Loop.
Variables (fuel k' : nat).
Hypothesis Hbound : Z.of_nat k' ≤ INT_MAX.
Hypothesis IH : ∀ j p s, (j ≤ k')%nat → Rank g p j → good_below j s →
  ∃ s', set_reachability fuel g p s = Some s' ∧ p ∈ marker s' ∧
        visit_post (ancestor p) j s s'.

Lemma inward_reachabilities_spec es s :
  (∀ e, Some e ∈ es → ∃ p j, owner_ g !! e = Some p ∧ Rank g p j ∧ (j ≤ k')%nat) →
  good_below (S k') s →
  ∃ s' arr,
    inward_reachabilities (set_reachability fuel g) g es s = Some (s', arr) ∧
    visit_post (λ m, ∃ e p, Some e ∈ es ∧ owner_ g !! e = Some p ∧ ancestor p m)
               k' s s' ∧
    Forall2 (slot_value s') es arr.
Proof.
  revert s. induction es as [|edge es IHes]; intros s Hes Hgood.
  - exists s, []. simpl. split; [done|]. split; [apply visit_post_refl|constructor].
  - destruct edge as [e|].
    + destruct (Hes e) as (p & j & Hown & Hj & Hle); [left|].
      destruct (IH j p s Hle Hj) as (s1 & Hrun & Hp & Hpost1).
      { intros m i Hm Hi Hlt. apply Hgood; [done..|lia]. }
      assert (get_reachability g (reachability_ s1) p = Z.of_nat j) as Hval.
      { destruct (decide (p ∈ marker s)) as [Hps|Hps].
        - rewrite <- (Hgood p j Hps Hj); [|lia].
          apply get_reachability_ext. apply Hpost1. by left.
        - destruct Hpost1 as (_ & _ & Hnew).
          destruct (Hnew p Hp Hps) as (_ & _ & j' & Hj' & _ & Hget).
          by rewrite (Rank_unique _ _ _ Hj Hj'). }
      destruct (IHes s1) as (s2 & arr & Hloop & Hpost2 & Harr).
      { intros e' He'. apply Hes. by right. }
      { eapply good_below_step; done. }
      exists s2, (Z.of_nat j :: arr). split.
      { simpl. rewrite Hown. simpl. rewrite Hrun. simpl. rewrite Hloop. simpl.
        rewrite Hval, to_int_small; [done|lia]. }
      split.
      { eapply visit_post_trans.
        - eapply visit_post_weaken; [| |exact Hpost1]; [|done].
          intros m Hm. exists e, p. split; [left|done].
        - eapply visit_post_weaken; [| |exact Hpost2]; [|done].
          intros m (e' & p' & He' & ? & ?). exists e', p'. split; [by right|done]. }
      constructor; [|done]. exists p, j. repeat split; [done..|].
      destruct Hpost2 as (Hsub & _). by apply Hsub.
    + destruct (IHes s) as (s2 & arr & Hloop & Hpost2 & Harr).
      { intros e' He'. apply Hes. by right. }
      { done. }
      exists s2, (0 :: arr). split.
      { simpl. rewrite Hloop. done. }
      split.
      { eapply visit_post_weaken; [| |exact Hpost2]; [|done].
        intros m (e' & p' & He' & ? & ?). exists e', p'. split; [by right|done]. }
      constructor; done.
Qed.
End Loop.

(** The scratch array holds the ranks of the slots, and its largest
    element is their maximum. *)
Lemma slot_values_ranks s es arr ds :
  Forall2 (slot_value s) es arr → Forall2 slot_Rank es ds →
  arr = Z.of_nat <$> ds.
Proof.
  intros Harr. revert ds.
  induction Harr as [|edge a es arr Ha _ IHarr]; intros ds Hds.
  - by inversion Hds.
  - inversion Hds as [|? d ? ds' Hd Hds']; subst. simpl.
    rewrite (IHarr ds' Hds'). f_equal.
    destruct edge as [e|]; simpl in *; [|lia].
    destruct Ha as (p & j & Hown & Hj & -> & _).
    destruct Hd as (p' & Hown' & Hd).
    assert (p' = p) as -> by congruence.
    by rewrite (Rank_unique _ _ _ Hd Hj).
Qed.

Lemma foldl_max_of_nat (x : nat) (ds : list nat) :
  foldl Z.max (Z.of_nat x) (Z.of_nat <$> ds) = Z.of_nat (max_list (x :: ds)).
Proof.
  revert x. induction ds as [|d ds IHds]; intros x; simpl.
  - lia.
  - rewrite <- Nat2Z.inj_max, IHds. simpl. lia.
Qed.

Lemma max_element_of_nat (ds : list nat) :
  ds ≠ [] → max_element (Z.of_nat <$> ds) = Some (Z.of_nat (max_list ds)).
Proof.
  destruct ds as [|d ds]; [done|]. intros _. simpl max_element.
  by rewrite foldl_max_of_nat.
Qed.

Lemma set_reachability_spec k : ∀ n s fuel,
  Rank g n k → (k < fuel)%nat → Z.of_nat k ≤ INT_MAX → good_below k s →
  ∃ s', set_reachability fuel g n s = Some s' ∧ n ∈ marker s' ∧
        visit_post (ancestor n) k s s'.
Proof.
  induction k as [k IHk] using lt_wf_ind.
  intros n s [|fuel] Hk Hfuel Hmax Hgood; [lia|]. simpl.
  destruct (decide (n ∈ marker s)) as [Hn|Hn].
  { exists s. split; [done|]. split; [done|]. apply visit_post_refl. }
  pose proof Hk as Hk'.
  apply Rank_inv in Hk' as (es & Hes & Hcase). rewrite Hes.
  set (s0 := {| marker := {[n]} ∪ marker s; reachability_ := reachability_ s |}).
  assert (marker s ⊆ marker s0) as Hsub0 by apply union_subseteq_r.
  destruct Hcase as [[-> ->]|[Hne (ds & Hds & ->)]].
  { (* the specialisation without inputs *)
    exists s0. split; [done|].
    split; [by apply elem_of_union_l, elem_of_singleton|].
    split; [done|]. split; [done|].
    intros m Hm Hms. simpl in Hm. apply elem_of_union in Hm as [Hm|Hm]; [|done].
    apply elem_of_singleton in Hm as ->.
    split; [apply rtc_refl|]. split.
    - intros p (es' & e & Hes' & He & _).
      assert (es' = []) as -> by congruence. by inversion He.
    - exists O. split; [done|]. split; [done|].
      unfold get_reachability. by rewrite Hes. }
  destruct es as [|edge es]; [done|].
  set (k' := max_list ds) in *.
  destruct (inward_reachabilities_spec fuel k') with (es := edge :: es) (s := s0)
    as (s1 & arr & Hloop & Hpost & Harr).
  { lia. }
  { intros j p s' Hj Hp Hgood'. apply IHk; [lia|done|lia|lia|done]. }
  { intros e He.
    apply list_elem_of_lookup in He as [i Hi].
    destruct (Forall2_lookup_l _ _ _ _ _ Hds Hi) as (j & Hj & (p & Hown & HR)).
    exists p, j. repeat split; [done..|].
    apply max_list_elem_of_le. apply list_elem_of_lookup. by exists i. }
  { intros m j Hm Hj Hlt. simpl in Hm.
    apply elem_of_union in Hm as [Hm|Hm].
    - apply elem_of_singleton in Hm as ->.
      pose proof (Rank_unique _ _ _ Hk Hj). lia.
    - by apply Hgood. }
  rewrite Hloop. simpl.
  rewrite (slot_values_ranks _ _ _ _ Harr Hds).
  rewrite max_element_of_nat by (intros ->; by inversion Hds). simpl.
  unfold int_add. rewrite decide_True by (unfold INT_MIN; lia). simpl.
  rewrite to_size_t_small by lia.
  destruct Hpost as (Hsub1 & Hold1 & Hnew1).
  assert (n ∈ marker s1) as Hn1
    by (by apply Hsub1, elem_of_union_l, elem_of_singleton).
  eexists. split; [done|]. split; [done|].
  split; [simpl; by etrans|]. split.
  - intros m Hm. simpl.
    assert (m ≠ n) as Hmn by (intros ->; destruct Hm; done).
    rewrite lookup_insert_ne by done.
    apply (Hold1 m). destruct Hm as [Hm|Hm]; [left; by apply Hsub0|by right].
  - intros m Hm Hms. simpl in Hm. destruct (decide (m = n)) as [->|Hmn].
    + split; [apply rtc_refl|]. split.
      * intros p (es' & e & Hes' & He & Hown). simpl.
        assert (es' = edge :: es) as -> by congruence.
        apply list_elem_of_lookup in He as [i Hi].
        destruct (Forall2_lookup_l _ _ _ _ _ Harr Hi) as (a & _ & Ha).
        simpl in Ha. destruct Ha as (p' & j & Hown' & _ & _ & Hp').
        congruence.
      * exists (S k'). split; [done|]. split; [done|]. simpl.
        unfold get_reachability. rewrite Hes, lookup_insert_eq. simpl. lia.
    + assert (m ∉ marker s0) as Hm0.
      { simpl. intros [Hm0|Hm0]%elem_of_union; [|done].
        by apply elem_of_singleton in Hm0. }
      destruct (Hnew1 m Hm Hm0)
        as ((e & p & He & Hown & Hanc) & Hcl & j & Hj & Hle & Hget).
      split.
      { eapply rtc_l; [|exact Hanc]. by exists (edge :: es), e. }
      split; [done|].
      exists j. split; [done|]. split; [lia|]. simpl.
      rewrite <- Hget. apply get_reachability_ext. by rewrite lookup_insert_ne.
Qed.

Lemma good_below_all s s' R b :
  visit_post R b s s' → (∀ k, good_below k s) → ∀ k, good_below k s'.
Proof. intros Hpost Hgood k. eapply good_below_step; [exact Hpost|apply Hgood]. Qed.

Lemma visit_tasks_spec fuel tasks : ∀ s,
  (∀ t, Some t ∈ tasks →
     ∃ k, Rank g t k ∧ (k < fuel)%nat ∧ Z.of_nat k ≤ INT_MAX) →
  (∀ k, good_below k s) →
  ∃ s', visit_tasks fuel g tasks s = Some s' ∧
        (∀ t, Some t ∈ tasks → t ∈ marker s') ∧
        visit_post (from_tasks tasks) fuel s s'.
Proof.
  induction tasks as [|task tasks IHt]; intros s Hwf Hgood.
  - exists s. split; [done|]. split; [intros t Ht; by inversion Ht|].
    apply visit_post_refl.
  - destruct task as [t|]; simpl.
    + destruct (Hwf t) as (k & Hk & Hfuel & Hmax); [left|].
      destruct (set_reachability_spec k t s fuel Hk Hfuel Hmax (Hgood k))
        as (s1 & Hrun & Ht1 & Hpost1).
      destruct (IHt s1) as (s2 & Hrest & Hin & Hpost2).
      { intros t' Ht'. apply Hwf. by right. }
      { eapply good_below_all; done. }
      exists s2. rewrite Hrun. simpl. split; [done|]. split.
      * intros t' Ht'. apply elem_of_cons in Ht' as [[= ->]|Ht'].
        -- destruct Hpost2 as (Hsub & _). by apply Hsub.
        -- by apply Hin.
      * eapply visit_post_trans.
        -- eapply visit_post_weaken; [| |exact Hpost1]; [|lia].
           intros m Hm. exists t. split; [left|done].
        -- eapply visit_post_weaken; [| |exact Hpost2]; [|done].
           intros m (t' & Ht' & Hm). exists t'. split; [by right|done].
    + destruct (IHt s) as (s2 & Hrest & Hin & Hpost2).
      { intros t' Ht'. apply Hwf. by right. }
      { done. }
      exists s2. split; [done|]. split.
      * intros t' Ht'. apply elem_of_cons in Ht' as [[=]|Ht']. by apply Hin.
      * eapply visit_post_weaken; [| |exact Hpost2]; [|done].
        intros m (t' & Ht' & Hm). exists t'. split; [by right|done].
Qed.

(** What one pass leaves behind: the nodes it marked are those reachable
    from the range; each of them holds its rank, every other node keeps
    the field it had. *)
Lemma compute_reachability_char fuel tasks r :
  (∀ t, Some t ∈ tasks →
     ∃ k, Rank g t k ∧ (k < fuel)%nat ∧ Z.of_nat k ≤ INT_MAX) →
  ∃ r' (marked : gset nat),
    compute_reachability fuel g tasks r = Some r' ∧
    (∀ n, n ∈ marked ↔ from_tasks tasks n) ∧
    (∀ n, n ∈ marked →
       ∃ k, Rank g n k ∧ get_reachability g r' n = Z.of_nat k) ∧
    (∀ n, n ∉ marked → r' !! n = r !! n).
Proof.
  intros Hwf. unfold compute_reachability.
  destruct (visit_tasks_spec fuel tasks {| marker := ∅; reachability_ := r |} Hwf)
    as (s' & Hrun & Hin & Hsub & Hold & Hnew).
  { intros k m j Hm. simpl in Hm. by apply not_elem_of_empty in Hm. }
  rewrite Hrun. simpl. exists (reachability_ s'), (marker s'). split; [done|].
  split; [|split].
  - intros m. split.
    + intros Hm. destruct (Hnew m Hm) as (HR & _); [|done].
      simpl. apply not_elem_of_empty.
    + intros (t & Ht & Hanc). specialize (Hin t Ht). clear Ht.
      induction Hanc as [x|x y z Hxy _ IH]; [done|]. apply IH.
      destruct (Hnew x Hin) as (_ & Hcl & _); [simpl; apply not_elem_of_empty|].
      by apply (Hcl y).
  - intros n Hn.
    destruct (Hnew n Hn) as (_ & _ & j & Hj & _ & Hget);
      [simpl; apply not_elem_of_empty|].
    by exists j.
  - intros n Hn. apply (Hold n). by right.
Qed.

(** Fuel above every rank of the range. *)
Lemma fuel_bound (tasks : list (option nat)) :
  acyclic g tasks →
  ∃ fuel0, ∀ fuel, (fuel0 ≤ fuel)%nat → ∀ t, Some t ∈ tasks →
    ∃ k, Rank g t k ∧ (k < fuel)%nat ∧ Z.of_nat k ≤ INT_MAX.
Proof.
  unfold acyclic. induction tasks as [|task tasks IHt]; intros Hwf.
  - exists O. intros fuel _ t Ht. by inversion Ht.
  - destruct IHt as [f0 Hf0]; [intros t Ht; apply Hwf; by right|].
    destruct task as [t|].
    + destruct (Hwf t) as (k & Hk & Hmax); [left|].
      exists (S k `max` f0)%nat. intros fuel Hfuel t' Ht'.
      apply elem_of_cons in Ht' as [[= ->]|Ht'].
      * exists k. repeat split; [done|lia|done].
      * apply Hf0; [lia|done].
    + exists f0. intros fuel Hfuel t' Ht'.
      apply elem_of_cons in Ht' as [[=]|Ht']. by apply Hf0.
Qed.

(** ** Rank and depth

    Where no node has all its declared inputs unattached, the rank that
    the traversal computes is the depth [d]. *)
Section RankIsDepth.
Hypothesis Hattached : no_missing_edges g.

Lemma producers_cons_None es : producers g (None :: es) = producers g es.
Proof. done. Qed.

Lemma producers_cons_Some e es ps :
  producers g (Some e :: es) = Some ps ↔
  ∃ p ps', owner_ g !! e = Some p ∧ producers g es = Some ps' ∧ ps = p :: ps'.
Proof.
  unfold producers. split.
  - intros Hps. apply mapM_Some in Hps. simpl in Hps.
    inversion Hps as [|? p ? ps' Hp Hps']; subst.
    exists p, ps'. split; [done|]. split; [by apply mapM_Some|done].
  - intros (p & ps' & Hp & Hps' & ->). apply mapM_Some. simpl.
    constructor; [done|]. by apply mapM_Some.
Qed.

(** The ranks of the slots and the depths of the producers: the same
    numbers, up to a [0] for every null slot. *)
Lemma slots_producers (R D : nat → nat → Prop) es :
  (∀ p d, R p d ↔ D p d) →
  ∀ m,
  (∃ ds, Forall2 (λ edge d, match edge with
                            | Some e => ∃ p, owner_ g !! e = Some p ∧ R p d
                            | None => d = O
                            end) es ds ∧ max_list ds = m) ↔
  (∃ ps ds, producers g es = Some ps ∧ Forall2 D ps ds ∧ max_list ds = m).
Proof.
  intros HRD. induction es as [|edge es IHes]; intros m.
  - split.
    + intros (ds & Hds & <-). inversion Hds; subst. by exists [], [].
    + intros (ps & ds & Hps & Hds & <-). inversion Hps; subst.
      inversion Hds; subst. by exists [].
  - destruct edge as [e|].
    + split.
      * intros (ds & Hds & <-).
        inversion Hds as [|? d ? ds' Hd Hds']; subst.
        simpl in Hd. destruct Hd as (p & Hown & Hd).
        destruct (IHes (max_list ds')) as [(ps & ds2 & Hps & Hds2 & Hmax) _];
          [by exists ds'|].
        exists (p :: ps), (d :: ds2). split; [|split].
        -- apply producers_cons_Some. by exists p, ps.
        -- constructor; [by apply HRD|done].
        -- simpl. by rewrite Hmax.
      * intros (ps & ds & Hps & Hds & <-).
        apply producers_cons_Some in Hps as (p & ps' & Hown & Hps' & ->).
        inversion Hds as [|? d ? ds' Hd Hds']; subst.
        destruct (IHes (max_list ds')) as [_ (ds2 & Hds2 & Hmax)];
          [by exists ps', ds'|].
        exists (d :: ds2). split.
        -- constructor; [|done]. exists p. split; [done|by apply HRD].
        -- simpl. by rewrite Hmax.
    + rewrite producers_cons_None. rewrite <- IHes. split.
      * intros (ds & Hds & <-).
        inversion Hds as [|? d ? ds' Hd Hds']; subst.
        by exists ds'.
      * intros (ds & Hds & <-). exists (O :: ds). split; [by constructor|done].
Qed.

Lemma producers_nil es ps :
  producers g es = Some ps → (ps = [] ↔ omap id es = []).
Proof.
  unfold producers. intros Hps. apply length_mapM in Hps.
  split; intros Heq; [|destruct ps; [done|]; by rewrite Heq in Hps].
  subst ps. by destruct (omap id es).
Qed.

Lemma rank_depth fuel : ∀ n k, rank fuel g n = Some k ↔ depth fuel g n = Some k.
Proof.
  induction fuel as [|fuel IH]; intros n k; [done|]. simpl.
  destruct (in_edges_ g !! n) as [es|] eqn:Hes; [|done]. simpl.
  pose proof (slots_producers (λ p d, rank fuel g p = Some d)
                (λ p d, depth fuel g p = Some d) es IH) as Hslots.
  destruct es as [|edge es]; [done|].
  pose proof (Hattached n _ Hes ltac:(done)) as Hsome.
  split.
  - destruct (mapM (slot_rank (rank fuel g) g) (edge :: es)) as [ds|] eqn:Hds;
      [|done].
    simpl. intros [= <-].
    destruct (Hslots (max_list ds)) as [(ps & ds2 & Hps & Hds2 & Hmax) _].
    { exists ds. split; [|done]. apply mapM_Some in Hds.
      eapply Forall2_impl; [exact Hds|]. intros [e|] d; simpl; [|congruence].
      destruct (owner_ g !! e) as [p|]; simpl; [|done]. intros Hp. by exists p. }
    rewrite Hps. simpl.
    destruct ps as [|p ps].
    { exfalso. apply Hsome. by apply (producers_nil _ _ Hps). }
    apply mapM_Some in Hds2. rewrite Hds2. simpl. by rewrite Hmax.
  - destruct (producers g (edge :: es)) as [ps|] eqn:Hps; [|done]. simpl.
    destruct ps as [|p ps].
    { exfalso. apply Hsome. by apply (producers_nil _ _ Hps). }
    destruct (mapM (depth fuel g) (p :: ps)) as [ds|] eqn:Hds; [|done].
    simpl. intros [= <-].
    destruct (Hslots (max_list ds)) as [_ (ds2 & Hds2 & Hmax)].
    { exists (p :: ps), ds. split; [done|]. split; [|done]. by apply mapM_Some. }
    assert (mapM (slot_rank (rank fuel g) g) (edge :: es) = Some ds2) as Hds2'.
    { apply mapM_Some. eapply Forall2_impl; [exact Hds2|].
      intros [e|] d; simpl; [|congruence].
      intros (p' & -> & Hp'). done. }
    simpl in Hds2'. rewrite Hds2'. simpl. by rewrite Hmax.
Qed.

Lemma Rank_Depth n k : Rank g n k ↔ Depth g n k.
Proof. split; intros [fuel Hf]; exists fuel; by apply rank_depth. Qed.
End RankIsDepth.
End ReachabilityPass.

(** * Claims about the reachability pass *)

Section ReachabilityClaims.
Import Node MachineInt.

Lemma check_acyclic_sound fuel g tasks :
  check_acyclic fuel g tasks = true → acyclic g tasks.
Proof.
  unfold check_acyclic. intros Hd t Ht. rewrite forallb_forall in Hd.
  specialize (Hd (Some t)). simpl in Hd.
  destruct (rank fuel g t) as [k|] eqn:Hk.
  - exists k. split; [by exists fuel|].
    eapply bool_decide_eq_true_1. apply Hd. by apply list_elem_of_In.
  - discriminate Hd. by apply list_elem_of_In.
Qed.

Lemma check_well_formed_sound fuel g tasks :
  check_well_formed fuel g tasks = true → well_formed g tasks.
Proof.
  unfold check_well_formed. intros Hc.
  apply andb_prop in Hc as [Hm Hd]. split.
  - by apply bool_decide_eq_true_1 in Hm.
  - intros t Ht. rewrite forallb_forall in Hd.
    specialize (Hd (Some t)). simpl in Hd.
    destruct (depth fuel g t) as [k|] eqn:Hk.
    + exists k. split; [by exists fuel|].
      eapply bool_decide_eq_true_1. apply Hd. by apply list_elem_of_In.
    + discriminate Hd. by apply list_elem_of_In.
Qed.

Lemma well_formed_acyclic g tasks : well_formed g tasks → acyclic g tasks.
Proof.
  intros [Hedges Hdag] t Ht. destruct (Hdag t Ht) as (k & Hk & Hmax).
  exists k. split; [by apply Rank_Depth|done].
Qed.

(** C1.  On a well-formed DAG, with enough fuel for the recursion,
    [compute_reachability] over the submitted range returns, and
    afterwards every submitted node, and every node one of them depends
    on, has a cached reachability equal to its depth [d]: [0] without
    inward edges, otherwise one more than the largest depth among the
    producers of its inward edges. *)
Theorem compute_reachability_depth g tasks :
  well_formed g tasks →
  ∃ fuel0, ∀ fuel r, (fuel0 ≤ fuel)%nat →
    ∃ r', compute_reachability fuel g tasks r = Some r' ∧
      ∀ n, from_tasks g tasks n →
        ∃ k, Depth g n k ∧ get_reachability g r' n = Z.of_nat k.
Proof.
  intros Hwf. pose proof Hwf as [Hedges _].
  destruct (fuel_bound g tasks (well_formed_acyclic g tasks Hwf)) as [fuel0 Hfuel0].
  exists fuel0. intros fuel r Hfuel.
  destruct (compute_reachability_char g fuel tasks r (Hfuel0 fuel Hfuel))
    as (r' & marked & Hrun & Hmarked & Hin & _).
  exists r'. split; [done|]. intros n Hn.
  destruct (Hin n) as (k & Hk & Hget); [by apply Hmarked|].
  exists k. split; [by apply Rank_Depth|done].
Qed.

(** C9.  On a DAG, with enough fuel, running [compute_reachability]
    again over the same set of tasks, in the same or any other order,
    leaves every node with the reachability the first run gave it; and
    the first run gives the same values whatever the order of the
    tasks. *)
Theorem compute_reachability_idempotent g tasks tasks' :
  acyclic g tasks → tasks ≡ₚ tasks' →
  ∃ fuel0, ∀ fuel r, (fuel0 ≤ fuel)%nat →
    ∃ r1 r1' r2,
      compute_reachability fuel g tasks r = Some r1 ∧
      compute_reachability fuel g tasks' r = Some r1' ∧
      compute_reachability fuel g tasks' r1 = Some r2 ∧
      ∀ n, get_reachability g r1' n = get_reachability g r1 n ∧
           get_reachability g r2 n = get_reachability g r1 n.
Proof.
  intros Hdag Hperm.
  destruct (fuel_bound g tasks Hdag) as [fuel0 Hfuel0].
  exists fuel0. intros fuel r Hfuel.
  assert (∀ t, Some t ∈ tasks' →
            ∃ k, Rank g t k ∧ (k < fuel)%nat ∧ Z.of_nat k ≤ INT_MAX) as Hdag'.
  { intros t Ht. apply (Hfuel0 fuel Hfuel). by rewrite Hperm. }
  assert (∀ n, from_tasks g tasks' n ↔ from_tasks g tasks n) as Hsame.
  { intros n. split; intros (t & Ht & Hanc); exists t; split; try done.
    - by rewrite Hperm.
    - by rewrite <- Hperm. }
  destruct (compute_reachability_char g fuel tasks r (Hfuel0 fuel Hfuel))
    as (r1 & M1 & Hrun1 & Hmarked1 & Hin1 & Hout1).
  destruct (compute_reachability_char g fuel tasks' r Hdag')
    as (r1' & M1' & Hrun1' & Hmarked1' & Hin1' & Hout1').
  destruct (compute_reachability_char g fuel tasks' r1 Hdag')
    as (r2 & M2 & Hrun2 & Hmarked2 & Hin2 & Hout2).
  exists r1, r1', r2. do 3 (split; [done|]).
  assert (∀ n, n ∈ M1' ↔ n ∈ M1) as Heq1.
  { intros n. by rewrite Hmarked1', Hmarked1. }
  assert (∀ n, n ∈ M2 ↔ n ∈ M1) as Heq2.
  { intros n. by rewrite Hmarked2, Hmarked1. }
  intros n. destruct (decide (n ∈ M1)) as [Hn|Hn].
  - destruct (Hin1 n Hn) as (k & Hk & ->).
    destruct (Hin1' n) as (k' & Hk' & ->); [by apply Heq1|].
    destruct (Hin2 n) as (k2 & Hk2 & ->); [by apply Heq2|].
    by rewrite (Rank_unique g n k' k Hk' Hk), (Rank_unique g n k2 k Hk2 Hk).
  - split.
    + etrans; [apply get_reachability_ext, Hout1'; by rewrite Heq1|].
      symmetry. by apply get_reachability_ext, Hout1.
    + apply get_reachability_ext, Hout2. by rewrite Heq2.
Qed.
End ReachabilityClaims.

(** The chain of S2, submitted out of order with a null task pointer. *)
Lemma compute_reachability_depth_witness :
  ∃ fuel0, ∀ fuel r, (fuel0 ≤ fuel)%nat →
    ∃ r', Node.compute_reachability fuel Scenario.chain_graph Scenario.shuffled r
          = Some r' ∧
      ∀ n, Node.from_tasks Scenario.chain_graph Scenario.shuffled n →
        ∃ k, Node.Depth Scenario.chain_graph n k ∧
             Node.get_reachability Scenario.chain_graph r' n = Z.of_nat k.
Proof.
  apply (compute_reachability_depth Scenario.chain_graph Scenario.shuffled).
  apply (check_well_formed_sound 5). vm_compute. reflexivity.
Defined.

(** A node with an unattached input and its consumer, in two orders. *)
Lemma compute_reachability_idempotent_witness :
  ∃ fuel0, ∀ fuel r, (fuel0 ≤ fuel)%nat →
    ∃ r1 r1' r2,
      Node.compute_reachability fuel Scenario.lone [Some 11; None; Some 10]%nat r
        = Some r1 ∧
      Node.compute_reachability fuel Scenario.lone [Some 10; Some 11; None]%nat r
        = Some r1' ∧
      Node.compute_reachability fuel Scenario.lone [Some 10; Some 11; None]%nat r1
        = Some r2 ∧
      ∀ n, Node.get_reachability Scenario.lone r1' n
             = Node.get_reachability Scenario.lone r1 n ∧
           Node.get_reachability Scenario.lone r2 n
             = Node.get_reachability Scenario.lone r1 n.
Proof.
  apply (compute_reachability_idempotent Scenario.lone
           [Some 11; None; Some 10]%nat [Some 10; Some 11; None]%nat).
  - apply (check_acyclic_sound 2). vm_compute. reflexivity.
  - apply (bool_decide_unpack _). vm_compute. exact I.
Defined.

(** Why [well_formed] asks that no edge be missing: a node that declares
    an input and has nothing attached to it has no inward edge, so its
    depth is [0]; the pass gives it reachability [1]. *)
Remark unattached_input_reachability :
  Node.depth 1 Scenario.lone 10 = Some O ∧
  ∃ r, Node.compute_reachability 1 Scenario.lone [Some 10%nat] ∅ = Some r ∧
       Node.get_reachability Scenario.lone r 10 = 1.
Proof.
  split; [reflexivity|]. eexists. split; [vm_compute; reflexivity|reflexivity].
Qed.

(** * The edge *)

Section EdgeClaims.
Context {T : Type}.
Implicit Types (e : Edge.t T) (cs : list (Edge.Call T)).

Lemma calls_retrievable cs e :
  Edge.is_retrievable e = true → Edge.is_retrievable (Edge.calls cs e).1 = true.
Proof.
  revert e. induction cs as [|[data|] cs IH]; intros e He; simpl; [done|..].
  - by apply IH.
  - specialize (IH e He). by destruct (Edge.calls cs e).
Qed.

Lemma calls_reads n e :
  Edge.calls (replicate n Edge.GetData) e = (e, replicate n (Edge.get_data e)).
Proof. induction n as [|n IH]; simpl; [done|]. by rewrite IH. Qed.

(** C5, as the code has it.  Once [set_data] has been called the latch
    stays set whatever calls follow, and any number of reads that
    follow a [set_data] return the value it stored and leave the edge
    as it is; but a second [set_data] does not fail: it overwrites, and
    the reads after it return the second value. *)
Theorem set_data_latches_and_overwrites e (v v2 : T) cs n :
  Edge.is_retrievable (Edge.calls cs (Edge.set_data v e)).1 = true ∧
  Edge.calls (replicate n Edge.GetData) (Edge.set_data v e)
    = (Edge.set_data v e, replicate n v) ∧
  Edge.calls (Edge.SetData v2 :: replicate n Edge.GetData) (Edge.set_data v e)
    = (Edge.set_data v2 (Edge.set_data v e), replicate n v2).
Proof.
  split; [by apply calls_retrievable|]. split.
  - by rewrite calls_reads.
  - simpl. by rewrite calls_reads.
Qed.
End EdgeClaims.

(** C5 as stated fails: after [set_data(100)], a second [set_data(200)]
    is not ignored, and the read that follows does not return [100]
    (the test [EdgeTest.SetDataOverwrites] expects [200]). *)
Lemma set_data_twice_counterexample :
  let e := Edge.set_data 100 (Edge.make 7) in
  Edge.is_retrievable e = true ∧
  ¬ Forall (λ r, r = 100) (Edge.calls [Edge.SetData 200; Edge.GetData] e).2.
Proof.
  split; [done|]. simpl. intros Hall. by inversion Hall.
Qed.

(** * The worker pool *)

Section PoolClaims.
Import MachineInt ThreadPool.
Context {F : Type}.
Implicit Types (p : ThreadPool.t F) (fn : Callable F).

(** C6.  [add_task] on a null function pointer or an empty
    [std::function] returns [false] and changes nothing; on any other
    argument it returns [true], the closure is the new back of the
    queue and the outstanding counter, an [int] below [INT_MAX], is one
    more than before. *)
Theorem add_task_spec fn p :
  INT_MIN ≤ active_task_count_ p < INT_MAX →
  if is_null fn then add_task fn p = (false, p)
  else ∃ f, closure fn = Some f ∧
       add_task fn p =
         (true, {| tasks_ := tasks_ p ++ [f];
                   active_task_count_ := active_task_count_ p + 1;
                   on_complete_ := on_complete_ p;
                   thread_count_ := thread_count_ p;
                   completions := completions p |}).
Proof.
  intros Hcount.
  assert (atomic_add (active_task_count_ p) 1 = active_task_count_ p + 1) as Hadd.
  { unfold atomic_add. apply to_int_id. lia. }
  destruct fn as [[f|]|[f|]|f]; simpl; try done;
    exists f; (split; [done|]); unfold add_task; by rewrite Hadd.
Qed.

(** C7.  [clear_queued_tasks] on a pool whose counter covers its queue:
    the queue is empty afterwards, the counter is lower by the number of
    closures that were queued, nothing else in the pool changes, and
    the closures that workers have already popped are not touched; on
    an empty queue the call changes nothing at all. *)
Theorem clear_queued_tasks_spec (s : Threads F) :
  Z.of_nat (length (tasks_ (pool s))) ≤ active_task_count_ (pool s) ≤ INT_MAX →
  ∃ s', step Cancel s = Some s' ∧
    tasks_ (pool s') = [] ∧
    active_task_count_ (pool s') =
      active_task_count_ (pool s) - Z.of_nat (length (tasks_ (pool s))) ∧
    on_complete_ (pool s') = on_complete_ (pool s) ∧
    thread_count_ (pool s') = thread_count_ (pool s) ∧
    completions (pool s') = completions (pool s) ∧
    in_flight s' = in_flight s ∧
    checking s' = checking s ∧
    (tasks_ (pool s) = [] → s' = s).
Proof.
  intros Hcount. eexists. split; [done|]. simpl.
  assert (atomic_sub (active_task_count_ (pool s))
            (to_int (Z.of_nat (length (tasks_ (pool s)))))
          = active_task_count_ (pool s) - Z.of_nat (length (tasks_ (pool s)))) as Hsub.
  { unfold atomic_sub. rewrite (to_int_id (Z.of_nat _)) by (unfold INT_MIN; lia).
    apply to_int_id. unfold INT_MIN. lia. }
  repeat split; try done.
  intros Hempty. destruct s as [[q c cb tc fired] k b]. simpl in *. subst q.
  unfold clear_queued_tasks. simpl in *.
  rewrite Hsub. do 2 f_equal. lia.
Qed.
End PoolClaims.

(** An empty [std::function] and a lambda, submitted to a fresh pool. *)
Lemma add_task_spec_witness :
  let fresh := ThreadPool.make (F := unit) 2 false in
  let empty := ThreadPool.StdFunction (None : option unit) in
  let lambda := ThreadPool.Functor () in
  (if ThreadPool.is_null empty
   then ThreadPool.add_task empty fresh = (false, fresh)
   else ∃ f, ThreadPool.closure empty = Some f ∧
        ThreadPool.add_task empty fresh
        = (true, {| ThreadPool.tasks_ := ThreadPool.tasks_ fresh ++ [f];
                    ThreadPool.active_task_count_ :=
                      ThreadPool.active_task_count_ fresh + 1;
                    ThreadPool.on_complete_ := ThreadPool.on_complete_ fresh;
                    ThreadPool.thread_count_ := ThreadPool.thread_count_ fresh;
                    ThreadPool.completions := ThreadPool.completions fresh |})) ∧
  (if ThreadPool.is_null lambda
   then ThreadPool.add_task lambda fresh = (false, fresh)
   else ∃ f, ThreadPool.closure lambda = Some f ∧
        ThreadPool.add_task lambda fresh
        = (true, {| ThreadPool.tasks_ := ThreadPool.tasks_ fresh ++ [f];
                    ThreadPool.active_task_count_ :=
                      ThreadPool.active_task_count_ fresh + 1;
                    ThreadPool.on_complete_ := ThreadPool.on_complete_ fresh;
                    ThreadPool.thread_count_ := ThreadPool.thread_count_ fresh;
                    ThreadPool.completions := ThreadPool.completions fresh |})).
Proof.
  intros fresh empty lambda. split.
  - apply (add_task_spec empty fresh). vm_compute. split; [discriminate|reflexivity].
  - apply (add_task_spec lambda fresh). vm_compute. split; [discriminate|reflexivity].
Defined.

(** Three closures outstanding, two of them still queued and one popped
    by a worker, when [clear_queued_tasks] is called. *)
Lemma clear_queued_tasks_spec_witness :
  let s := {| ThreadPool.pool :=
                {| ThreadPool.tasks_ := [(); ()];
                   ThreadPool.active_task_count_ := 3;
                   ThreadPool.on_complete_ := true;
                   ThreadPool.thread_count_ := 2;
                   ThreadPool.completions := 0 |};
              ThreadPool.in_flight := 1;
              ThreadPool.checking := false |} in
  ∃ s', ThreadPool.step ThreadPool.Cancel s = Some s' ∧
    ThreadPool.tasks_ (ThreadPool.pool s') = [] ∧
    ThreadPool.active_task_count_ (ThreadPool.pool s') =
      ThreadPool.active_task_count_ (ThreadPool.pool s)
      - Z.of_nat (length (ThreadPool.tasks_ (ThreadPool.pool s))) ∧
    ThreadPool.on_complete_ (ThreadPool.pool s') = ThreadPool.on_complete_ (ThreadPool.pool s) ∧
    ThreadPool.thread_count_ (ThreadPool.pool s') = ThreadPool.thread_count_ (ThreadPool.pool s) ∧
    ThreadPool.completions (ThreadPool.pool s') = ThreadPool.completions (ThreadPool.pool s) ∧
    ThreadPool.in_flight s' = ThreadPool.in_flight s ∧
    ThreadPool.checking s' = ThreadPool.checking s ∧
    (ThreadPool.tasks_ (ThreadPool.pool s) = [] → s' = s).
Proof.
  intros s. apply (clear_queued_tasks_spec s).
  vm_compute. split; discriminate.
Defined.

Section QuiescenceCallback.
Import MachineInt ThreadPool.
Context {F : Type}.
Implicit Types (o : Observed F) (evs : list (Event F)).




(** The counter stays the number of closures queued or in flight,
    however the completions are split. *)
Lemma step_counted budget ev (s s' : Threads F) :
  counted (S budget) s → step ev s = Some s' → counted budget s'.
Proof.
  destruct s as [[q c cb tc fired] k b]. unfold counted. simpl.
  intros [-> Hmax] Hstep.
  destruct ev as [fn| | | | |]; simpl in *.
  - inversion Hstep; subst; clear Hstep.
    destruct fn as [[f|]|[f|]|f]; simpl;
      rewrite ?length_app; simpl;
      try (unfold atomic_add; rewrite to_int_id by (unfold INT_MIN; lia));
      split; lia.
  - inversion Hstep; subst; clear Hstep. simpl.
    unfold atomic_sub.
    rewrite (to_int_id (Z.of_nat (length q))) by (unfold INT_MIN; lia).
    rewrite to_int_id by (unfold INT_MIN; lia). split; lia.
  - destruct q as [|f q]; simpl in *; inversion Hstep; subst; clear Hstep;
      simpl; split; lia.
  - destruct k as [|k]; [done|]. destruct b; [done|].
    inversion Hstep; subst; clear Hstep. simpl.
    unfold atomic_sub. rewrite to_int_id by (unfold INT_MIN; lia). split; lia.
  - destruct b; [|done]. inversion Hstep; subst; clear Hstep.
    unfold check_idle. simpl. destruct (_ && _); simpl; split; lia.
  - destruct k as [|k]; [done|]. destruct b; [done|].
    inversion Hstep; subst; clear Hstep.
    unfold complete_task, check_idle, decrement. simpl.
    unfold atomic_sub. rewrite to_int_id by (unfold INT_MIN; lia).
    destruct (_ && _); simpl; split; lia.
Qed.



End QuiescenceCallback.


(** Why the exact count needs whole completions: [add_task] does not
    take [wait_mtx_], so a submission can land between a worker's
    [fetch_sub] and its load.  The counter has then gone from [1] to [0]
    and the worker reads [1]: no callback for that crossing. *)
Remark on_complete_submission_between :
  ∃ o, ThreadPool.run_events
         [ThreadPool.Submit (ThreadPool.Functor ()); ThreadPool.Pop;
          ThreadPool.Decrement; ThreadPool.Submit (ThreadPool.Functor ());
          ThreadPool.Check]
         (ThreadPool.start (ThreadPool.make 2 true)) = Some o ∧
       ThreadPool.crossings o = 1%nat ∧
       ThreadPool.completions (ThreadPool.pool (ThreadPool.threads o)) = 0%nat.
Proof. eexists. split; [vm_compute; reflexivity|]. split; reflexivity. Qed.

(** Nor does [clear_queued_tasks] take [wait_mtx_]: when it empties the
    queue between a worker's [fetch_sub] and its load, the worker reads
    [0] and fires the callback for a crossing that the cancellation
    made. *)
Remark on_complete_cancel_between :
  ∃ o, ThreadPool.run_events
         [ThreadPool.Submit (ThreadPool.Functor ());
          ThreadPool.Submit (ThreadPool.Functor ());
          ThreadPool.Submit (ThreadPool.Functor ()); ThreadPool.Pop;
          ThreadPool.Decrement; ThreadPool.Cancel; ThreadPool.Check]
         (ThreadPool.start (ThreadPool.make 2 true)) = Some o ∧
       ThreadPool.crossings o = 1%nat ∧ ThreadPool.cancelled o = 1%nat ∧
       ThreadPool.completions (ThreadPool.pool (ThreadPool.threads o)) = 1%nat.
Proof.
  eexists. split; [vm_compute; reflexivity|]. repeat split; reflexivity.
Qed.


(** * Task execution *)

Section TaskRun.
Import Task.
Context {V : Type} `{ValueInit V}.
Implicit Types (task : Task.t V) (w : Task.World V) (stmt : Stmt).

(** Which statement [run()] executes at each position. *)
Lemma run_body_lookup task pc stmt :
  run_body task !! pc = Some stmt →
  ∃ nw, nw = length (waits task) ∧
  ((∃ e, waits task !! pc = Some e ∧ stmt = WaitUntilRetrievable e) ∨
  (pc = nw ∧ stmt = SetState Running) ∨
  (pc = S nw ∧ stmt = SetStartTime) ∨
  (pc = S (S nw) ∧ stmt = Invoke) ∨
  (pc = S (S (S nw)) ∧ stmt = SetEndTime) ∨
  (pc = S (S (S (S nw))) ∧ stmt = SetOutEdgeData) ∨
  (pc = S (S (S (S (S nw)))) ∧ stmt = SetState Complete) ∨
  (pc = S (S (S (S (S (S nw))))) ∧ stmt = NotifyOne)).
Proof.
  unfold run_body. intros Hpc.
  exists (length (waits task)). split; [done|].
  set (nw := length (waits task)).
  apply lookup_app_Some in Hpc as [Hpc|[Hge Hpc]].
  - left. apply list_lookup_fmap_Some in Hpc as (e & -> & He).
    by exists e.
  - right. rewrite length_fmap in Hge, Hpc. fold nw in Hge, Hpc.
    assert (∃ k, pc = (nw + k)%nat) as [k ->] by (exists (pc - nw)%nat; lia).
    replace (nw + k - nw)%nat with k in Hpc by lia.
    unfold after_waits in Hpc.
    do 7 (destruct k as [|k];
          [inversion Hpc; subst;
           repeat (first [left; split; [lia|done] | right | split; [lia|done]]) |]).
    done.
Qed.

(** What a statement leaves alone. *)
Lemma exec_latch task self stmt w w' e :
  exec task self stmt w = Some w' →
  is_retrievable w e = true → is_retrievable w' e = true.
Proof.
  unfold is_retrievable.
  destruct stmt; simpl; intros Hexec He; simplify_option_eq; try done.
  - by destruct (return_void task).
  - destruct (decide (e = out_edge_ task)) as [->|Hne].
    + rewrite lookup_insert_eq. by destruct (return_void task).
    + by rewrite lookup_insert_ne.
Qed.

Lemma exec_invoked task self stmt w w' n :
  exec task self stmt w = Some w' → n ∈ invoked w → n ∈ invoked w'.
Proof.
  destruct stmt; simpl; intros Hexec Hn; simplify_option_eq; try done.
  destruct (return_void task); simpl; by right.
Qed.

Lemma exec_state task self stmt w w' n :
  exec task self stmt w = Some w' → n ≠ self → get_state w' n = get_state w n.
Proof.
  unfold get_state.
  destruct stmt; simpl; intros Hexec Hn; simplify_option_eq; try done.
  - by rewrite lookup_insert_ne.
  - by destruct (return_void task).
Qed.

Lemma exec_latch_inv task self stmt w w' e :
  exec task self stmt w = Some w' → is_retrievable w' e = true →
  is_retrievable w e = true ∨ (stmt = SetOutEdgeData ∧ e = out_edge_ task).
Proof.
  unfold is_retrievable.
  destruct stmt; simpl; intros Hexec He; simplify_option_eq; auto.
  - left. by destruct (return_void task).
  - destruct (decide (e = out_edge_ task)) as [->|Hne]; [by right|left].
    by rewrite lookup_insert_ne in He.
Qed.

Lemma exec_invoke_logged task self w w' :
  exec task self Invoke w = Some w' → self ∈ invoked w'.
Proof.
  simpl. intros Hexec. simplify_option_eq.
  destruct (return_void task); simpl; left.
Qed.

Lemma exec_out_edge_latched task self w w' :
  exec task self SetOutEdgeData w = Some w' →
  is_retrievable w' (out_edge_ task) = true.
Proof.
  simpl. intros Hexec. simplify_option_eq.
  unfold is_retrievable. simpl. rewrite lookup_insert_eq.
  by destruct (return_void task).
Qed.

Lemma exec_reachability task self stmt w w' :
  exec task self stmt w = Some w' → reachability_ w' = reachability_ w.
Proof.
  destruct stmt; simpl; intros Hexec; simplify_option_eq; try done.
  by destruct (return_void task).
Qed.

Lemma exec_state_self task self stmt w w' :
  exec task self stmt w = Some w' →
  get_state w' self =
    match stmt with SetState st => st | _ => get_state w self end.
Proof.
  unfold get_state.
  destruct stmt; simpl; intros Hexec; simplify_option_eq; try done.
  - by rewrite lookup_insert_eq.
  - by destruct (return_void task).
Qed.

Lemma exec_all_app task self l1 l2 w :
  exec_all task self (l1 ++ l2) w =
  exec_all task self l1 w ≫= exec_all task self l2.
Proof.
  revert w. induction l1 as [|stmt l1 IH]; intros w; simpl; [done|].
  destruct (exec task self stmt w) as [w'|]; simpl; [apply IH|done].
Qed.

(** The loop at the head of [run()] passes when every attached inward
    edge is retrievable, and changes nothing. *)
Lemma exec_all_waits task self es w :
  exec_all task self (WaitUntilRetrievable <$> es) w =
  if forallb (is_retrievable w) es then Some w else None.
Proof.
  induction es as [|e es IH]; simpl; [done|].
  unfold is_retrievable at 1, Edge.wait_until_retrievable, Edge.is_retrievable.
  destruct (edges w !! e) as [edge|]; simpl; [|done].
  destruct (Edge.is_retrievable_ edge); simpl; [apply IH|done].
Qed.

Lemma run_unfold task self w :
  run task self w =
  if forallb (is_retrievable w) (waits task)
  then exec_all task self after_waits w else None.
Proof.
  unfold run, run_body. rewrite exec_all_app, exec_all_waits.
  by destruct (forallb (is_retrievable w) (waits task)).
Qed.

Lemma waits_elem task idx e :
  in_edges_ task !! idx = Some (Some e) → e ∈ waits task.
Proof.
  intros Hidx. unfold waits. apply list_elem_of_omap.
  exists (Some e). split; [|done]. by eapply list_elem_of_lookup_2.
Qed.

(** With every attached inward edge retrievable, all arguments can be
    read. *)
Lemma arguments_defined task w :
  forallb (is_retrievable w) (waits task) = true → is_Some (arguments w task).
Proof.
  intros Hall. unfold arguments. apply mapM_is_Some, Forall_forall.
  intros idx _. unfold get_inward_edge_value. simpl.
  destruct (in_edges_ task !! idx) as [[e|]|] eqn:Hidx; [|done..].
  rewrite forallb_forall in Hall.
  specialize (Hall e). unfold is_retrievable in Hall.
  destruct (edges w !! e); [done|].
  discriminate Hall. apply list_elem_of_In. by eapply waits_elem.
Qed.

Lemma run_returns task self w :
  forallb (is_retrievable w) (waits task) = true →
  is_Some (edges w !! out_edge_ task) →
  is_Some (run task self w).
Proof.
  intros Hall [edge Hout]. rewrite run_unfold, Hall.
  unfold after_waits. simpl.
  destruct (arguments_defined task (set_start_time self (set_state self Running w)))
    as [args Hargs]; [done|].
  rewrite Hargs. simpl.
  destruct (return_void task); simpl; rewrite Hout; done.
Qed.

Section NullSlot.
Variables (task : Task.t V) (idx e : nat).
Hypothesis Hnull : in_edges_ task !! idx = Some None.

Lemma waits_add_inward_edge :
  ∃ before after,
    waits task = before ++ after ∧
    waits (add_inward_edge idx e task) = before ++ e :: after.
Proof.
  unfold waits. simpl.
  apply list_elem_of_split_length in Hnull as (l1 & l2 & Hes & Hlen).
  rewrite Hes. subst idx.
  rewrite insert_app_r_alt by lia. replace (length l1 - length l1)%nat with O by lia.
  simpl. rewrite !omap_app. simpl. by exists (omap id l1), (omap id l2).
Qed.

Lemma arguments_add_inward_edge w edge :
  edges w !! e = Some edge → Edge.get_data edge = value_init →
  arguments w (add_inward_edge idx e task) = arguments w task.
Proof.
  intros He Hdata. unfold arguments. simpl. apply mapM_ext. intros i.
  unfold get_inward_edge_value. simpl.
  destruct (decide (i = idx)) as [->|Hne].
  - rewrite list_lookup_insert_eq by (by eapply lookup_lt_Some).
    rewrite Hnull, He. simpl. by rewrite Hdata.
  - by rewrite list_lookup_insert_ne.
Qed.
End NullSlot.

(** A new edge that the task does not read leaves [run()] as it is. *)
Lemma arguments_frame task w e edge :
  e ∉ waits task →
  arguments (set_edge e edge w) task = arguments w task.
Proof.
  intros He. unfold arguments. apply mapM_ext. intros i.
  unfold get_inward_edge_value. simpl.
  destruct (in_edges_ task !! i) as [[e'|]|] eqn:Hi; [|done..].
  rewrite lookup_insert_ne; [done|]. intros ->.
  apply He. by eapply waits_elem.
Qed.

Lemma run_frame task self w e edge :
  e ≠ out_edge_ task → e ∉ waits task →
  run task self (set_edge e edge w) = set_edge e edge <$> run task self w.
Proof.
  intros Hne He. rewrite !run_unfold.
  assert (forallb (is_retrievable (set_edge e edge w)) (waits task)
          = forallb (is_retrievable w) (waits task)) as ->.
  { revert He. generalize (waits task).
    induction l as [|e' l IH]; intros Hl; simpl; [done|].
    rewrite IH by (intros Hin; apply Hl; by right). f_equal.
    unfold is_retrievable. simpl. rewrite lookup_insert_ne; [done|].
    intros ->. apply Hl. by left. }
  destruct (forallb (is_retrievable w) (waits task)); [|done].
  unfold after_waits. cbn [exec_all exec mbind option_bind].
  change (arguments (set_start_time self (set_state self Running (set_edge e edge w))) task)
    with (arguments (set_edge e edge w) task).
  change (arguments (set_start_time self (set_state self Running w)) task)
    with (arguments w task).
  rewrite (arguments_frame task w e edge He).
  destruct (arguments w task) as [args|]; [|done]. simpl.
  destruct (return_void task); simpl; rewrite lookup_insert_ne by done;
    (destruct (edges w !! out_edge_ task) as [out|]; [|done]); simpl;
    unfold set_edge; simpl; by rewrite insert_insert_ne.
Qed.

(** C10.  A task with a declared input slot that holds no edge.
    [run()] has no wait for that slot: every wait among its statements
    is for the edge of another slot, and [run()] returns exactly when
    the attached inward edges are retrievable.  When it does, the
    statement that invokes the callable passes the value-initialised
    object of the payload type wherever the slot is among the
    arguments, and the result is the callable's value on these
    arguments.  And [run()] does what it does with the slot wired to
    an edge that is retrievable from the start and carries the
    value-initialised object: the world it leaves differs by that
    edge only. *)
Theorem run_null_slot task self w idx :
  in_edges_ task !! idx = Some None →
  is_Some (edges w !! out_edge_ task) →
  (∀ pc e, run_body task !! pc = Some (WaitUntilRetrievable e) →
     ∃ j, j ≠ idx ∧ in_edges_ task !! j = Some (Some e)) ∧
  (is_Some (run task self w) ↔
     forallb (is_retrievable w) (waits task) = true) ∧
  (forallb (is_retrievable w) (waits task) = true →
   ∃ args w1 w',
     exec_all task self (take (2 + length (waits task)) (run_body task)) w
       = Some w1 ∧
     arguments w1 task = Some args ∧
     (∀ k, filtered (input_void task) !! k = Some idx →
           args !! k = Some value_init) ∧
     exec task self Invoke w1
       = Some (log_invoked self
                 (if return_void task then w1
                  else set_result self (callable_ task args) w1)) ∧
     run task self w = Some w' ∧
     self ∈ invoked w' ∧
     (return_void task = false →
        get_result w' self = callable_ task args)) ∧
  (∀ e edge,
     edges w !! e = None → e ∉ waits task →
     Edge.is_retrievable edge = true → Edge.get_data edge = value_init →
     run (add_inward_edge idx e task) self (set_edge e edge w)
     = set_edge e edge <$> run task self w).
Proof.
  intros Hnull Hout. split; [|split; [|split]].
  - intros pc e Hpc.
    destruct (run_body_lookup task pc _ Hpc) as (nw & -> & Hcase).
    destruct Hcase as [(e' & He' & [= ->])|Hrest].
    + apply list_elem_of_lookup_2, list_elem_of_omap in He' as (edge & Hin & Hid).
      destruct edge as [e''|]; [|done]. simpl in Hid. simplify_eq.
      apply list_elem_of_lookup_1 in Hin as [j Hj]. exists j. split; [|done].
      intros ->. congruence.
    + repeat (destruct Hrest as [[_ ?]|Hrest]; [done|]). by destruct Hrest.
  - split; [|intros Hall; by apply run_returns].
    rewrite run_unfold. intros Hrun.
    by destruct (forallb (is_retrievable w) (waits task)); [|destruct Hrun].
  - intros Hall.
    destruct (arguments_defined task w Hall) as [args Hargs].
    destruct Hout as [out Hout].
    set (w1 := set_start_time self (set_state self Running w)).
    assert (exec_all task self (take (2 + length (waits task)) (run_body task)) w
            = Some w1) as Hprefix.
    { unfold run_body. rewrite take_app_ge by (rewrite length_fmap; lia).
      rewrite length_fmap.
      replace (2 + length (waits task) - length (waits task))%nat with 2%nat by lia.
      rewrite exec_all_app, exec_all_waits, Hall. done. }
    assert (∀ k, filtered (input_void task) !! k = Some idx →
                 args !! k = Some value_init) as Hdefault.
    { intros k Hk. unfold arguments in Hargs. apply mapM_Some in Hargs.
      destruct (Forall2_lookup_l _ _ _ _ _ Hargs Hk) as (v & Hv & Hget).
      unfold get_inward_edge_value in Hget. rewrite Hnull in Hget.
      by simplify_eq. }
    assert (arguments w1 task = Some args) as Hargs1 by done.
    assert (exec task self Invoke w1
            = Some (log_invoked self
                      (if return_void task then w1
                       else set_result self (callable_ task args) w1))) as Hinvoke.
    { cbn [exec]. by rewrite Hargs1. }
    destruct (run_returns task self w Hall) as [w' Hrun]; [by exists out|].
    exists args, w1, w'. do 5 (split; [done|]).
    rewrite run_unfold, Hall in Hrun. unfold after_waits in Hrun.
    cbn [exec_all exec mbind option_bind] in Hrun.
    fold w1 in Hrun. rewrite Hargs1 in Hrun. simpl in Hrun.
    destruct (return_void task) eqn:Hvoid; simpl in Hrun;
      rewrite Hout in Hrun; simpl in Hrun; injection Hrun as <-; simpl.
    + split; [by left|done].
    + split; [by left|]. intros _.
      unfold get_result. simpl. by rewrite lookup_insert_eq.
  - intros e edge Hnew He Hlatched Hdata.
    rewrite <- (run_frame task self w e edge); [|by intros ->; destruct Hout; congruence|done].
    set (w_e := set_edge e edge w).
    rewrite !run_unfold.
    destruct (waits_add_inward_edge task idx e Hnull) as (l1 & l2 & -> & ->).
    assert (is_retrievable w_e e = true) as Hre.
    { unfold is_retrievable, w_e. simpl. by rewrite lookup_insert_eq. }
    rewrite !forallb_app. simpl. rewrite Hre. simpl.
    destruct (forallb (is_retrievable w_e) l1 && forallb (is_retrievable w_e) l2);
      [|done].
    unfold after_waits. simpl.
    rewrite (arguments_add_inward_edge task idx e Hnull _ edge); [done| |done].
    unfold w_e. simpl. by rewrite lookup_insert_eq.
Qed.
End TaskRun.

(** [Task<int, int>] with its slot left unwired, alone in its world:
    it runs at once and the callable receives [0]. *)
Lemma run_null_slot_witness :
  let task := Scenario.unwired 1 in
  let w := Scenario.fresh {[ 111%nat := Edge.make 11 ]} in
  (∀ pc e, Task.run_body task !! pc = Some (Task.WaitUntilRetrievable e) →
     ∃ j, j ≠ 0%nat ∧ Task.in_edges_ task !! j = Some (Some e)) ∧
  (is_Some (Task.run task 11 w) ↔
     forallb (Task.is_retrievable w) (Task.waits task) = true) ∧
  (forallb (Task.is_retrievable w) (Task.waits task) = true →
   ∃ args w1 w',
     Task.exec_all task 11
       (take (2 + length (Task.waits task)) (Task.run_body task)) w = Some w1 ∧
     Task.arguments w1 task = Some args ∧
     (∀ k, Task.filtered (Task.input_void task) !! k = Some 0%nat →
           args !! k = Some value_init) ∧
     Task.exec task 11 Task.Invoke w1
       = Some (Task.log_invoked 11
                 (if Task.return_void task then w1
                  else Task.set_result 11 (Task.callable_ task args) w1)) ∧
     Task.run task 11 w = Some w' ∧
     11%nat ∈ Task.invoked w' ∧
     (Task.return_void task = false →
        Task.get_result w' 11 = Task.callable_ task args)) ∧
  (∀ e edge,
     Task.edges w !! e = None → e ∉ Task.waits task →
     Edge.is_retrievable edge = true → Edge.get_data edge = value_init →
     Task.run (Task.add_inward_edge 0 e task) 11 (Task.set_edge e edge w)
     = Task.set_edge e edge <$> Task.run task 11 w).
Proof.
  intros task w. apply (run_null_slot task 11 w 0%nat).
  - reflexivity.
  - vm_compute. eauto.
Defined.

(** * What another thread reads while a task runs *)

Section ObservedOrder.
Import Task Atomics.
Context {V : Type} `{ValueInit V}.
Variables (task : Task.t V) (self : nat) (w0 : Task.World V).
Implicit Types (c : Config (V := V)) (m : Memory) (seen : View).

Local Abbreviation step := (Atomics.step task self w0).
Local Abbreviation execute := (Atomics.execute task self w0).
Local Abbreviation in_order := (Atomics.in_order task self).
Local Abbreviation out := (out_edge_ task).

Lemma within_see m seen x t :
  within m seen → (t ≤ length (m x))%nat → within m (see x t seen).
Proof.
  intros Hseen Ht y. unfold see. destruct (decide (y = x)) as [->|]; [done|].
  apply Hseen.
Qed.

Lemma within_join m a b : within m a → within m b → within m (join a b).
Proof. intros Ha Hb x. unfold join. specialize (Ha x). specialize (Hb x). lia. Qed.

Lemma store_at_within m x t st :
  (∀ y st', st' ∈ m y → within m (released st')) →
  store_at w0 m x t = Some st →
  within m (released st) ∧ (t ≤ length (m x))%nat.
Proof.
  intros Hm Hst. destruct t as [|t]; simpl in Hst.
  - inversion Hst; subst. simpl. split; [|lia]. intros y. unfold nothing. lia.
  - split; [by eapply Hm, list_elem_of_lookup_2|].
    apply lookup_lt_Some in Hst. lia.
Qed.

Lemma load_within mo x t m seen v seen' :
  within m seen → (∀ y st, st ∈ m y → within m (released st)) →
  load w0 mo x t m seen = Some (v, seen') → within m seen'.
Proof.
  intros Hseen Hm. unfold load. destruct (decide _); [|done].
  destruct (store_at w0 m x t) as [st|] eqn:Hst; [|done]. simpl.
  destruct (store_at_within m x t st Hm Hst) as [Hrel Ht].
  intros [= <- <-]. destruct mo; try by apply within_see.
  apply within_join; [by apply within_see|done].
Qed.

Lemma store_within mo x v m seen :
  within m seen → (∀ y st, st ∈ m y → within m (released st)) →
  within (store mo x v m seen).1 (store mo x v m seen).2 ∧
  (∀ y st, st ∈ (store mo x v m seen).1 y →
     within (store mo x v m seen).1 (released st)) ∧
  (∀ seen0, within m seen0 → within (store mo x v m seen).1 seen0).
Proof.
  intros Hseen Hm. unfold store. cbn [fst snd].
  assert (∀ seen0, within m seen0 →
            within (λ y, if decide (y = x)
                         then m x ++ [{| value := v;
                                         released :=
                                           match mo with
                                           | memory_order_release =>
                                               see x (S (length (m x))) seen
                                           | _ => see x (S (length (m x))) nothing
                                           end |}]
                         else m y) seen0) as Hgrow.
  { intros seen0 H0 y. specialize (H0 y).
    destruct (decide (y = x)) as [->|]; [|done]. rewrite length_app. simpl. lia. }
  assert (∀ seen0, within m seen0 →
            within (λ y, if decide (y = x)
                         then m x ++ [{| value := v;
                                         released :=
                                           match mo with
                                           | memory_order_release =>
                                               see x (S (length (m x))) seen
                                           | _ => see x (S (length (m x))) nothing
                                           end |}]
                         else m y) (see x (S (length (m x))) seen0)) as Hnew.
  { intros seen0 H0 y. unfold see. specialize (H0 y).
    destruct (decide (y = x)) as [->|]; [|done]. rewrite length_app. simpl. lia. }
  split; [by apply Hnew|]. split; [|done].
  intros y st. destruct (decide (y = x)) as [->|]; [|by intros ?; eapply Hgrow, Hm].
  intros [Hin|Hin%list_elem_of_singleton]%elem_of_app; [by eapply Hgrow, Hm|].
  subst st. simpl. destruct mo; apply Hnew; try done; intros z; unfold nothing; lia.
Qed.

Lemma step_views_within ev c c' :
  views_within c → step ev c = Some c' → views_within c'.
Proof.
  intros (Hrun & Hobs & Hm) Hstep. destruct ev as [|t|t]; simpl in Hstep.
  - destruct (run_body task !! pc c) as [stmt|]; [|done]. simpl in Hstep.
    destruct (exec task self stmt (world c)) as [w'|]; [|done]. simpl in Hstep.
    inversion Hstep; subst; clear Hstep. unfold views_within. simpl.
    destruct stmt; simpl; try done.
    + destruct (load _ _ _ _ _ _) as [[v seen']|] eqn:Hload; simpl; [|done].
      split; [exact (load_within _ _ _ _ _ _ _ Hrun Hm Hload)|done].
    + destruct (store_within memory_order_relaxed (StateOf self) (OfState st)
                  (memory c) (runner c) Hrun Hm) as (H1 & H2 & H3).
      split; [done|]. split; [by apply H3|done].
    + destruct (store_within memory_order_release (LatchOf out) (OfBool true)
                  (memory c) (runner c) Hrun Hm) as (H1 & H2 & H3).
      split; [done|]. split; [by apply H3|done].
  - destruct (load _ _ _ _ _ _) as [[v seen']|] eqn:Hload; [|done].
    simpl in Hstep. inversion Hstep; subst; clear Hstep.
    unfold views_within. simpl. split; [done|]. split; [|done].
    exact (load_within _ _ _ _ _ _ _ Hobs Hm Hload).
  - destruct (load _ _ _ _ _ _) as [[v seen']|] eqn:Hload; [|done].
    simpl in Hstep. inversion Hstep; subst; clear Hstep.
    unfold views_within. simpl. split; [done|]. split; [|done].
    exact (load_within _ _ _ _ _ _ _ Hobs Hm Hload).
Qed.

Section FromFresh.
Hypothesis Hstate0 : get_state w0 self = Incomplete.
Hypothesis Hlatch0 : is_retrievable w0 out = false.

Lemma start_in_order : in_order (start w0).
Proof.
  unfold in_order, start. simpl. rewrite Hstate0, Hlatch0.
  repeat split; try done; try lia;
    intros; match goal with Hin : _ ∈ [] |- _ => by apply elem_of_nil in Hin end.
Qed.

Lemma load_state t m seen v seen' :
  load w0 memory_order_relaxed (StateOf self) t m seen = Some (v, seen') →
  seen' = see (StateOf self) t seen ∧ (seen (StateOf self) ≤ t)%nat ∧
  ((t = O ∧ v = OfState Incomplete) ∨
   (∃ st, st ∈ m (StateOf self) ∧ v = value st ∧ (1 ≤ t)%nat)).
Proof.
  unfold load. destruct (decide _) as [Hle|]; [|done].
  destruct (store_at w0 m (StateOf self) t) as [st|] eqn:Hst; [|done]. simpl.
  intros [= <- <-]. split; [done|]. split; [done|].
  destruct t as [|t]; simpl in Hst.
  - left. inversion Hst; subst. simpl. by rewrite Hstate0.
  - right. exists st. split; [by eapply list_elem_of_lookup_2|]. split; [done|lia].
Qed.

Lemma load_latch t m seen v seen' :
  load w0 memory_order_acquire (LatchOf out) t m seen = Some (v, seen') →
  (seen (LatchOf out) ≤ t)%nat ∧
  ((t = O ∧ v = OfBool false ∧ seen' = join (see (LatchOf out) t seen) nothing) ∨
   (∃ st, st ∈ m (LatchOf out) ∧ v = value st ∧
          seen' = join (see (LatchOf out) t seen) (released st))).
Proof.
  unfold load. destruct (decide _) as [Hle|]; [|done].
  destruct (store_at w0 m (LatchOf out) t) as [st|] eqn:Hst; [|done]. simpl.
  intros [= <- <-]. split; [done|].
  destruct t as [|t]; simpl in Hst.
  - left. inversion Hst; subst. simpl. by rewrite Hlatch0.
  - right. exists st. split; [by eapply list_elem_of_lookup_2|]. done.
Qed.

Lemma step_in_order ev c c' :
  in_order c → step ev c = Some c' → in_order c'.
Proof.
  intros (H1 & H2 & H3 & H4 & H5 & H6 & H7 & H8 & H9) Hstep.
  destruct ev as [|t|t]; simpl in Hstep.
  - (* a statement of [run()] *)
    destruct (run_body task !! pc c) as [stmt|] eqn:Hstmt; [|done].
    simpl in Hstep.
    destruct (exec task self stmt (world c)) as [w'|] eqn:Hexec; [|done].
    simpl in Hstep. inversion Hstep; subst; clear Hstep.
    pose proof (exec_invoked task self stmt _ _ self Hexec) as Hlogged.
    pose proof (exec_latch task self stmt _ _ out Hexec) as Hkeeps.
    pose proof (exec_latch_inv task self stmt _ _ out Hexec) as Hwas.
    pose proof (exec_state_self task self stmt _ _ Hexec) as Hst.
    destruct (run_body_lookup task _ _ Hstmt) as (nw & -> & Hcase).
    unfold Atomics.in_order. cbn [world pc memory runner observer observed].
    assert (((2 + length (waits task) < S (pc c))%nat → self ∈ invoked w') ∧
            ((4 + length (waits task) < S (pc c))%nat ↔
               is_retrievable w' out = true) ∧
            (get_state w' self = Complete →
               (5 + length (waits task) < S (pc c))%nat)) as (G1 & G2 & G3).
    { split; [|split; [split|]].
      - intros Hpc.
        destruct (decide (pc c = 2 + length (waits task))%nat) as [Heq|Hne];
          [|apply Hlogged, H1; lia].
        destruct Hcase as [(e & He & ->)|[[? ->]|[[? ->]|[[? ->]|
                          [[? ->]|[[? ->]|[[? ->]|[? ->]]]]]]]]; try lia.
        + apply lookup_lt_Some in He. lia.
        + by eapply exec_invoke_logged.
      - intros Hpc.
        destruct (decide (pc c = 4 + length (waits task))%nat) as [Heq|Hne];
          [|apply Hkeeps, H2; lia].
        destruct Hcase as [(e & He & ->)|[[? ->]|[[? ->]|[[? ->]|
                          [[? ->]|[[? ->]|[[? ->]|[? ->]]]]]]]]; try lia.
        + apply lookup_lt_Some in He. lia.
        + by eapply exec_out_edge_latched.
      - intros Hlatched. destruct (Hwas Hlatched) as [Hbefore|[-> _]].
        + apply H2 in Hbefore. lia.
        + destruct Hcase as [(e & He & ?)|[[? ?]|[[? ?]|[[? ?]|
                            [[? ?]|[[? ?]|[[? ?]|[? ?]]]]]]]]; try done.
          lia.
      - intros Hcomplete. rewrite Hst in Hcomplete.
        destruct Hcase as [(e & He & ->)|[[? ->]|[[? ->]|[[? ->]|
                          [[? ->]|[[? ->]|[[? ->]|[? ->]]]]]]]];
          try (specialize (H3 Hcomplete); lia); try done. lia. }
    split; [done|]. split; [done|]. split; [done|].
    clear G1 G2 G3 Hlogged Hkeeps Hwas Hst Hexec H1 H2 H3.
    assert (∀ st, st ∈ memory c (StateOf self) →
              value st = OfState Running ∨
              value st = OfState Complete ∧
              (5 + length (waits task) < S (pc c))%nat) as H4'.
    { intros st Hin. destruct (H4 st Hin) as [?|[? ?]]; [by left|].
      right. split; [done|lia]. }
    assert ((StateOf self, OfState Complete) ∈ observed c →
            (5 + length (waits task) < S (pc c))%nat) as H5'.
    { intros Hin. specialize (H5 Hin). lia. }
    destruct Hcase as [(e & He & ->)|[[Hpc ->]|[[Hpc ->]|[[Hpc ->]|
                      [[Hpc ->]|[[Hpc ->]|[[Hpc ->]|[Hpc ->]]]]]]]];
      cbn [atomics].
    + (* a wait *)
      apply lookup_lt_Some in He.
      destruct (load _ _ _ _ _ _) as [[v seen']|]; cbn [fst snd];
        (split; [done|]); (split; [done|]); (split; [done|]);
        (split; [intros; lia|]); (split; [intros; lia|done]).
    + (* [set_state(Running)] *)
      unfold store. cbn [fst snd]. rewrite decide_True by done.
      rewrite decide_False by done. split; [|split; [done|]].
      { intros st [Hin|Hin%list_elem_of_singleton]%elem_of_app; [by apply H4'|].
        subst st. by left. }
      split; [done|]. split; [intros; lia|]. split; [|done].
      intros _. unfold see. rewrite decide_True by done. lia.
    + (* [set_start_time] *)
      cbn [fst snd]. do 3 (split; [done|]). split; [intros; lia|].
      split; [|done]. intros _. apply H8. lia.
    + (* the call *)
      cbn [fst snd]. do 3 (split; [done|]). split; [intros; lia|].
      split; [|done]. intros _. apply H8. lia.
    + (* [set_end_time] *)
      cbn [fst snd]. do 3 (split; [done|]). split; [intros; lia|].
      split; [|done]. intros _. apply H8. lia.
    + (* [set_out_edge_data] *)
      unfold store. cbn [fst snd]. rewrite decide_False by done.
      rewrite decide_True by done. split; [done|]. split; [done|].
      assert (1 ≤ runner c (StateOf self))%nat as Hseen by (apply H8; lia).
      split; [|split; [|split; [|done]]].
      * intros st [Hin|Hin%list_elem_of_singleton]%elem_of_app; [by apply H6|].
        subst st. simpl. split; [done|]. unfold see.
        by rewrite decide_False.
      * intros _. by destruct (memory c (LatchOf out)).
      * intros _. unfold see. by rewrite decide_False.
    + (* [set_state(Complete)] *)
      unfold store. cbn [fst snd]. rewrite decide_True by done.
      rewrite decide_False by done. split; [|split; [done|]].
      { intros st [Hin|Hin%list_elem_of_singleton]%elem_of_app; [by apply H4'|].
        subst st. right. split; [done|lia]. }
      split; [done|]. split; [intros _; apply H7; lia|]. split; [|done].
      intros _. unfold see. rewrite decide_True by done. lia.
    + (* [notify_one] *)
      cbn [fst snd]. do 3 (split; [done|]). split; [intros _; apply H7; lia|].
      split; [|done]. intros _. apply H8. lia.
  - (* [get_state()] *)
    destruct (load _ _ _ _ _ _) as [[v seen']|] eqn:Hload; [|done].
    simpl in Hstep. inversion Hstep; subst; clear Hstep.
    apply load_state in Hload as (-> & Hle & Hread).
    unfold Atomics.in_order. cbn [world pc memory runner observer observed].
    do 4 (split; [done|]). split; [|do 3 (split; [done|])].
    + intros [Hhead|Hin]%elem_of_cons; [|by apply H5].
      injection Hhead as Hv.
      destruct Hread as [[_ ->]|(st & Hin & -> & _)]; [done|].
      destruct (H4 st Hin) as [Hrun|[_ Hpc]]; [congruence|done].
    + intros [Hhead|Hin]%elem_of_cons; [done|].
      specialize (H9 Hin). unfold see. rewrite decide_True by done. lia.
  - (* [is_retrievable()] *)
    destruct (load _ _ _ _ _ _) as [[v seen']|] eqn:Hload; [|done].
    simpl in Hstep. inversion Hstep; subst; clear Hstep.
    apply load_latch in Hload as (Hle & Hread).
    unfold Atomics.in_order. cbn [world pc memory runner observer observed].
    do 4 (split; [done|]). split; [|do 3 (split; [done|])].
    + intros [Hhead|Hin]%elem_of_cons; [done|by apply H5].
    + intros [Hhead|Hin]%elem_of_cons.
      * injection Hhead as Hv.
        destruct Hread as [(_ & -> & _)|(st & Hin & -> & ->)]; [done|].
        destruct (H6 st Hin) as [_ Hrel]. unfold join. lia.
      * specialize (H9 Hin).
        assert (1 ≤ see (LatchOf out) t (observer c) (StateOf self))%nat
          by (unfold see; by rewrite decide_False).
        destruct Hread as [(_ & _ & ->)|(st & _ & _ & ->)]; unfold join; lia.
Qed.

Lemma execute_in_order evs : ∀ c c',
  in_order c → views_within c → execute evs c = Some c' →
  in_order c' ∧ views_within c'.
Proof.
  induction evs as [|ev evs IH]; intros c c' Hc Hviews Hexec; simpl in Hexec.
  - by inversion Hexec; subst.
  - destruct (step ev c) as [c1|] eqn:Hstep; [|done]. simpl in Hexec.
    eapply IH; [| |done].
    + by eapply step_in_order.
    + by eapply step_views_within.
Qed.
End FromFresh.

Lemma start_views_within : views_within (start w0).
Proof.
  unfold views_within, start, within, nothing. simpl.
  repeat split; try done; try lia.
  intros x st Hin. by apply elem_of_nil in Hin.
Qed.

(** The thread in [run()] on its own: its statements one after the
    other, as [Task::run] executes them. *)
Lemma execute_statements k : ∀ c w',
  exec_all task self (take k (drop (pc c) (run_body task))) (world c) = Some w' →
  (pc c + k ≤ length (run_body task))%nat →
  ∃ c', execute (replicate k Run) c = Some c' ∧
        world c' = w' ∧ pc c' = (pc c + k)%nat ∧
        observer c' = observer c ∧ observed c' = observed c.
Proof.
  induction k as [|k IH]; intros c w' Hexec Hlen.
  - simpl in Hexec. inversion Hexec; subst. exists c.
    repeat split; try done; lia.
  - destruct (lookup_lt_is_Some_2 (run_body task) (pc c)) as [stmt Hstmt]; [lia|].
    rewrite (drop_S _ _ _ Hstmt) in Hexec. simpl in Hexec.
    destruct (exec task self stmt (world c)) as [w1|] eqn:Hw1; [|done].
    simpl in Hexec. cbn [replicate Atomics.execute Atomics.step].
    rewrite Hstmt. simpl. rewrite Hw1. simpl.
    edestruct (IH {| world := w1; pc := S (pc c);
                     memory := (atomics task self w0 stmt (memory c) (runner c)).1;
                     runner := (atomics task self w0 stmt (memory c) (runner c)).2;
                     observer := observer c; observed := observed c |})
      as (c' & Hrun & Hw & Hpc & Hobs & Hread); [exact Hexec|simpl; lia|].
    exists c'. split; [done|]. simpl in *. repeat split; try done; lia.
Qed.

(** C2, as the code has it.  [run()] on a task that has not run, with
    an observer on another thread that calls [get_state()] and
    [is_retrievable()] as often and whenever it likes, each load
    taking any store that the memory orders of the source allow.

    In every execution: when [Complete] is stored the outward edge is
    latched, and when the edge is latched the callable has returned.
    An observer that has read [Complete] finds the latch stored, and
    reads it as set with a load that takes the latest store; an
    observer that has read the latch as set never reads [Incomplete]
    afterwards.

    And [run()] does go this way, once the attached inward edges are
    retrievable: after the call the callable has returned and the
    edge is not latched; two statements later the edge is latched and
    the state is still [Running]; the next statement stores
    [Complete]. *)
Theorem run_latches_before_complete :
  get_state w0 self = Incomplete →
  is_retrievable w0 out = false →
  (∀ evs c, execute evs (start w0) = Some c →
     (get_state (world c) self = Complete →
        is_retrievable (world c) out = true) ∧
     (is_retrievable (world c) out = true → self ∈ invoked (world c)) ∧
     ((StateOf self, OfState Complete) ∈ observed c →
        is_retrievable (world c) out = true ∧
        ∃ c', step (IsRetrievable (latest c (LatchOf out))) c = Some c' ∧
              observed c' = (LatchOf out, OfBool true) :: observed c) ∧
     ((LatchOf out, OfBool true) ∈ observed c →
        ∀ t c', step (GetState t) c = Some c' →
          ∃ st, observed c' = (StateOf self, OfState st) :: observed c ∧
                st ≠ Incomplete)) ∧
  (forallb (is_retrievable w0) (waits task) = true →
   is_Some (edges w0 !! out) →
   ∃ c1 c2 c3,
     execute (replicate (3 + length (waits task)) Run) (start w0) = Some c1 ∧
     invoked (world c1) = self :: invoked w0 ∧
     is_retrievable (world c1) out = false ∧
     execute [Run; Run] c1 = Some c2 ∧
     is_retrievable (world c2) out = true ∧
     get_state (world c2) self = Running ∧
     execute [Run] c2 = Some c3 ∧
     get_state (world c3) self = Complete ∧
     is_retrievable (world c3) out = true).
Proof.
  intros Hstate0 Hlatch0. split.
  - intros evs c Hexec.
    destruct (execute_in_order Hstate0 Hlatch0 evs _ _
                (start_in_order Hstate0 Hlatch0) start_views_within Hexec)
      as [(H1 & H2 & H3 & H4 & H5 & H6 & H7 & H8 & H9) (Hrun & Hobs & Hm)].
    split; [|split; [|split]].
    + intros Hcomplete. apply H2. specialize (H3 Hcomplete). lia.
    + intros Hlatched. apply H1. apply H2 in Hlatched. lia.
    + intros Hseen. specialize (H5 Hseen).
      split; [apply H2; lia|].
      assert (memory c (LatchOf out) ≠ []) as Hstored by (apply H7; lia).
      unfold latest. cbn [Atomics.step]. unfold load.
      rewrite decide_True by apply Hobs.
      destruct (memory c (LatchOf out)) as [|st0 l] eqn:Hmem using rev_ind;
        [done|]. clear IHl.
      rewrite length_app. simpl. rewrite Nat.add_1_r. simpl.
      rewrite Hmem, lookup_app_r by lia. rewrite Nat.sub_diag. simpl.
      destruct (H6 st0) as [-> _]; [|by eexists].
      apply elem_of_app. right. by apply list_elem_of_singleton.
    + intros Hseen t c' Hstep. simpl in Hstep.
      destruct (load _ _ _ _ _ _) as [[v seen']|] eqn:Hload; [|done].
      simpl in Hstep. inversion Hstep; subst; clear Hstep. simpl.
      apply (load_state Hstate0) in Hload as (_ & Hle & Hread).
      specialize (H9 Hseen).
      destruct Hread as [[-> _]|(st & Hin & -> & _)]; [lia|].
      destruct (H4 st Hin) as [->|[-> _]]; eexists; (split; [done|done]).
  - intros Hall [edge Hout].
    destruct (arguments_defined task w0 Hall) as [args Hargs].
    set (w1 := log_invoked self
                 (if return_void task
                  then set_start_time self (set_state self Running w0)
                  else set_result self (callable_ task args)
                         (set_start_time self (set_state self Running w0)))).
    assert (exec_all task self (take (3 + length (waits task)) (run_body task)) w0
            = Some w1) as Hprefix.
    { unfold run_body. rewrite take_app_ge by (rewrite length_fmap; lia).
      rewrite length_fmap.
      replace (3 + length (waits task) - length (waits task))%nat with 3%nat by lia.
      rewrite exec_all_app, exec_all_waits, Hall.
      cbn [take after_waits exec_all exec mbind option_bind].
      change (arguments (set_start_time self (set_state self Running w0)) task)
        with (arguments w0 task).
      by rewrite Hargs. }
    assert (length (run_body task) = (7 + length (waits task))%nat) as Hlen.
    { unfold run_body. rewrite length_app, length_fmap. simpl. lia. }
    destruct (execute_statements (3 + length (waits task)) (start w0) w1)
      as (c1 & Hc1 & Hw1 & Hpc1 & _); [done|simpl; lia|].
    simpl in Hpc1.
    assert (edges w1 !! out = Some edge) as Hout1.
    { unfold w1. by destruct (return_void task). }
    assert (drop (pc c1) (run_body task)
            = [SetEndTime; SetOutEdgeData; SetState Complete; NotifyOne]) as Hrest.
    { rewrite Hpc1. unfold run_body. rewrite drop_app_ge by (rewrite length_fmap; lia).
      rewrite length_fmap.
      by replace (S (S (S (length (waits task)))) - length (waits task))%nat
        with 3%nat by lia. }
    set (w2 := set_edge out
                 (if return_void task then Edge.set_data_void edge
                  else Edge.set_data (get_result (set_end_time self w1) self) edge)
                 (set_end_time self w1)).
    destruct (execute_statements 2 c1 w2) as (c2 & Hc2 & Hw2 & Hpc2 & _).
    { rewrite Hrest, Hw1. cbn [take exec_all exec mbind option_bind].
      assert (edges (set_end_time self w1) !! out = Some edge) as -> by done.
      done. }
    { rewrite Hpc1, Hlen. lia. }
    destruct (execute_statements 1 c2 (set_state self Complete w2))
      as (c3 & Hc3 & Hw3 & _).
    { rewrite Hpc2, Hpc1, Hw2.
      assert (drop (S (S (S (length (waits task)))) + 2) (run_body task)
              = [SetState Complete; NotifyOne]) as ->; [|done].
      unfold run_body. rewrite drop_app_ge by (rewrite length_fmap; lia).
      rewrite length_fmap.
      by replace (S (S (S (length (waits task)))) + 2 - length (waits task))%nat
        with 5%nat by lia. }
    { rewrite Hpc2, Hpc1, Hlen. lia. }
    exists c1, c2, c3. split; [done|].
    rewrite Hw1, Hw2, Hw3. split; [|split; [|split; [done|split; [|split;
      [|split; [done|split]]]]]].
    + unfold w1. by destruct (return_void task).
    + unfold is_retrievable. rewrite Hout1.
      unfold is_retrievable in Hlatch0. by rewrite Hout in Hlatch0.
    + unfold is_retrievable, w2. simpl. rewrite lookup_insert_eq.
      by destruct (return_void task).
    + unfold get_state, w2, w1. simpl.
      destruct (return_void task); simpl; by rewrite lookup_insert_eq.
    + unfold get_state. simpl. by rewrite lookup_insert_eq.
    + unfold is_retrievable, w2. simpl. rewrite lookup_insert_eq.
      by destruct (return_void task).
Qed.
End ObservedOrder.

(** C2 as stated fails.  [T0.run()] up to and including
    [set_state(Complete)], and an observer that then calls [get_state()]
    and [is_retrievable()].  The relaxed load takes the store of
    [Complete]; it orders nothing else, so the load of the latch may
    still take the value the latch was constructed with.  The observer
    has seen [Complete] and then sees the outward edge not latched,
    although the latch is stored. *)
Lemma complete_seen_before_latch_counterexample :
  ∃ c, Atomics.execute Scenario.T0 10 (Scenario.fresh Scenario.chain_edges)
         [Atomics.Run; Atomics.Run; Atomics.Run; Atomics.Run; Atomics.Run;
          Atomics.Run; Atomics.GetState 2; Atomics.IsRetrievable 0]
         (Atomics.start (Scenario.fresh Scenario.chain_edges)) = Some c ∧
       Atomics.observed c
         = [(Atomics.LatchOf 110, Atomics.OfBool false);
            (Atomics.StateOf 10, Atomics.OfState Complete)] ∧
       Task.get_state (Atomics.world c) 10 = Complete ∧
       Task.is_retrievable (Atomics.world c) 110 = true.
Proof.
  eexists. split; [vm_compute; reflexivity|]. repeat split; reflexivity.
Qed.

(** [T0] of the chain, run from the fresh world. *)
Lemma run_latches_before_complete_witness :
  let task := Scenario.T0 in
  let w0 := Scenario.fresh Scenario.chain_edges in
  (∀ evs c, Atomics.execute task 10 w0 evs (Atomics.start w0) = Some c →
     (Task.get_state (Atomics.world c) 10 = Complete →
        Task.is_retrievable (Atomics.world c) (Task.out_edge_ task) = true) ∧
     (Task.is_retrievable (Atomics.world c) (Task.out_edge_ task) = true →
        10%nat ∈ Task.invoked (Atomics.world c)) ∧
     ((Atomics.StateOf 10, Atomics.OfState Complete) ∈ Atomics.observed c →
        Task.is_retrievable (Atomics.world c) (Task.out_edge_ task) = true ∧
        ∃ c', Atomics.step task 10 w0
                (Atomics.IsRetrievable
                   (Atomics.latest c (Atomics.LatchOf (Task.out_edge_ task)))) c
              = Some c' ∧
              Atomics.observed c'
              = (Atomics.LatchOf (Task.out_edge_ task), Atomics.OfBool true)
                  :: Atomics.observed c) ∧
     ((Atomics.LatchOf (Task.out_edge_ task), Atomics.OfBool true)
        ∈ Atomics.observed c →
        ∀ t c', Atomics.step task 10 w0 (Atomics.GetState t) c = Some c' →
          ∃ st, Atomics.observed c'
                = (Atomics.StateOf 10, Atomics.OfState st) :: Atomics.observed c ∧
                st ≠ Incomplete)) ∧
  (forallb (Task.is_retrievable w0) (Task.waits task) = true →
   is_Some (Task.edges w0 !! Task.out_edge_ task) →
   ∃ c1 c2 c3,
     Atomics.execute task 10 w0
       (replicate (3 + length (Task.waits task)) Atomics.Run) (Atomics.start w0)
       = Some c1 ∧
     Task.invoked (Atomics.world c1) = 10%nat :: Task.invoked w0 ∧
     Task.is_retrievable (Atomics.world c1) (Task.out_edge_ task) = false ∧
     Atomics.execute task 10 w0 [Atomics.Run; Atomics.Run] c1 = Some c2 ∧
     Task.is_retrievable (Atomics.world c2) (Task.out_edge_ task) = true ∧
     Task.get_state (Atomics.world c2) 10 = Running ∧
     Atomics.execute task 10 w0 [Atomics.Run] c2 = Some c3 ∧
     Task.get_state (Atomics.world c3) 10 = Complete ∧
     Task.is_retrievable (Atomics.world c3) (Task.out_edge_ task) = true).
Proof.
  intros task w0. apply (run_latches_before_complete task 10 w0); reflexivity.
Defined.

(** C3 on the code: [T0.run()] on a fresh task, stopped after the
    statement that records the end time.  The result is stored and the
    end timestamp recorded, but the outward edge is not yet retrievable:
    the source records the end time before it produces on the outward
    edge. *)
Lemma run_records_end_time_before_produce :
  Task.run_body Scenario.T0 =
    [Task.SetState Running; Task.SetStartTime; Task.Invoke; Task.SetEndTime;
     Task.SetOutEdgeData; Task.SetState Complete; Task.NotifyOne] ∧
  ∃ w, Task.exec_all Scenario.T0 10 (take 4 (Task.run_body Scenario.T0))
         (Scenario.fresh Scenario.chain_edges) = Some w ∧
       Task.end_time_ w !! 10%nat = Some 1%nat ∧
       Task.get_result w 10 = 1 ∧
       Task.is_retrievable w 110 = false.
Proof.
  split; [reflexivity|]. eexists. split; [reflexivity|].
  split; [reflexivity|]. split; reflexivity.
Qed.

(** * The executor and its workers *)

Section ExecutorRuns.
Import Task ThreadPoolExecutor.
Context {V : Type} `{ValueInit V}.
Variable table : gmap nat (Task.t V).
Implicit Types (s : System V) (w : Task.World V) (wk : Worker).

Local Abbreviation worker_in_order := (ThreadPoolExecutor.worker_in_order table).
Local Abbreviation produced_in_order := (ThreadPoolExecutor.produced_in_order table).

(** Induction over the steps of a schedule. *)
Lemma reachable_ind (P : System V → Prop) s0 s :
  reachable table s0 s → P s0 →
  (∀ s1 i s2, P s1 → step table i s1 = Some s2 → P s2) → P s.
Proof.
  intros [schedule Hsteps] H0 Hstep. revert s0 Hsteps H0.
  induction schedule as [|i schedule IH]; intros s0 Hsteps H0; simpl in *.
  - by inversion Hsteps; subst.
  - destruct (step table i s0) as [s1|] eqn:Hs1; [|done]. simpl in Hsteps.
    eapply IH; [done|]. by eapply Hstep.
Qed.

(** The three kinds of step. *)
Lemma step_cases i s s' :
  step table i s = Some s' →
  (∃ self rest,
      workers_ s !! i = Some Idle ∧
      ThreadPool.tasks_ (pool_ s) = self :: rest ∧
      world s' = world s ∧
      pool_ s' = (ThreadPool.pop_task (pool_ s)).2 ∧
      workers_ s' = <[i := Busy self O]> (workers_ s)) ∨
  (∃ self pc task stmt,
      workers_ s !! i = Some (Busy self pc) ∧
      table !! self = Some task ∧
      run_body task !! pc = Some stmt ∧
      exec task self stmt (world s) = Some (world s') ∧
      pool_ s' = pool_ s ∧
      workers_ s' = <[i := Busy self (S pc)]> (workers_ s)) ∨
  (∃ self pc task,
      workers_ s !! i = Some (Busy self pc) ∧
      table !! self = Some task ∧
      run_body task !! pc = None ∧
      world s' = world s ∧
      pool_ s' = ThreadPool.complete_task (pool_ s) ∧
      workers_ s' = <[i := Idle]> (workers_ s)).
Proof.
  unfold step. intros Hstep.
  destruct (workers_ s !! i) as [[|self pc]|] eqn:Hwk; [| |done].
  - left. unfold ThreadPool.pop_task in *.
    destruct (ThreadPool.tasks_ (pool_ s)) as [|self rest] eqn:Hq; [done|].
    inversion Hstep; subst; clear Hstep. simpl. by exists self, rest.
  - right. destruct (table !! self) as [task|] eqn:Htask; [|done]. simpl in Hstep.
    destruct (run_body task !! pc) as [stmt|] eqn:Hpc.
    + left. destruct (exec task self stmt (world s)) as [w'|] eqn:Hexec; [|done].
      inversion Hstep; subst; clear Hstep. simpl. by exists self, pc, task, stmt.
    + right. inversion Hstep; subst; clear Hstep. simpl. by exists self, pc, task.
Qed.

Lemma step_reachability i s s' :
  step table i s = Some s' →
  reachability_ (world s') = reachability_ (world s).
Proof.
  intros Hstep.
  apply step_cases in Hstep
    as [(self & rest & Hwk & Hq & Hw & Hp & Hws)
       |[(self & pc & task & stmt & Hwk & Htask & Hpc & Hexec & Hp & Hws)
        |(self & pc & task & Hwk & Htask & Hpc & Hw & Hp & Hws)]];
    [by rewrite Hw| |by rewrite Hw].
  by eapply exec_reachability.
Qed.

(** ** C2: the outward edge is produced between the return of the
    callable and the transition to [Complete] *)

Lemma out_edges_distinct_inj n m task task' :
  out_edges_distinct table → table !! n = Some task → table !! m = Some task' →
  out_edge_ task = out_edge_ task' → n = m.
Proof.
  intros Hnd Hn Hm Heq.
  apply elem_of_map_to_list, list_elem_of_lookup in Hn as [i Hi].
  apply elem_of_map_to_list, list_elem_of_lookup in Hm as [j Hj].
  assert (i = j) as ->.
  { eapply (NoDup_lookup _ i j (out_edge_ task)); [exact Hnd|..].
    - by rewrite list_lookup_fmap, Hi.
    - by rewrite list_lookup_fmap, Hj, Heq. }
  congruence.
Qed.

Lemma worker_in_order_exec task self stmt w w' wk :
  exec task self stmt w = Some w' →
  worker_in_order w wk → worker_in_order w' wk.
Proof.
  intros Hexec. destruct wk as [|n pc]; [done|]. simpl.
  intros Hwk task' Htask'. destruct (Hwk task' Htask') as [Hinv Hlatch]. split.
  - intros Hpc. eapply exec_invoked; [done|]. by apply Hinv.
  - intros Hpc. eapply exec_latch; [done|]. by apply Hlatch.
Qed.

Lemma produced_in_order_step i s s' :
  out_edges_distinct table →
  produced_in_order s → step table i s = Some s' → produced_in_order s'.
Proof.
  intros Hdistinct [Hglobal Hworkers] Hstep.
  apply step_cases in Hstep
    as [(self & rest & Hwk & Hq & Hw & Hp & Hws)
       |[(self & pc & task & stmt & Hwk & Htask & Hpc & Hexec & Hp & Hws)
        |(self & pc & task & Hwk & Htask & Hpc & Hw & Hp & Hws)]].
  - (* a closure is popped *)
    split; rewrite Hw; [done|]. rewrite Hws.
    apply Forall_insert; [done|]. intros task _. split; lia.
  - (* a statement of [run()] *)
    pose proof (Forall_lookup_1 _ _ _ _ Hworkers Hwk task Htask) as [Hinv Hlatch].
    apply run_body_lookup in Hpc as (nw & -> & Hstmt).
    split.
    + intros n task' Htask'. destruct (Hglobal n task' Htask') as [Hc Hl]. split.
      * intros Hcomplete. destruct (decide (n = self)) as [->|Hne].
        -- assert (task' = task) as -> by congruence.
           rewrite (exec_state_self _ _ _ _ _ Hexec) in Hcomplete.
           eapply exec_latch; [done|].
           destruct Hstmt as [(e & _ & ->)|[[-> ->]|[[-> ->]|[[-> ->]|
                             [[-> ->]|[[-> ->]|[[-> ->]|[-> ->]]]]]]]];
             try (by apply Hc).
           apply Hlatch. lia.
        -- eapply exec_latch; [done|]. apply Hc.
           by rewrite <- (exec_state _ _ _ _ _ n Hexec Hne).
      * intros Hlatched. eapply exec_invoked; [done|].
        destruct (exec_latch_inv _ _ _ _ _ _ Hexec Hlatched) as [Hold|[-> Heq]];
          [by apply Hl|].
        assert (n = self) as -> by (by eapply out_edges_distinct_inj).
        apply Hinv.
        destruct Hstmt as [(e & _ & ?)|[[-> ?]|[[-> ?]|[[-> ?]|
                          [[-> ?]|[[-> ?]|[[-> ?]|[-> ?]]]]]]]]; try done. lia.
    + rewrite Hws. apply Forall_insert.
      * eapply Forall_impl; [exact Hworkers|].
        intros wk. by eapply worker_in_order_exec.
      * intros task' Htask'. assert (task' = task) as -> by congruence. split.
        -- intros Hlt.
           destruct (decide (pc = 2 + length (waits task))%nat) as [->|Hne].
           ++ destruct Hstmt as [(e & He & ?)|[[? ?]|[[? ?]|[[? ->]|
                                [[? ?]|[[? ?]|[[? ?]|[? ?]]]]]]]]; try lia.
              { apply lookup_lt_Some in He. lia. }
              by eapply exec_invoke_logged.
           ++ eapply exec_invoked; [done|]. apply Hinv. lia.
        -- intros Hlt.
           destruct (decide (pc = 4 + length (waits task))%nat) as [->|Hne].
           ++ destruct Hstmt as [(e & He & ?)|[[? ?]|[[? ?]|[[? ?]|
                                [[? ?]|[[? ->]|[[? ?]|[? ?]]]]]]]]; try lia.
              { apply lookup_lt_Some in He. lia. }
              by eapply exec_out_edge_latched.
           ++ eapply exec_latch; [done|]. apply Hlatch. lia.
  - (* the closure has returned *)
    split; rewrite Hw; [done|]. rewrite Hws. by apply Forall_insert.
Qed.

(** The same order among the workers of the executor.  From a fresh
    start (no task has run, no outward edge is retrievable, the
    workers idle), in every state that the workers can reach, whatever
    the schedule: a task whose state is stored as [Complete] has its
    outward edge retrievable, and a retrievable outward edge belongs
    to a task whose callable has returned. *)
Lemma outward_edge_latched_before_complete s0 s n task :
  out_edges_distinct table → fresh_tasks table (world s0) → all_idle s0 →
  reachable table s0 s →
  table !! n = Some task →
  (get_state (world s) n = Complete →
     is_retrievable (world s) (out_edge_ task) = true) ∧
  (is_retrievable (world s) (out_edge_ task) = true → n ∈ invoked (world s)).
Proof.
  intros Hdistinct Hfresh Hidle Hreach.
  assert (produced_in_order s) as [Hglobal _]; [|by apply Hglobal].
  eapply reachable_ind; [exact Hreach| |].
  - split.
    + intros m task' Htask'. destruct (Hfresh m task' Htask') as [Hst Hl].
      split; intros Hyp; congruence.
    + eapply Forall_impl; [exact Hidle|]. by intros wk ->.
  - intros s1 i s2 Hinv Hstep. by eapply produced_in_order_step.
Qed.
End ExecutorRuns.

(** * The results of a run *)

Section ExecutorResults.
Import MachineInt Task ThreadPoolExecutor.
Context {V : Type} `{ValueInit V}.
Variable table : gmap nat (Task.t V).
(** [eval e]: the value that edge [e] is to carry. *)
Variable eval : nat → V.
Implicit Types (s : System V) (w : Task.World V) (wk : Worker).

Local Abbreviation expected_value := (ThreadPoolExecutor.expected_value table eval).
Local Abbreviation expected_arguments := (ThreadPoolExecutor.expected_arguments eval).
Local Abbreviation evaluates := (ThreadPoolExecutor.evaluates table eval).
Local Abbreviation value_edges := (ThreadPoolExecutor.value_edges table).
Local Abbreviation wired_slot := (ThreadPoolExecutor.wired_slot table).
Local Abbreviation wired := (ThreadPoolExecutor.wired table).
Local Abbreviation edges_hold := (ThreadPoolExecutor.edges_hold table eval).
Local Abbreviation result_holds := (ThreadPoolExecutor.result_holds table eval).
Local Abbreviation worker_holds := (ThreadPoolExecutor.worker_holds table eval).
Local Abbreviation results_hold := (ThreadPoolExecutor.results_hold table eval).

Lemma busy_count_insert workers i wk wk' :
  workers !! i = Some wk →
  (busy_count (<[i := wk']> workers) + busy_count [wk]
   = busy_count workers + busy_count [wk'])%nat.
Proof.
  revert i. induction workers as [|x workers IH]; intros i Hi; [done|].
  destruct i as [|i]; simpl in *.
  - inversion Hi; subst. destruct wk, wk'; simpl; lia.
  - specialize (IH i Hi). destruct x; simpl in *; lia.
Qed.

Lemma busy_count_zero workers i self pc :
  busy_count workers = O → workers !! i = Some (Busy self pc) → False.
Proof.
  revert i. induction workers as [|x workers IH]; intros i Hz Hi; [done|].
  destruct i as [|i]; simpl in *.
  - inversion Hi; subst. done.
  - destruct x; simpl in *; [by eapply IH|done].
Qed.

Lemma value_edges_producer e :
  e ∈ value_edges →
  ∃ p producer, table !! p = Some producer ∧ out_edge_ producer = e ∧
                return_void producer = false.
Proof.
  unfold value_edges. intros He. apply list_elem_of_omap in He as ([p producer] & Hin & Hsome).
  apply elem_of_map_to_list in Hin. simpl in Hsome.
  exists p, producer. destruct (return_void producer); [done|].
  by inversion Hsome.
Qed.

Hypothesis Hevaluates : evaluates.
Hypothesis Hwired : wired.
Hypothesis Hdistinct : out_edges_distinct table.

(** Past its waits, a worker reads the expected arguments. *)
Lemma arguments_expected w self task :
  table !! self = Some task → edges_hold w →
  (∀ e, e ∈ waits task → is_retrievable w e = true) →
  arguments w task = Some (expected_arguments task).
Proof.
  intros Htask Hedges Hwaits. unfold arguments, expected_arguments.
  apply mapM_Some, Forall2_fmap_r, Forall_Forall2_diag, Forall_forall.
  intros idx Hidx. unfold get_inward_edge_value, expected_value. simpl.
  destruct (in_edges_ task !! idx) as [[e|]|] eqn:He; [|done..].
  specialize (Hwired self task Htask). simpl in Hwired.
  rewrite forallb_forall in Hwired.
  specialize (Hwired idx ltac:(by apply list_elem_of_In)).
  unfold wired_slot in Hwired. rewrite He in Hwired.
  apply bool_decide_eq_true_1, value_edges_producer in Hwired
    as (p & producer & Hp & <- & Hvalue).
  apply (Hedges p producer Hp Hvalue).
  apply Hwaits. by eapply waits_elem.
Qed.

Lemma exec_result_holds task self stmt pc w w' n :
  table !! self = Some task → run_body task !! pc = Some stmt →
  exec task self stmt w = Some w' →
  edges_hold w → worker_holds w (Busy self pc) →
  result_holds w n → result_holds w' n.
Proof.
  intros Htask Hpc Hexec Hedges Hworker Hres task' Htask' Hvalue.
  specialize (Hres task' Htask' Hvalue).
  destruct (decide (stmt = Invoke)) as [->|Hother].
  - apply run_body_lookup in Hpc as (nw & -> & Hstmt).
    destruct Hstmt as [(e & _ & ?)|[[? ?]|[[? ?]|[[-> _]|
                      [[? ?]|[[? ?]|[[? ?]|[? ?]]]]]]]]; try done.
    simpl in Hexec.
    rewrite (arguments_expected w self task) in Hexec; [|done..|].
    2:{ intros e He. apply list_elem_of_lookup in He as [k Hk].
        destruct (Hworker task Htask) as [Hw _]. apply (Hw k e Hk).
        apply lookup_lt_Some in Hk. lia. }
    simpl in Hexec. inversion Hexec; subst; clear Hexec.
    destruct (decide (n = self)) as [->|Hne].
    + assert (task' = task) as -> by congruence.
      rewrite Hvalue. simpl. rewrite lookup_insert_eq.
      f_equal. by apply (Hevaluates self task Htask).
    + destruct (return_void task); simpl; [done|]. by rewrite lookup_insert_ne.
  - destruct stmt; simpl in Hexec; simplify_option_eq; done.
Qed.

Lemma exec_edges_hold task self stmt pc w w' :
  table !! self = Some task → run_body task !! pc = Some stmt →
  exec task self stmt w = Some w' →
  edges_hold w → worker_holds w (Busy self pc) → edges_hold w'.
Proof.
  intros Htask Hpc Hexec Hedges Hworker n task' Htask' Hvalue Hlatched.
  destruct (decide (stmt = SetOutEdgeData)) as [->|Hother].
  - apply run_body_lookup in Hpc as (nw & -> & Hstmt).
    simpl in Hexec.
    destruct (edges w !! out_edge_ task) as [edge|] eqn:Hedge; [|done].
    simpl in Hexec. inversion Hexec; subst; clear Hexec. simpl.
    destruct (decide (out_edge_ task' = out_edge_ task)) as [Heq|Hne].
    + assert (n = self) as -> by (by eapply out_edges_distinct_inj).
      assert (task' = task) as -> by congruence.
      rewrite lookup_insert_eq, Hvalue. simpl. f_equal.
      destruct (Hworker task Htask) as [_ Hres].
      unfold get_result. rewrite (Hres ltac:(destruct Hstmt as
        [(e & He & ?)|[[? ?]|[[? ?]|[[? ?]|[[? ?]|[[-> _]|[[? ?]|[? ?]]]]]]]];
        try done; lia) task Htask Hvalue). done.
    + rewrite lookup_insert_ne by done. apply (Hedges n task' Htask' Hvalue).
      unfold is_retrievable in *. simpl in Hlatched.
      by rewrite lookup_insert_ne in Hlatched.
  - assert (edges w' = edges w) as Hsame.
    { destruct stmt; simpl in Hexec; simplify_option_eq; try done.
      by destruct (return_void task). }
    rewrite Hsame. apply (Hedges n task' Htask' Hvalue).
    unfold is_retrievable in *. by rewrite <- Hsame.
Qed.

Lemma exec_worker_holds task self stmt pc w w' wk :
  table !! self = Some task → run_body task !! pc = Some stmt →
  exec task self stmt w = Some w' →
  edges_hold w → worker_holds w (Busy self pc) →
  worker_holds w wk → worker_holds w' wk.
Proof.
  intros Htask Hpc Hexec Hedges Hworker. destruct wk as [|n pc']; [done|].
  intros Hwk task' Htask'. destruct (Hwk task' Htask') as [Hwaits Hres]. split.
  - intros k e Hk Hlt. eapply exec_latch; [done|]. by eapply Hwaits.
  - intros Hlt. apply (exec_result_holds task self stmt pc w w'); [done..|].
    by apply Hres.
Qed.

Lemma exec_wait_latched task self e w w' :
  exec task self (WaitUntilRetrievable e) w = Some w' →
  is_retrievable w e = true.
Proof.
  simpl. unfold is_retrievable, Edge.wait_until_retrievable, Edge.is_retrievable.
  destruct (edges w !! e) as [edge|]; simpl; [|done].
  by destruct (Edge.is_retrievable_ edge).
Qed.

Lemma results_hold_step submitted i s s' :
  results_hold submitted s → step table i s = Some s' →
  results_hold submitted s'.
Proof.
  intros (Hedges & Hworkers & Hacc & Hcount & Hmax) Hstep.
  apply step_cases in Hstep
    as [(self & rest & Hwk & Hq & Hw & Hp & Hws)
       |[(self & pc & task & stmt & Hwk & Htask & Hpc & Hexec & Hp & Hws)
        |(self & pc & task & Hwk & Htask & Hpc & Hw & Hp & Hws)]].
  - (* a closure is popped *)
    pose proof (busy_count_insert _ _ _ (Busy self O) Hwk) as Hbusy.
    simpl in Hbusy.
    assert (ThreadPool.tasks_ (pool_ s') = rest ∧
            ThreadPool.active_task_count_ (pool_ s')
              = ThreadPool.active_task_count_ (pool_ s)) as [Hq' Hc'].
    { rewrite Hp. unfold ThreadPool.pop_task. by rewrite Hq. }
    unfold results_hold, outstanding in *. rewrite Hw, Hws, Hq', Hc'.
    rewrite Hq in *. simpl in *.
    split; [done|]. split; [|split; [|split; lia]].
    + apply Forall_insert; [done|]. intros task _. split; [lia|lia].
    + intros n Hn. destruct (Hacc n Hn) as [Hin|[(j & pc & Hj)|Hres]].
      * apply elem_of_cons in Hin as [->|Hin]; [|by left].
        right. left. exists i, O. apply list_lookup_insert_eq.
        by eapply lookup_lt_Some.
      * right. left. exists j, pc. rewrite list_lookup_insert_ne; [done|].
        intros ->. congruence.
      * by right; right.
  - (* a statement of [run()] *)
    pose proof (Forall_lookup_1 _ _ _ _ Hworkers Hwk) as Hworker.
    pose proof (busy_count_insert _ _ _ (Busy self (S pc)) Hwk) as Hbusy.
    simpl in Hbusy.
    unfold results_hold, outstanding in *. rewrite Hp, Hws.
    split; [by apply (exec_edges_hold task self stmt pc (world s))|].
    split; [|split; [|split; lia]].
    + apply Forall_insert.
      * eapply Forall_impl; [exact Hworkers|].
        intros wk. by apply (exec_worker_holds task self stmt pc (world s)).
      * intros task' Htask'. assert (task' = task) as -> by congruence.
        destruct (Hworker task Htask) as [Hwaits Hres]. split.
        -- intros k e Hk Hlt. eapply exec_latch; [done|].
           destruct (decide (k = pc)) as [->|Hne]; [|apply (Hwaits k e Hk); lia].
           apply run_body_lookup in Hpc as (nw & -> & Hstmt).
           destruct Hstmt as [(e' & He' & ->)|Hstmt].
           ++ assert (e' = e) as -> by congruence. by eapply exec_wait_latched.
           ++ apply lookup_lt_Some in Hk.
              destruct Hstmt as [[? ?]|[[? ?]|[[? ?]|[[? ?]|[[? ?]|[[? ?]|[? ?]]]]]]]; lia.
        -- intros Hlt.
           destruct (decide (pc = 2 + length (waits task))%nat) as [->|Hne].
           ++ pose proof Hpc as Hpc'.
              apply run_body_lookup in Hpc' as (nw & -> & Hstmt).
              destruct Hstmt as [(e & He & ?)|[[? ?]|[[? ?]|[[_ ->]|
                                [[? ?]|[[? ?]|[[? ?]|[? ?]]]]]]]]; try lia.
              { apply lookup_lt_Some in He. lia. }
              intros task2 Htask2 Hvalue.
              assert (task2 = task) as -> by congruence.
              simpl in Hexec.
              rewrite (arguments_expected (world s) self task) in Hexec; [|done..|].
              2:{ intros e He. apply list_elem_of_lookup in He as [k Hk].
                  apply (Hwaits k e Hk). apply lookup_lt_Some in Hk. lia. }
              simpl in Hexec. inversion Hexec as [Hw']. rewrite Hvalue. simpl.
              rewrite lookup_insert_eq. f_equal. by apply (Hevaluates self task Htask).
           ++ apply (exec_result_holds task self stmt pc (world s) (world s'));
                [done..|]. apply Hres. lia.
    + intros n Hn. destruct (Hacc n Hn) as [Hin|[(j & pc' & Hj)|Hres]].
      * by left.
      * right. left. destruct (decide (j = i)) as [->|Hne].
        -- exists i, (S pc). rewrite list_lookup_insert_eq by (by eapply lookup_lt_Some).
           congruence.
        -- exists j, pc'. by rewrite list_lookup_insert_ne.
      * right; right.
        by apply (exec_result_holds task self stmt pc (world s) (world s')).
  - (* the closure has returned *)
    pose proof (Forall_lookup_1 _ _ _ _ Hworkers Hwk) as Hworker.
    pose proof (busy_count_insert _ _ _ Idle Hwk) as Hbusy.
    simpl in Hbusy.
    assert (ThreadPool.tasks_ (pool_ s') = ThreadPool.tasks_ (pool_ s) ∧
            ThreadPool.active_task_count_ (pool_ s')
              = ThreadPool.active_task_count_ (pool_ s) - 1) as [Hq' Hc'].
    { rewrite Hp. unfold ThreadPool.complete_task, ThreadPool.check_idle,
        ThreadPool.decrement. simpl.
      assert (atomic_sub (ThreadPool.active_task_count_ (pool_ s)) 1
              = ThreadPool.active_task_count_ (pool_ s) - 1) as ->.
      { unfold atomic_sub. apply to_int_id. unfold outstanding in *.
        unfold INT_MIN. lia. }
      by destruct (_ && _). }
    unfold results_hold, outstanding in *. rewrite Hw, Hws, Hq', Hc'.
    split; [done|]. split; [|split; [|split; lia]].
    + by apply Forall_insert.
    + intros n Hn. destruct (Hacc n Hn) as [Hin|[(j & pc' & Hj)|Hres]].
      * by left.
      * destruct (decide (j = i)) as [->|Hne].
        -- right; right. assert (n = self ∧ pc' = pc) as [-> ->] by (split; congruence).
           destruct (Hworker task Htask) as [_ Hres]. apply Hres.
           apply lookup_ge_None in Hpc. unfold run_body in Hpc.
           rewrite length_app, length_fmap in Hpc. fold (waits task) in Hpc.
           simpl in Hpc. lia.
        -- right; left. exists j, pc'. by rewrite list_lookup_insert_ne.
      * by right; right.
Qed.

(** When [wait()] returns after a fresh start, every submitted task
    that returns a value holds the expected result. *)
Lemma results_when_idle s0 s n task :
  fresh_tasks table (world s0) → all_idle s0 →
  ThreadPool.active_task_count_ (pool_ s0)
    = Z.of_nat (length (ThreadPool.tasks_ (pool_ s0))) →
  Z.of_nat (length (ThreadPool.tasks_ (pool_ s0))) ≤ INT_MAX →
  reachable table s0 s → wait_returns s →
  n ∈ ThreadPool.tasks_ (pool_ s0) →
  table !! n = Some task → return_void task = false →
  get_result (world s) n = eval (out_edge_ task).
Proof.
  intros Hfresh Hidle Hcount Hmax Hreach Hwait Hn Htask Hvalue.
  assert (busy_count (workers_ s0) = O) as Hbusy0.
  { unfold all_idle in Hidle. induction Hidle as [|wk l -> _ IH]; done. }
  assert (results_hold (ThreadPool.tasks_ (pool_ s0)) s)
    as (_ & _ & Hacc & Hc & _).
  { eapply reachable_ind; [exact Hreach| |].
    - unfold results_hold, outstanding. rewrite Hbusy0, Nat.add_0_r.
      split; [|split; [|split; [|done]]].
      + intros m task' Htask' _ Hl.
        destruct (Hfresh m task' Htask') as [_ Hunl]. congruence.
      + eapply Forall_impl; [exact Hidle|]. by intros wk ->.
      + intros m Hm. by left.
    - intros s1 i s2. apply results_hold_step. }
  unfold wait_returns, ThreadPool.wait_returns, ThreadPool.is_idle in Hwait.
  apply bool_decide_eq_true_1 in Hwait. rewrite Hwait in Hc.
  unfold outstanding in Hc.
  destruct (Hacc n Hn) as [Hin|[(j & pc & Hj)|Hres]].
  - destruct (ThreadPool.tasks_ (pool_ s)); [by inversion Hin|simpl in Hc; lia].
  - exfalso. eapply busy_count_zero; [|exact Hj]. lia.
  - unfold get_result. by rewrite (Hres task Htask Hvalue).
Qed.
End ExecutorResults.

(** * Scenario S2 *)

Section ChainOfFive.
Import MachineInt Task ThreadPoolExecutor Scenario.

(** C4.  Scenario S2.  With fuel for the five levels of the chain and at
    least one worker, [run()] returns with the reachabilities
    [0, 1, 2, 3, 4] assigned to [T0 .. T4]; the workers can bring the
    pool to idle, so that [wait()] returns; and whenever [wait()]
    returns, whatever the schedule of the workers was, the result of
    [T4] is [5] and the reachabilities are still [0, 1, 2, 3, 4]. *)
Theorem chain_of_five fuel hardware_concurrency :
  (5 ≤ fuel)%nat → (1 ≤ hardware_concurrency)%nat →
  let reachabilities s :=
    Node.get_reachability (graph_of chain (world s)) (reachability_ (world s))
      <$> chain_tasks in
  ∃ s0,
    run chain fuel hardware_concurrency chain_tasks (fresh chain_edges) = Some s0 ∧
    reachabilities s0 = [0; 1; 2; 3; 4] ∧
    (∃ s, reachable chain s0 s ∧ wait_returns s) ∧
    ∀ s, reachable chain s0 s → wait_returns s →
      get_result (world s) 14 = 5 ∧ reachabilities s = [0; 1; 2; 3; 4].
Proof.
  intros Hfuel Hhw reachabilities.
  do 5 (destruct fuel as [|fuel]; [lia|]).
  destruct hardware_concurrency as [|hw]; [lia|].
  exists (chain_started (S hw)).
  split; [vm_compute; reflexivity|].
  split; [vm_compute; reflexivity|].
  split.
  - eexists. split.
    + exists (replicate 49 0%nat). vm_compute. reflexivity.
    + vm_compute. reflexivity.
  - intros s Hreach Hwait. split.
    + assert (evaluates chain chain_eval) as Hevaluates
        by (apply (bool_decide_unpack _); vm_compute; exact I).
      assert (wired chain) as Hwired
        by (apply (bool_decide_unpack _); vm_compute; exact I).
      assert (out_edges_distinct chain) as Hdistinct
        by (apply (bool_decide_unpack _); vm_compute; exact I).
      assert (fresh_tasks chain (world (chain_started (S hw)))) as Hfresh
        by (apply (bool_decide_unpack _); vm_compute; exact I).
      assert (all_idle (chain_started (S hw))) as Hidle
        by (by apply Forall_replicate).
      apply (results_when_idle chain chain_eval Hevaluates Hwired Hdistinct
               (chain_started (S hw)) s 14%nat (T 4) Hfresh Hidle);
        [reflexivity|by vm_compute|done|done| |reflexivity|reflexivity].
      vm_compute. repeat constructor.
    + assert (reachability_ (world s) = reachability_ (world (chain_started (S hw))))
        as Hsame.
      { eapply reachable_ind with (P := λ s', reachability_ (world s') = _);
          [exact Hreach|done|].
        intros s1 i s2 Hs1 Hstep. by rewrite (step_reachability _ _ _ _ Hstep). }
      unfold reachabilities. rewrite Hsame. vm_compute. reflexivity.
Qed.
End ChainOfFive.

(** The chain on four workers, with fuel to spare. *)
Lemma chain_of_five_witness :
  ∃ s0,
    ThreadPoolExecutor.run Scenario.chain 8 4 Scenario.chain_tasks
      (Scenario.fresh Scenario.chain_edges) = Some s0 ∧
    (Node.get_reachability
       (ThreadPoolExecutor.graph_of Scenario.chain (ThreadPoolExecutor.world s0))
       (Task.reachability_ (ThreadPoolExecutor.world s0))
       <$> Scenario.chain_tasks) = [0; 1; 2; 3; 4] ∧
    (∃ s, ThreadPoolExecutor.reachable Scenario.chain s0 s ∧
          ThreadPoolExecutor.wait_returns s) ∧
    ∀ s, ThreadPoolExecutor.reachable Scenario.chain s0 s →
         ThreadPoolExecutor.wait_returns s →
      Task.get_result (ThreadPoolExecutor.world s) 14 = 5 ∧
      (Node.get_reachability
         (ThreadPoolExecutor.graph_of Scenario.chain (ThreadPoolExecutor.world s))
         (Task.reachability_ (ThreadPoolExecutor.world s))
         <$> Scenario.chain_tasks) = [0; 1; 2; 3; 4].
Proof.
  apply (chain_of_five 8 4); lia.
Defined.

(** * More about the reachability pass *)

Section ReachabilityMore.
Import Node MachineInt.
Variable g : Graph.

(** A set of nodes that holds the producers of each of its members
    holds everything reachable from them. *)
Lemma ancestors_closed (M : gset nat) n m :
  (∀ x, x ∈ M → ∀ p, producer g x p → p ∈ M) →
  n ∈ M → ancestor g n m → m ∈ M.
Proof.
  intros Hclosed Hn Hanc. induction Hanc as [x|x y z Hxy _ IH]; [done|].
  apply IH. by apply (Hclosed x).
Qed.

Lemma from_singleton n m : from_tasks g [Some n] m ↔ ancestor g n m.
Proof.
  split.
  - intros (t & Ht & Hanc). by apply list_elem_of_singleton in Ht as [= ->].
  - intros Hanc. exists n. split; [by apply list_elem_of_singleton|done].
Qed.

(** X1.  On a node from which no cycle is reachable, the overload
    [set_reachability()] and [compute_reachability] over that node
    alone return, with enough fuel, and leave every node of the graph
    with the same reachability; the node itself holds its rank. *)
Theorem set_reachability_overloads_agree n k :
  Rank g n k → Z.of_nat k ≤ INT_MAX →
  ∃ fuel0, ∀ fuel r, (fuel0 ≤ fuel)%nat →
    ∃ r1 r2,
      set_reachability_fresh fuel g n r = Some r1 ∧
      compute_reachability fuel g [Some n] r = Some r2 ∧
      get_reachability g r1 n = Z.of_nat k ∧
      ∀ m, get_reachability g r1 m = get_reachability g r2 m.
Proof.
  intros Hk Hmax. exists (S k). intros fuel r Hfuel.
  destruct (compute_reachability_char g fuel [Some n] r)
    as (r2 & M & Hrun2 & HM & Hin & Hout).
  { intros t Ht. apply list_elem_of_singleton in Ht as [= ->].
    exists k. repeat split; [done|lia|done]. }
  assert (∀ m, m ∈ M ↔ ancestor g n m) as HM'.
  { intros m. by rewrite HM, from_singleton. }
  pose proof Hk as Hk'. apply Rank_inv in Hk' as (es & Hes & Hcase).
  unfold set_reachability_fresh. rewrite Hes.
  destruct Hcase as [[-> ->]|[Hne (ds & Hds & ->)]].
  - (* the specialisation without inputs *)
    exists r, r2. do 2 (split; [done|]).
    split; [unfold get_reachability; by rewrite Hes|].
    intros m. destruct (decide (m ∈ M)) as [Hm|Hm].
    + assert (m = n) as ->.
      { apply HM' in Hm. inversion Hm as [|? y ? (es' & e & Hes' & He & _)]; [done|].
        assert (es' = []) as -> by congruence. by inversion He. }
      unfold get_reachability. by rewrite Hes.
    + symmetry. by apply get_reachability_ext, Hout.
  - set (k' := max_list ds) in *.
    set (s0 := {| marker := ∅; reachability_ := r |}).
    destruct (inward_reachabilities_spec g fuel k') with (es := es) (s := s0)
      as (s1 & arr & Hloop & (Hsub & Hold & Hnew) & Harr).
    { lia. }
    { intros j p s' Hj Hp Hgood'.
      apply (set_reachability_spec g j); [done|lia|lia|done]. }
    { intros e He. apply list_elem_of_lookup in He as [i Hi].
      destruct (Forall2_lookup_l _ _ _ _ _ Hds Hi) as (j & Hj & (p & Hown & HR)).
      exists p, j. repeat split; [done..|].
      apply max_list_elem_of_le. apply list_elem_of_lookup. by exists i. }
    { intros m j Hm. simpl in Hm. by apply not_elem_of_empty in Hm. }
    destruct es as [|edge es]; [done|].
    rewrite Hloop. simpl.
    rewrite (slot_values_ranks g _ _ _ _ Harr Hds).
    rewrite max_element_of_nat by (intros ->; by inversion Hds). simpl.
    unfold int_add. rewrite decide_True by (unfold INT_MIN; lia). simpl.
    rewrite to_size_t_small by lia.
    eexists. exists r2. do 2 (split; [done|]).
    match goal with
    | |- context [<[n := ?v]> _] =>
        assert (get_reachability g (<[n := v]> (reachability_ s1)) n
                = Z.of_nat (S k')) as Hself
    end.
    { unfold get_reachability. rewrite Hes, lookup_insert_eq. simpl. lia. }
    split; [done|].
    assert (∀ x, x ∈ marker s1 → ∀ p, producer g x p → p ∈ marker s1) as Hclosed.
    { intros x Hx. destruct (Hnew x Hx) as (_ & Hcl & _); [|done].
      simpl. apply not_elem_of_empty. }
    assert (∀ p, producer g n p → p ∈ marker s1) as Hdirect.
    { intros p (es' & e & Hes' & He & Hown).
      assert (es' = edge :: es) as -> by congruence.
      apply list_elem_of_lookup in He as [i Hi].
      destruct (Forall2_lookup_l _ _ _ _ _ Harr Hi) as (a & _ & Ha).
      simpl in Ha. destruct Ha as (p' & j & Hown' & _ & _ & Hp'). congruence. }
    intros m. destruct (decide (m = n)) as [->|Hmn].
    { rewrite Hself. destruct (Hin n) as (k2 & Hk2 & ->); [apply HM', rtc_refl|].
      by rewrite (Rank_unique g n k2 (S k') Hk2 Hk). }
    rewrite (get_reachability_ext g (reachability_ s1)) by (by rewrite lookup_insert_ne).
    destruct (decide (m ∈ marker s1)) as [Hm1|Hm1].
    + destruct (Hnew m Hm1) as ((e & p & He & Hown & Hanc) & _ & j & Hj & _ & ->);
        [simpl; apply not_elem_of_empty|].
      destruct (Hin m) as (j2 & Hj2 & ->).
      { apply HM'. eapply rtc_l; [|exact Hanc]. by exists (edge :: es), e. }
      by rewrite (Rank_unique g m j j2 Hj Hj2).
    + assert (m ∉ M) as HmM.
      { intros Hm. apply HM' in Hm. inversion Hm as [|? y ? Hny Hym]; subst; [done|].
        apply Hm1. eapply ancestors_closed; [exact Hclosed| |exact Hym].
        by apply Hdirect. }
      etrans; [apply get_reachability_ext, (Hold m); by right|].
      symmetry. by apply get_reachability_ext, Hout.
Qed.

(** After the pass, every producer holds a smaller reachability than
    its consumer. *)
Lemma compute_reachability_orders tasks :
  acyclic g tasks →
  ∃ fuel0, ∀ fuel r, (fuel0 ≤ fuel)%nat →
    ∃ r', compute_reachability fuel g tasks r = Some r' ∧
      ∀ n p, from_tasks g tasks n → producer g n p →
        get_reachability g r' p < get_reachability g r' n.
Proof.
  intros Hdag. destruct (fuel_bound g tasks Hdag) as [fuel0 Hfuel0].
  exists fuel0. intros fuel r Hfuel.
  destruct (compute_reachability_char g fuel tasks r (Hfuel0 fuel Hfuel))
    as (r' & M & Hrun & HM & Hin & _).
  exists r'. split; [done|]. intros n p Hn Hp.
  destruct (Hin n) as (k & Hk & Hget); [by apply HM|].
  destruct (Hin p) as (j & Hj & Hget').
  { apply HM. destruct Hn as (t & Ht & Hanc). exists t. split; [done|].
    eapply rtc_r; done. }
  destruct (Rank_producer g n k p Hk Hp) as (j' & Hj' & Hlt).
  assert (j' = j) as -> by (by eapply Rank_unique).
  rewrite Hget, Hget'. lia.
Qed.

(** X2.  After the pass over a range from which no cycle is reachable,
    [operator<] puts every producer strictly before its consumer: for a
    node reached by the pass and any owner of one of its inward edges,
    the owner compares less than the node, and the node does not
    compare less than the owner. *)
Theorem producers_compare_less tasks :
  acyclic g tasks →
  ∃ fuel0, ∀ fuel r, (fuel0 ≤ fuel)%nat →
    ∃ r', compute_reachability fuel g tasks r = Some r' ∧
      ∀ n p, from_tasks g tasks n → producer g n p →
        lt g r' p n = true ∧ lt g r' n p = false.
Proof.
  intros Hdag. destruct (compute_reachability_orders tasks Hdag) as [fuel0 Hfuel0].
  exists fuel0. intros fuel r Hfuel.
  destruct (Hfuel0 fuel r Hfuel) as (r' & Hrun & Hless).
  exists r'. split; [done|]. intros n p Hn Hp.
  specialize (Hless n p Hn Hp). unfold lt. split.
  - apply bool_decide_eq_true_2. lia.
  - apply bool_decide_eq_false_2. lia.
Qed.

(** X3.  The pass stays inside what the range depends on: a node that
    is neither in the range nor reachable from it along inward edges
    keeps the [reachability_] field it had. *)
Theorem compute_reachability_frame tasks :
  acyclic g tasks →
  ∃ fuel0, ∀ fuel r, (fuel0 ≤ fuel)%nat →
    ∃ r', compute_reachability fuel g tasks r = Some r' ∧
      ∀ n, ¬ from_tasks g tasks n → r' !! n = r !! n.
Proof.
  intros Hdag. destruct (fuel_bound g tasks Hdag) as [fuel0 Hfuel0].
  exists fuel0. intros fuel r Hfuel.
  destruct (compute_reachability_char g fuel tasks r (Hfuel0 fuel Hfuel))
    as (r' & M & Hrun & HM & _ & Hout).
  exists r'. split; [done|]. intros n Hn. apply Hout. by rewrite HM.
Qed.

(** Among the slots of a node, an attached one carries the largest
    rank, unless none is attached. *)
Lemma max_rank_slot es ds :
  Forall2 (slot_Rank g) es ds →
  (∃ e p, Some e ∈ es ∧ owner_ g !! e = Some p ∧ Rank g p (max_list ds)) ∨
  (omap id es = [] ∧ max_list ds = O).
Proof.
  induction 1 as [|edge d es ds Hd _ IH]; [by right|].
  destruct edge as [e|]; simpl in Hd.
  - left. destruct Hd as (p & Hown & Hd).
    destruct (decide (max_list ds ≤ d)%nat) as [Hle|Hgt].
    + exists e, p. split; [left|]. split; [done|].
      simpl. by replace (d `max` max_list ds)%nat with d by lia.
    + destruct IH as [(e' & p' & He' & Hown' & Hp')|[_ Hz]]; [|lia].
      exists e', p'. split; [by right|]. split; [done|].
      simpl. by replace (d `max` max_list ds)%nat with (max_list ds) by lia.
  - subst d. destruct IH as [(e' & p' & He' & Hown' & Hp')|[Hnone Hz]].
    + left. exists e', p'. split; [by right|]. done.
    + right. done.
Qed.

(** Without missing edges, the rank of a node is the length of the
    longest path that leaves it. *)
Lemma Rank_longest_path :
  no_missing_edges g →
  ∀ k n, Rank g n k → path g n k ∧ ∀ j, path g n j → (j ≤ k)%nat.
Proof.
  intros Hattached k. induction k as [k IHk] using lt_wf_ind. intros n Hk.
  apply Rank_inv in Hk as (es & Hes & [[-> ->]|[Hne (ds & Hds & ->)]]).
  - split; [constructor|]. intros j Hj.
    inversion Hj as [|? p j' (es' & e & Hes' & He & _)]; subst; [done|].
    assert (es' = []) as -> by congruence. by inversion He.
  - split.
    + destruct (max_rank_slot es ds Hds) as [(e & p & He & Hown & Hp)|[Hnone _]].
      * apply (path_step g n p); [by exists es, e|].
        apply (IHk (max_list ds)); [lia|done].
      * exfalso. by apply (Hattached n es Hes).
    + intros j Hj.
      inversion Hj as [|? p j' (es' & e & Hes' & He & Hown) Hp]; subst; [lia|].
      assert (es' = es) as -> by congruence.
      apply list_elem_of_lookup in He as [i Hi].
      destruct (Forall2_lookup_l _ _ _ _ _ Hds Hi) as (d & Hd & (p' & Hown' & HR)).
      assert (p' = p) as -> by congruence.
      assert (d ≤ max_list ds)%nat as Hle.
      { apply max_list_elem_of_le. apply list_elem_of_lookup. by exists i. }
      destruct (IHk d ltac:(lia) p HR) as [_ Hlongest].
      specialize (Hlongest j' Hp). lia.
Qed.

(** X4.  On a well-formed DAG, the reachability that the pass leaves in
    a node is the length of the longest path of inward edges that
    starts at the node: there is a path of that length, and none is
    longer. *)
Theorem reachability_is_longest_path tasks :
  well_formed g tasks →
  ∃ fuel0, ∀ fuel r, (fuel0 ≤ fuel)%nat →
    ∃ r', compute_reachability fuel g tasks r = Some r' ∧
      ∀ n, from_tasks g tasks n →
        ∃ k, get_reachability g r' n = Z.of_nat k ∧
             path g n k ∧ ∀ j, path g n j → (j ≤ k)%nat.
Proof.
  intros Hwf. pose proof Hwf as [Hattached _].
  destruct (fuel_bound g tasks (well_formed_acyclic g tasks Hwf)) as [fuel0 Hfuel0].
  exists fuel0. intros fuel r Hfuel.
  destruct (compute_reachability_char g fuel tasks r (Hfuel0 fuel Hfuel))
    as (r' & M & Hrun & HM & Hin & _).
  exists r'. split; [done|]. intros n Hn.
  destruct (Hin n) as (k & Hk & Hget); [by apply HM|].
  exists k. split; [done|]. by apply Rank_longest_path.
Qed.
End ReachabilityMore.

(** [D] of the diamond, two edges away from [A]. *)
Lemma set_reachability_overloads_agree_witness :
  ∃ fuel0, ∀ fuel r, (fuel0 ≤ fuel)%nat →
    ∃ r1 r2,
      Node.set_reachability_fresh fuel Scenario.diamond_graph 23 r = Some r1 ∧
      Node.compute_reachability fuel Scenario.diamond_graph [Some 23%nat] r
        = Some r2 ∧
      Node.get_reachability Scenario.diamond_graph r1 23 = Z.of_nat 2 ∧
      ∀ m, Node.get_reachability Scenario.diamond_graph r1 m
           = Node.get_reachability Scenario.diamond_graph r2 m.
Proof.
  apply (set_reachability_overloads_agree Scenario.diamond_graph 23 2).
  - exists 3%nat. vm_compute. reflexivity.
  - vm_compute. discriminate.
Defined.

(** The diamond, entered at [D] with a null task pointer in the range. *)
Lemma producers_compare_less_witness :
  ∃ fuel0, ∀ fuel r, (fuel0 ≤ fuel)%nat →
    ∃ r', Node.compute_reachability fuel Scenario.diamond_graph
            [Some 23%nat; None] r = Some r' ∧
      ∀ n p, Node.from_tasks Scenario.diamond_graph [Some 23%nat; None] n →
        Node.producer Scenario.diamond_graph n p →
        Node.lt Scenario.diamond_graph r' p n = true ∧
        Node.lt Scenario.diamond_graph r' n p = false.
Proof.
  apply (producers_compare_less Scenario.diamond_graph [Some 23%nat; None]).
  apply (check_acyclic_sound 3). vm_compute. reflexivity.
Defined.

(** The pass over [T2] of the chain leaves [T3] and [T4] alone. *)
Lemma compute_reachability_frame_witness :
  ∃ fuel0, ∀ fuel r, (fuel0 ≤ fuel)%nat →
    ∃ r', Node.compute_reachability fuel Scenario.chain_graph [Some 12%nat] r
          = Some r' ∧
      ∀ n, ¬ Node.from_tasks Scenario.chain_graph [Some 12%nat] n →
           r' !! n = r !! n.
Proof.
  apply (compute_reachability_frame Scenario.chain_graph [Some 12%nat]).
  apply (check_acyclic_sound 3). vm_compute. reflexivity.
Defined.

(** The diamond, consumers first. *)
Lemma reachability_is_longest_path_witness :
  ∃ fuel0, ∀ fuel r, (fuel0 ≤ fuel)%nat →
    ∃ r', Node.compute_reachability fuel Scenario.diamond_graph
            (Some <$> Scenario.diamond_tasks) r = Some r' ∧
      ∀ n, Node.from_tasks Scenario.diamond_graph (Some <$> Scenario.diamond_tasks) n →
        ∃ k, Node.get_reachability Scenario.diamond_graph r' n = Z.of_nat k ∧
             Node.path Scenario.diamond_graph n k ∧
             ∀ j, Node.path Scenario.diamond_graph n j → (j ≤ k)%nat.
Proof.
  apply (reachability_is_longest_path Scenario.diamond_graph
           (Some <$> Scenario.diamond_tasks)).
  apply (check_well_formed_sound 3). vm_compute. reflexivity.
Defined.

(** * The pass on graphs with cycles *)

Section ReachabilityTermination.
Import Node MachineInt.
Variable g : Graph.
Hypothesis Hvalid : pointers_valid g.

Local Abbreviation unmarked := (Node.unmarked g).

Lemma unmarked_mono s s' :
  marker s ⊆ marker s' → (unmarked s' ≤ unmarked s)%nat.
Proof.
  intros Hsub. apply subseteq_size. intros x Hx.
  apply elem_of_difference in Hx as [Hd Hm]. apply elem_of_difference.
  split; [done|]. intros Hin. by apply Hm, Hsub.
Qed.

Lemma unmarked_mark n s :
  is_Some (in_edges_ g !! n) → n ∉ marker s →
  unmarked s
  = S (unmarked {| marker := {[n]} ∪ marker s; reachability_ := reachability_ s |}).
Proof.
  intros Hn Hm. unfold Node.unmarked. simpl.
  assert (dom (in_edges_ g) ∖ marker s
          ≡ {[n]} ∪ dom (in_edges_ g) ∖ ({[n]} ∪ marker s)) as Heq.
  { intros x. rewrite elem_of_union, !elem_of_difference, elem_of_union,
      elem_of_singleton.
    split.
    - intros [Hd Hx]. destruct (decide (x = n)) as [->|Hne]; [by left|right].
      split; [done|]. by intros [?|?].
    - intros [->|[Hd Hx]].
      + split; [by apply elem_of_dom|done].
      + split; [done|]. intros Hin. apply Hx. by right. }
  rewrite Heq, size_union, size_singleton; [done|].
  intros x Hx Hx'. apply elem_of_singleton in Hx as ->.
  apply elem_of_difference in Hx' as [_ Hx']. apply Hx'.
  by apply elem_of_union_l, elem_of_singleton.
Qed.

Lemma get_reachability_below b r n :
  fields_below b r → 0 ≤ b → 0 ≤ get_reachability g r n ≤ b.
Proof.
  intros Hb Hpos. unfold get_reachability.
  assert (0 ≤ default 0 (r !! n) ≤ b) as Hfield.
  { destruct (r !! n) as [v|] eqn:Hv; simpl; [|lia]. by apply (Hb n v). }
  destruct (in_edges_ g !! n) as [[|edge es]|]; [lia|done..].
Qed.

Lemma fields_below_weaken b b' r :
  fields_below b r → b ≤ b' → fields_below b' r.
Proof.
  intros Hb Hle. eapply map_Forall_impl; [exact Hb|]. intros n v Hv. simpl in *. lia.
Qed.

Lemma max_element_below lo hi (arr : list Z) :
  arr ≠ [] → Forall (λ a, lo ≤ a ≤ hi) arr →
  ∃ m, max_element arr = Some m ∧ lo ≤ m ≤ hi.
Proof.
  destruct arr as [|x arr]; [done|]. intros _ Hall.
  apply Forall_cons in Hall as [Hx Hall]. simpl. eexists. split; [done|].
  revert x Hx. induction Hall as [|y arr Hy _ IH]; intros x Hx; simpl; [done|].
  apply IH. lia.
Qed.

Section Calls.
(** [fuel] is enough for the calls made from the loop. *)
Variable fuel : nat.
Hypothesis IH : ∀ n s b,
  is_Some (in_edges_ g !! n) → (unmarked s < fuel)%nat →
  fields_below b (reachability_ s) → 0 ≤ b →
  b + Z.of_nat (unmarked s) ≤ INT_MAX →
  ∃ s', set_reachability fuel g n s = Some s' ∧
        marker s ⊆ marker s' ∧
        fields_below (b + Z.of_nat (unmarked s - unmarked s')) (reachability_ s').

Lemma inward_reachabilities_returns es : ∀ s b,
  Forall (slot_valid g) es → (unmarked s < fuel)%nat →
  fields_below b (reachability_ s) → 0 ≤ b →
  b + Z.of_nat (unmarked s) ≤ INT_MAX →
  ∃ s' arr,
    inward_reachabilities (set_reachability fuel g) g es s = Some (s', arr) ∧
    marker s ⊆ marker s' ∧
    fields_below (b + Z.of_nat (unmarked s - unmarked s')) (reachability_ s') ∧
    Forall (λ a, 0 ≤ a ≤ b + Z.of_nat (unmarked s - unmarked s')) arr ∧
    length arr = length es.
Proof.
  induction es as [|edge es IHes]; intros s b Hes Hfuel Hb Hpos Hmax.
  - exists s, []. simpl. split; [done|]. split; [done|].
    rewrite Nat.sub_diag, Z.add_0_r. split; [done|]. split; [constructor|done].
  - apply Forall_cons in Hes as [Hedge Hes]. simpl.
    assert (∃ s1 current,
              match edge with
              | Some e =>
                  node ← owner_ g !! e;
                  s1 ← set_reachability fuel g node s;
                  Some (s1, get_reachability g (reachability_ s1) node)
              | None => Some (s, 0)
              end = Some (s1, current) ∧
              marker s ⊆ marker s1 ∧
              fields_below (b + Z.of_nat (unmarked s - unmarked s1))
                           (reachability_ s1) ∧
              0 ≤ current ≤ b + Z.of_nat (unmarked s - unmarked s1))
      as (s1 & current & -> & Hsub1 & Hb1 & Hcurrent).
    { destruct edge as [e|].
      - simpl in Hedge. destruct (owner_ g !! e) as [p|]; [|done].
        rename Hedge into Hp. simpl.
        destruct (IH p s b Hp Hfuel Hb Hpos Hmax) as (s1 & -> & Hsub1 & Hb1).
        simpl. exists s1. eexists. split; [done|]. split; [done|]. split; [done|].
        apply get_reachability_below; [done|lia].
      - exists s, 0. split; [done|]. split; [done|].
        rewrite Nat.sub_diag, Z.add_0_r. split; [done|lia]. }
    simpl.
    pose proof (unmarked_mono s s1 Hsub1) as Hle1.
    destruct (IHes s1 (b + Z.of_nat (unmarked s - unmarked s1)))
      as (s2 & arr & -> & Hsub2 & Hb2 & Harr & Hlen); [done|lia|done|lia|lia|].
    pose proof (unmarked_mono s1 s2 Hsub2) as Hle2.
    simpl. exists s2. eexists. split; [done|]. split; [by etrans|].
    assert (b + Z.of_nat (unmarked s - unmarked s1)
              + Z.of_nat (unmarked s1 - unmarked s2)
            = b + Z.of_nat (unmarked s - unmarked s2)) as Hsum by lia.
    rewrite Hsum in Hb2, Harr. split; [done|]. split; [|simpl; by rewrite Hlen].
    constructor; [|done].
    rewrite to_int_small by lia. lia.
Qed.
End Calls.

(** With the marker, [set_reachability] returns on every graph, once
    the fuel exceeds the number of unmarked nodes; a field grows by at
    most the number of nodes that the call marks. *)
Lemma set_reachability_returns fuel : ∀ n s b,
  is_Some (in_edges_ g !! n) → (unmarked s < fuel)%nat →
  fields_below b (reachability_ s) → 0 ≤ b →
  b + Z.of_nat (unmarked s) ≤ INT_MAX →
  ∃ s', set_reachability fuel g n s = Some s' ∧
        marker s ⊆ marker s' ∧
        fields_below (b + Z.of_nat (unmarked s - unmarked s')) (reachability_ s').
Proof.
  induction fuel as [|fuel IH]; intros n s b Hn Hfuel Hb Hpos Hmax; [lia|].
  simpl. destruct (decide (n ∈ marker s)) as [Hm|Hm].
  { exists s. split; [done|]. split; [done|]. by rewrite Nat.sub_diag, Z.add_0_r. }
  set (s0 := {| marker := {[n]} ∪ marker s; reachability_ := reachability_ s |}).
  pose proof (unmarked_mark n s Hn Hm) as Hmark. fold s0 in Hmark.
  assert (marker s ⊆ marker s0) as Hsub0 by apply union_subseteq_r.
  destruct Hn as [es Hes]. rewrite Hes.
  destruct es as [|edge es].
  { exists s0. split; [done|]. split; [done|].
    eapply fields_below_weaken; [exact Hb|]. lia. }
  destruct (inward_reachabilities_returns fuel IH (edge :: es) s0 b)
    as (s1 & arr & -> & Hsub1 & Hb1 & Harr & Hlen); [|lia|done|done|lia|].
  { by apply (Hvalid n). }
  pose proof (unmarked_mono s0 s1 Hsub1) as Hle1.
  destruct (max_element_below 0 (b + Z.of_nat (unmarked s0 - unmarked s1)) arr)
    as (m & Hmax_element & Hm'); [by intros ->|done|].
  simpl. rewrite Hmax_element.
  simpl. unfold int_add. rewrite decide_True by (unfold INT_MIN; lia). simpl.
  rewrite to_size_t_small by lia.
  exists {| marker := marker s1;
            reachability_ := <[n := m + 1]> (reachability_ s1) |}.
  split; [done|]. split; [simpl; by etrans|].
  change (unmarked {| marker := marker s1;
                      reachability_ := <[n := m + 1]> (reachability_ s1) |})
    with (unmarked s1).
  simpl. apply map_Forall_insert_2; [lia|].
  eapply fields_below_weaken; [exact Hb1|]. lia.
Qed.

Lemma visit_tasks_returns fuel tasks : ∀ s b,
  (∀ t, Some t ∈ tasks → is_Some (in_edges_ g !! t)) →
  (unmarked s < fuel)%nat →
  fields_below b (reachability_ s) → 0 ≤ b →
  b + Z.of_nat (unmarked s) ≤ INT_MAX →
  ∃ s', visit_tasks fuel g tasks s = Some s' ∧
        fields_below (b + Z.of_nat (unmarked s)) (reachability_ s').
Proof.
  induction tasks as [|task tasks IHt]; intros s b Htasks Hfuel Hb Hpos Hmax.
  - exists s. split; [done|]. eapply fields_below_weaken; [exact Hb|]. lia.
  - assert (∀ t, Some t ∈ tasks → is_Some (in_edges_ g !! t)) as Htasks'
      by (intros t Ht; apply Htasks; by right).
    destruct task as [t|]; simpl; [|by apply IHt].
    destruct (set_reachability_returns fuel t s b) as (s1 & -> & Hsub1 & Hb1);
      [apply Htasks; left|done..|].
    pose proof (unmarked_mono s s1 Hsub1) as Hle1. simpl.
    destruct (IHt s1 (b + Z.of_nat (unmarked s - unmarked s1)))
      as (s2 & -> & Hb2); [done|lia|done|lia|lia|].
    exists s2. split; [done|]. eapply fields_below_weaken; [exact Hb2|]. lia.
Qed.

(** X5.  With the marker, the pass returns on every graph whose
    pointers are valid, with or without cycles: fuel above the number
    of nodes is enough for the recursion, since every call that does
    not return at once marks a node that was not marked before.  No
    field ends up higher than the largest field the pass found plus
    the number of nodes, so the [int] arithmetic does not overflow as
    long as that sum fits. *)
Theorem compute_reachability_returns tasks r b fuel :
  (∀ t, Some t ∈ tasks → is_Some (in_edges_ g !! t)) →
  fields_below b r → 0 ≤ b →
  b + Z.of_nat (size (dom (in_edges_ g))) ≤ INT_MAX →
  (size (dom (in_edges_ g)) < fuel)%nat →
  ∃ r', compute_reachability fuel g tasks r = Some r' ∧
        fields_below (b + Z.of_nat (size (dom (in_edges_ g)))) r'.
Proof.
  intros Htasks Hb Hpos Hmax Hfuel. unfold compute_reachability.
  set (s := {| marker := ∅; reachability_ := r |}).
  assert (unmarked s = size (dom (in_edges_ g))) as Hu.
  { unfold Node.unmarked. simpl. by rewrite difference_empty_L. }
  destruct (visit_tasks_returns fuel tasks s b) as (s' & -> & Hb');
    [done|lia|done|done|lia|].
  simpl. exists (reachability_ s'). split; [done|]. by rewrite <- Hu.
Qed.
End ReachabilityTermination.

(** Two nodes on a cycle, with a null task pointer in the range. *)
Lemma compute_reachability_returns_witness :
  ∃ r', Node.compute_reachability 3 Scenario.cycle [Some 30%nat; None] ∅ = Some r' ∧
        Node.fields_below
          (0 + Z.of_nat (size (dom (Node.in_edges_ Scenario.cycle)))) r'.
Proof.
  apply (compute_reachability_returns Scenario.cycle).
  - apply (bool_decide_unpack _). vm_compute. exact I.
  - intros t Ht. apply elem_of_cons in Ht as [[= ->]|Ht].
    + vm_compute. eauto.
    + apply list_elem_of_singleton in Ht. discriminate.
  - apply (bool_decide_unpack _). vm_compute. exact I.
  - lia.
  - vm_compute. discriminate.
  - vm_compute. lia.
Defined.

(** * More about the edge *)

Section EdgeMore.
Context {T : Type}.
Implicit Types (e : Edge.t T) (cs : list (Edge.Call T)).

Lemma calls_app cs1 cs2 e :
  Edge.calls (cs1 ++ cs2) e =
  ((Edge.calls cs2 (Edge.calls cs1 e).1).1,
   (Edge.calls cs1 e).2 ++ (Edge.calls cs2 (Edge.calls cs1 e).1).2).
Proof.
  revert e. induction cs1 as [|[data|] cs1 IH]; intros e; simpl.
  - by destruct (Edge.calls cs2 e).
  - apply IH.
  - rewrite IH. by destruct (Edge.calls cs1 e).
Qed.

Lemma calls_final cs e :
  Edge.get_owner (Edge.calls cs e).1 = Edge.get_owner e ∧
  Edge.get_data (Edge.calls cs e).1
    = default (Edge.get_data e) (last (Edge.writes cs)) ∧
  Edge.is_retrievable (Edge.calls cs e).1
    = Edge.is_retrievable e || bool_decide (Edge.writes cs ≠ []).
Proof.
  revert e. induction cs as [|[data|] cs IH]; intros e; simpl.
  - by rewrite orb_false_r.
  - destruct (IH (Edge.set_data data e)) as (-> & -> & ->).
    split; [done|]. split.
    + rewrite last_cons. by destruct (last (Edge.writes cs)).
    + simpl. by rewrite orb_true_r.
  - destruct (IH e) as (Ho & Hd & Hr).
    by destruct (Edge.calls cs e).
Qed.

(** X6.  Whatever calls of [set_data] and [get_data] a client makes on
    an edge: a read returns the value of the latest [set_data] before
    it, or what the edge held at the start when there is none; after
    the calls the edge is retrievable exactly when it was so before or
    one of the calls was a [set_data]; and the owner is the one the
    edge was constructed with. *)
Theorem reads_return_latest_write cs1 cs2 e :
  (Edge.calls (cs1 ++ Edge.GetData :: cs2) e).2
    = (Edge.calls cs1 e).2
      ++ default (Edge.get_data e) (last (Edge.writes cs1))
      :: (Edge.calls cs2 (Edge.calls cs1 e).1).2 ∧
  Edge.is_retrievable (Edge.calls cs1 e).1
    = Edge.is_retrievable e || bool_decide (Edge.writes cs1 ≠ []) ∧
  Edge.get_owner (Edge.calls cs1 e).1 = Edge.get_owner e.
Proof.
  destruct (calls_final cs1 e) as (Ho & Hd & Hr).
  split; [|done]. rewrite calls_app. simpl.
  destruct (Edge.calls cs2 (Edge.calls cs1 e).1). simpl. by rewrite Hd.
Qed.
End EdgeMore.

(** * More about the worker pool *)

Section PoolMore.
Import MachineInt ThreadPool.
Context {F : Type}.
Implicit Types (p : ThreadPool.t F) (fn : Callable F) (s : Threads F).

Lemma add_tasks_spec fns : ∀ p,
  INT_MIN ≤ active_task_count_ p →
  active_task_count_ p + Z.of_nat (length (omap closure fns)) ≤ INT_MAX →
  add_tasks fns p =
    {| tasks_ := tasks_ p ++ omap closure fns;
       active_task_count_ :=
         active_task_count_ p + Z.of_nat (length (omap closure fns));
       on_complete_ := on_complete_ p;
       thread_count_ := thread_count_ p;
       completions := completions p |}.
Proof.
  induction fns as [|fn fns IH]; intros p Hmin Hmax.
  - simpl. rewrite app_nil_r, Z.add_0_r. by destruct p.
  - unfold add_tasks in *. simpl foldl.
    destruct (closure fn) as [f|] eqn:Hf.
    + assert (omap closure (fn :: fns) = f :: omap closure fns) as Hcons
        by (simpl; by rewrite Hf).
      rewrite Hcons in *. rewrite length_cons, Nat2Z.inj_succ in *.
      assert ((add_task fn p).2 =
              {| tasks_ := tasks_ p ++ [f];
                 active_task_count_ := active_task_count_ p + 1;
                 on_complete_ := on_complete_ p;
                 thread_count_ := thread_count_ p;
                 completions := completions p |}) as ->.
      { assert (atomic_add (active_task_count_ p) 1 = active_task_count_ p + 1) as Hadd.
        { unfold atomic_add. apply to_int_id. lia. }
        destruct fn as [[f'|]|[f'|]|f']; simpl in Hf; try done;
          inversion Hf; subst; unfold add_task; by rewrite Hadd. }
      rewrite IH; [|cbn [active_task_count_]; lia..].
      cbn [tasks_ active_task_count_ on_complete_ thread_count_ completions].
      rewrite <- app_assoc. f_equal. lia.
    + assert (omap closure (fn :: fns) = omap closure fns) as Hcons
        by (simpl; by rewrite Hf).
      rewrite Hcons in *.
      assert ((add_task fn p).2 = p) as ->.
      { by destruct fn as [[f'|]|[f'|]|f']. }
      by rewrite IH.
Qed.

(** X7.  A series of [add_task] calls on a pool whose counter has room
    for them: the queue grows by the non-null callables, in the order
    of submission (the null ones leave no trace); [size()] and
    [active_task_count()] go up by their number; the worker count and
    the callback are as before; and the closure a worker pops next is
    the front of that queue. *)
Theorem add_tasks_queue fns p :
  INT_MIN ≤ active_task_count_ p →
  active_task_count_ p + Z.of_nat (length (omap closure fns)) ≤ INT_MAX →
  let p' := add_tasks fns p in
  get_queued_tasks p' = get_queued_tasks p ++ omap closure fns ∧
  size p' = (size p + length (omap closure fns))%nat ∧
  active_task_count p'
    = active_task_count p + Z.of_nat (length (omap closure fns)) ∧
  worker_count p' = worker_count p ∧
  on_complete_ p' = on_complete_ p ∧
  (pop_task p').1 = head (get_queued_tasks p ++ omap closure fns).
Proof.
  intros Hmin Hmax p'. unfold p'. rewrite add_tasks_spec by done.
  unfold get_queued_tasks, size, active_task_count, worker_count, pop_task.
  simpl. rewrite length_app. repeat split.
  by destruct (tasks_ p ++ omap closure fns).
Qed.

Lemma step_configuration ev s s' :
  step ev s = Some s' →
  on_complete_ (pool s') = on_complete_ (pool s) ∧
  thread_count_ (pool s') = thread_count_ (pool s) ∧
  (on_complete_ (pool s) = false →
   completions (pool s') = completions (pool s)).
Proof.
  destruct s as [[q c cb tc fired] k b]. simpl.
  destruct ev as [fn| | | | |]; simpl; intros Hstep.
  - inversion Hstep; subst. by destruct fn as [[f|]|[f|]|f].
  - by inversion Hstep; subst.
  - destruct q; inversion Hstep; subst; done.
  - destruct k; [done|]. destruct b; [done|]. by inversion Hstep; subst.
  - destruct b; [|done]. inversion Hstep; subst. unfold check_idle. simpl.
    destruct (bool_decide (c = 0)), cb; simpl; repeat split; done.
  - destruct k; [done|]. destruct b; [done|]. inversion Hstep; subst.
    unfold complete_task, check_idle. simpl.
    destruct (bool_decide _), cb; simpl; repeat split; done.
Qed.

Lemma run_events_counted evs : ∀ o o' : Observed F,
  counted (length evs) (threads o) →
  run_events evs o = Some o' →
  counted O (threads o') ∧
  on_complete_ (pool (threads o')) = on_complete_ (pool (threads o)) ∧
  thread_count_ (pool (threads o')) = thread_count_ (pool (threads o)) ∧
  (on_complete_ (pool (threads o)) = false →
   completions (pool (threads o')) = completions (pool (threads o))).
Proof.
  induction evs as [|ev evs IH]; intros o o' Hc Hrun; simpl in *.
  - by inversion Hrun; subst.
  - unfold observe in Hrun.
    destruct (step ev (threads o)) as [s1|] eqn:Hstep; [|done]. simpl in Hrun.
    apply IH in Hrun; simpl; [|by eapply step_counted].
    simpl in Hrun. destruct Hrun as (Hcount & Hcb & Htc & Hsilent).
    destruct (step_configuration _ _ _ Hstep) as (Hcb1 & Htc1 & Hsilent1).
    split; [done|]. split; [congruence|]. split; [congruence|].
    intros Hnone. rewrite Hsilent by congruence. by apply Hsilent1.
Qed.

(** X8.  In every run of fewer than [2^31] events on a new pool, in any
    interleaving (a worker's completion may be split by submissions
    and cancellations between its [fetch_sub] and its load): the
    counter is the number of closures queued or popped and not yet
    accounted for, so [is_idle()] holds exactly when the queue is empty
    and no such closure is left; the worker count and the callback are
    those of the constructor; and a pool built without a callback
    never invokes one. *)
Theorem counter_is_outstanding evs thread_count callback (o : Observed F) :
  Z.of_nat (length evs) ≤ INT_MAX →
  run_events evs (start (make thread_count callback)) = Some o →
  let s := threads o in
  active_task_count (pool s) = Z.of_nat (size (pool s) + in_flight s) ∧
  (is_idle (pool s) = true ↔ empty (pool s) = true ∧ in_flight s = O) ∧
  worker_count (pool s) = thread_count ∧
  on_complete_ (pool s) = callback ∧
  (callback = false → completions (pool s) = O).
Proof.
  intros Hlen Hrun s.
  apply run_events_counted in Hrun as ([Hcount _] & Hcb & Htc & Hsilent).
  2:{ unfold counted. simpl. split; [done|lia]. }
  fold s in Hcount, Hcb, Htc, Hsilent. simpl in *.
  unfold active_task_count, size, is_idle, empty, worker_count.
  split; [done|]. split; [|done].
  rewrite Hcount. split.
  - intros Hidle%bool_decide_eq_true_1. split; [|lia].
    apply bool_decide_eq_true_2. destruct (tasks_ (pool s)); [done|simpl in *; lia].
  - intros [Hq%bool_decide_eq_true_1 Hk]. apply bool_decide_eq_true_2.
    rewrite Hq, Hk. done.
Qed.
End PoolMore.

(** A lambda, an empty [std::function] and a function pointer,
    submitted to a new pool. *)
Lemma add_tasks_queue_witness :
  let fns := [ThreadPool.Functor 1%nat; ThreadPool.StdFunction None;
              ThreadPool.FunctionPointer (Some 2%nat)] in
  let p := ThreadPool.make 2 false in
  let p' := ThreadPool.add_tasks fns p in
  ThreadPool.get_queued_tasks p'
    = ThreadPool.get_queued_tasks p ++ omap ThreadPool.closure fns ∧
  ThreadPool.size p' = (ThreadPool.size p + length (omap ThreadPool.closure fns))%nat ∧
  ThreadPool.active_task_count p'
    = ThreadPool.active_task_count p
      + Z.of_nat (length (omap ThreadPool.closure fns)) ∧
  ThreadPool.worker_count p' = ThreadPool.worker_count p ∧
  ThreadPool.on_complete_ p' = ThreadPool.on_complete_ p ∧
  (ThreadPool.pop_task p').1
    = head (ThreadPool.get_queued_tasks p ++ omap ThreadPool.closure fns).
Proof.
  intros fns p. apply (add_tasks_queue fns p); vm_compute; discriminate.
Defined.

(** Two submissions, a worker between its [fetch_sub] and its load when
    an empty [std::function] is submitted and the queue is cleared. *)
Lemma counter_is_outstanding_witness :
  ∃ o, ThreadPool.run_events
         [ThreadPool.Submit (ThreadPool.Functor ());
          ThreadPool.Submit (ThreadPool.Functor ());
          ThreadPool.Pop; ThreadPool.Decrement;
          ThreadPool.Submit (ThreadPool.StdFunction None);
          ThreadPool.Cancel; ThreadPool.Check]
         (ThreadPool.start (ThreadPool.make 2 true)) = Some o ∧
       let s := ThreadPool.threads o in
       ThreadPool.active_task_count (ThreadPool.pool s)
         = Z.of_nat (ThreadPool.size (ThreadPool.pool s) + ThreadPool.in_flight s) ∧
       (ThreadPool.is_idle (ThreadPool.pool s) = true ↔
          ThreadPool.empty (ThreadPool.pool s) = true ∧
          ThreadPool.in_flight s = O) ∧
       ThreadPool.worker_count (ThreadPool.pool s) = 2%nat ∧
       ThreadPool.on_complete_ (ThreadPool.pool s) = true ∧
       (true = false → ThreadPool.completions (ThreadPool.pool s) = O).
Proof.
  eexists. split; [vm_compute; reflexivity|].
  match goal with
  | |- context [ThreadPool.threads ?o] =>
      apply (counter_is_outstanding
               [ThreadPool.Submit (ThreadPool.Functor ());
                ThreadPool.Submit (ThreadPool.Functor ());
                ThreadPool.Pop; ThreadPool.Decrement;
                ThreadPool.Submit (ThreadPool.StdFunction None);
                ThreadPool.Cancel; ThreadPool.Check] 2 true o)
  end.
  - vm_compute. discriminate.
  - vm_compute. reflexivity.
Defined.

(** * More about the execution of a task *)

Section TaskMore.
Import Task.
Context {V : Type} `{ValueInit V}.
Implicit Types (task : Task.t V) (w : Task.World V).

(** X9.  [run()] on a task whose outward edge exists.  While an
    attached inward edge is not retrievable the call does not return.
    Otherwise it returns and has: read one argument per non-void input;
    stored the value of the callable as the result and on the outward
    edge (a task that returns [void] leaves both data alone), and
    latched that edge; recorded a start time and an end time read from
    the clock after it, so that [get_duration] is not negative; logged
    one invocation and one notification; left the task
    [Complete] so that [wait()] returns [Complete]; and touched no
    other edge, no other task's state or result, and no
    reachability. *)
Theorem run_effect task self w edge :
  edges w !! out_edge_ task = Some edge →
  (forallb (is_retrievable w) (waits task) = false → run task self w = None) ∧
  (forallb (is_retrievable w) (waits task) = true →
   ∃ args w',
     arguments w task = Some args ∧
     length args = length (filtered (input_void task)) ∧
     run task self w = Some w' ∧
     edges w' =
       <[out_edge_ task :=
           if return_void task then Edge.set_data_void edge
           else Edge.set_data (callable_ task args) edge]> (edges w) ∧
     result_ w' =
       (if return_void task then result_ w
        else <[self := callable_ task args]> (result_ w)) ∧
     state_ w' = <[self := Complete]> (state_ w) ∧
     wait w' self = Some Complete ∧
     start_time_ w' = <[self := now w]> (start_time_ w) ∧
     end_time_ w' = <[self := S (now w)]> (end_time_ w) ∧
     0 ≤ get_duration w' self ∧
     invoked w' = self :: invoked w ∧
     notified w' = self :: notified w ∧
     reachability_ w' = reachability_ w).
Proof.
  intros Hout. rewrite run_unfold. split; [by intros ->|]. intros Hall.
  rewrite Hall.
  destruct (arguments_defined task w Hall) as [args Hargs].
  assert (length args = length (filtered (input_void task))) as Hlen.
  { symmetry. apply mapM_Some in Hargs. by apply Forall2_length in Hargs. }
  unfold after_waits. simpl.
  change (arguments (set_start_time self (set_state self Running w)) task)
    with (arguments w task).
  rewrite Hargs. simpl.
  destruct (return_void task) eqn:Hvoid; simpl; rewrite Hout; simpl;
    exists args; eexists; (do 3 (split; [reflexivity || done|])); simpl.
  - repeat split; try done.
    + by rewrite insert_insert_eq.
    + unfold wait, get_state. simpl. by rewrite lookup_insert_eq.
    + unfold get_duration. simpl. rewrite !lookup_insert_eq. simpl. lia.
  - unfold get_result. simpl. rewrite lookup_insert_eq. simpl.
    repeat split; try done.
    + by rewrite insert_insert_eq.
    + unfold wait, get_state. simpl. by rewrite lookup_insert_eq.
    + unfold get_duration. simpl. rewrite !lookup_insert_eq. simpl. lia.
Qed.

(** X10.  [add_inward_edge<Idx>] on a slot whose type is not [void],
    the [k]-th among the non-void inputs, followed by [run()]:
    [get_inward_edge_value<Idx>] reads the data of that edge; [run()]
    does not return while the edge is not retrievable; when the
    arguments of the callable are read, the [k]-th is the data of the
    edge; the other non-void slots read what they read before; and
    wiring the slot again replaces the edge. *)
Theorem add_inward_edge_wires task self idx k e edge w :
  (idx < length (in_edges_ task))%nat →
  filtered (input_void task) !! k = Some idx →
  edges w !! e = Some edge →
  get_inward_edge_value w (add_inward_edge idx e task) idx
    = Some (Edge.get_data edge) ∧
  (Edge.is_retrievable edge = false →
     run (add_inward_edge idx e task) self w = None) ∧
  (∀ args, arguments w (add_inward_edge idx e task) = Some args →
           args !! k = Some (Edge.get_data edge)) ∧
  (∀ j k', j ≠ idx → filtered (input_void task) !! k' = Some j →
     get_inward_edge_value w (add_inward_edge idx e task) j
     = get_inward_edge_value w task j) ∧
  ∀ e', add_inward_edge idx e' (add_inward_edge idx e task)
        = add_inward_edge idx e' task.
Proof.
  intros Hidx Hk He.
  assert (in_edges_ (add_inward_edge idx e task) !! idx = Some (Some e)) as Hslot
    by (simpl; by apply list_lookup_insert_eq).
  assert (get_inward_edge_value w (add_inward_edge idx e task) idx
          = Some (Edge.get_data edge)) as Hget.
  { unfold get_inward_edge_value. by rewrite Hslot, He. }
  split; [done|]. split; [|split; [|split]].
  - intros Hlatch. rewrite run_unfold.
    assert (forallb (is_retrievable w) (waits (add_inward_edge idx e task))
            = false) as ->; [|done].
    apply not_true_is_false. intros Hall. rewrite forallb_forall in Hall.
    specialize (Hall e). unfold is_retrievable in Hall. rewrite He in Hall.
    rewrite Hall in Hlatch; [done|].
    apply list_elem_of_In. by eapply waits_elem.
  - intros args Hargs. unfold arguments in Hargs. apply mapM_Some in Hargs.
    simpl in Hargs.
    destruct (Forall2_lookup_l _ _ _ _ _ Hargs Hk) as (v & Hv & Hread).
    rewrite Hget in Hread. by simplify_eq.
  - intros j k' Hj _. unfold get_inward_edge_value. simpl.
    by rewrite list_lookup_insert_ne.
  - intros e'. unfold add_inward_edge. simpl. by rewrite list_insert_insert_eq.
Qed.
End TaskMore.

(** [B] of the diamond once [A] has produced its value. *)
Lemma run_effect_witness :
  let w := Scenario.fresh
             (<[120%nat := Edge.set_data 1 (Edge.make 20)]> Scenario.diamond_edges) in
  ∃ args w',
    Task.arguments w Scenario.B = Some args ∧
    length args = length (Task.filtered (Task.input_void Scenario.B)) ∧
    Task.run Scenario.B 21 w = Some w' ∧
    Task.edges w' =
      <[Task.out_edge_ Scenario.B :=
          if Task.return_void Scenario.B then Edge.set_data_void (Edge.make 21)
          else Edge.set_data (Task.callable_ Scenario.B args) (Edge.make 21)]>
        (Task.edges w) ∧
    Task.result_ w' =
      (if Task.return_void Scenario.B then Task.result_ w
       else <[21%nat := Task.callable_ Scenario.B args]> (Task.result_ w)) ∧
    Task.state_ w' = <[21%nat := Complete]> (Task.state_ w) ∧
    Task.wait w' 21 = Some Complete ∧
    Task.start_time_ w' = <[21%nat := Task.now w]> (Task.start_time_ w) ∧
    Task.end_time_ w' = <[21%nat := S (Task.now w)]> (Task.end_time_ w) ∧
    0 ≤ Task.get_duration w' 21 ∧
    Task.invoked w' = 21%nat :: Task.invoked w ∧
    Task.notified w' = 21%nat :: Task.notified w ∧
    Task.reachability_ w' = Task.reachability_ w.
Proof.
  intros w. apply (run_effect Scenario.B 21 w (Edge.make 21)); vm_compute; reflexivity.
Defined.

(** Wiring the input of [T1] of the chain to the outward edge of [T0],
    before [T0] has run. *)
Lemma add_inward_edge_wires_witness :
  let task := Scenario.unwired 1 in
  let w := Scenario.fresh Scenario.chain_edges in
  Task.get_inward_edge_value w (Task.add_inward_edge 0 110 task) 0
    = Some (Edge.get_data (Edge.make 10)) ∧
  (Edge.is_retrievable (Edge.make (T := Z) 10) = false →
     Task.run (Task.add_inward_edge 0 110 task) 11 w = None) ∧
  (∀ args, Task.arguments w (Task.add_inward_edge 0 110 task) = Some args →
           args !! 0%nat = Some (Edge.get_data (Edge.make 10))) ∧
  (∀ j k', j ≠ 0%nat → Task.filtered (Task.input_void task) !! k' = Some j →
     Task.get_inward_edge_value w (Task.add_inward_edge 0 110 task) j
     = Task.get_inward_edge_value w task j) ∧
  ∀ e', Task.add_inward_edge 0 e' (Task.add_inward_edge 0 110 task)
        = Task.add_inward_edge 0 e' task.
Proof.
  intros task w.
  apply (add_inward_edge_wires task 11 0%nat 0%nat 110%nat (Edge.make 10) w).
  - vm_compute. lia.
  - reflexivity.
  - reflexivity.
Defined.

(** * More about the executor *)

Section SortFacts.
Import ThreadPoolExecutor.
Variables (key : nat → Z) (less : nat → nat → bool).
Hypothesis Hless : ∀ a b, less a b = bool_decide (key a < key b).

Local Abbreviation ascending := (StronglySorted (λ a b, key a ≤ key b)).

Lemma insert_sorted_perm x l : insert_sorted less x l ≡ₚ x :: l.
Proof.
  induction l as [|y l IH]; simpl; [done|].
  destruct (less x y); [done|]. rewrite IH. apply Permutation_swap.
Qed.

Lemma sort_perm l : sort less l ≡ₚ l.
Proof.
  unfold sort. assert (∀ acc, foldl (λ acc x, insert_sorted less x acc) acc l ≡ₚ acc ++ l)
    as Hfold; [|apply (Hfold [])].
  induction l as [|x l IH]; intros acc; simpl; [by rewrite app_nil_r|].
  rewrite IH, insert_sorted_perm. simpl. apply Permutation_middle.
Qed.

Lemma insert_sorted_ascending x l :
  ascending l → ascending (insert_sorted less x l).
Proof.
  induction 1 as [|y l Hl IH Hy]; simpl.
  - by repeat constructor.
  - rewrite Hless. case_bool_decide as Hxy.
    + constructor; [by constructor|]. constructor; [lia|].
      eapply Forall_impl; [exact Hy|]. intros z Hz. simpl in *. lia.
    + constructor; [done|]. rewrite insert_sorted_perm.
      constructor; [lia|done].
Qed.

Lemma sort_ascending l : ascending (sort less l).
Proof.
  unfold sort.
  assert (∀ acc, ascending acc →
                 ascending (foldl (λ acc x, insert_sorted less x acc) acc l))
    as Hfold; [|apply Hfold; constructor].
  induction l as [|x l IH]; intros acc Hacc; simpl; [done|].
  by apply IH, insert_sorted_ascending.
Qed.

Lemma ascending_lookup l i j a b :
  ascending l → l !! i = Some a → l !! j = Some b → (i < j)%nat →
  key a ≤ key b.
Proof.
  intros Hl. revert i j. induction Hl as [|x l Hl IH Hx]; intros i j Hi Hj Hlt.
  - done.
  - destruct j as [|j]; [lia|]. simpl in Hj. destruct i as [|i]; simpl in Hi.
    + inversion Hi; subst.
      rewrite Forall_forall in Hx. apply Hx.
      by eapply list_elem_of_lookup_2.
    + apply (IH i j); [done..|lia].
Qed.
End SortFacts.

Section ExecutorStart.
Import MachineInt Task ThreadPoolExecutor.
Context {V : Type} `{ValueInit V}.
Variable table : gmap nat (Task.t V).
Implicit Types (s : System V) (w : Task.World V) (wk : Worker).

Lemma submit_all_tasks tasks : ∀ p : ThreadPool.t nat,
  ThreadPool.tasks_ (submit_all tasks p) = ThreadPool.tasks_ p ++ tasks ∧
  ThreadPool.on_complete_ (submit_all tasks p) = ThreadPool.on_complete_ p ∧
  ThreadPool.thread_count_ (submit_all tasks p) = ThreadPool.thread_count_ p ∧
  ThreadPool.completions (submit_all tasks p) = ThreadPool.completions p.
Proof.
  unfold submit_all. induction tasks as [|task tasks IH]; intros p.
  - simpl. by rewrite app_nil_r.
  - cbn [foldl].
    destruct (IH (ThreadPool.add_task (ThreadPool.StdFunction (Some task)) p).2)
      as (-> & -> & -> & ->).
    simpl. by rewrite <- app_assoc.
Qed.

Lemma submit_all_count tasks : ∀ p : ThreadPool.t nat,
  INT_MIN ≤ ThreadPool.active_task_count_ p →
  ThreadPool.active_task_count_ p + Z.of_nat (length tasks) ≤ INT_MAX →
  ThreadPool.active_task_count_ (submit_all tasks p)
  = ThreadPool.active_task_count_ p + Z.of_nat (length tasks).
Proof.
  unfold submit_all. induction tasks as [|task tasks IH]; intros p Hmin Hmax.
  - simpl. lia.
  - cbn [foldl]. rewrite length_cons, Nat2Z.inj_succ in Hmax.
    assert (ThreadPool.active_task_count_
              (ThreadPool.add_task (ThreadPool.StdFunction (Some task)) p).2
            = ThreadPool.active_task_count_ p + 1) as Hadd.
    { simpl. unfold atomic_add. apply to_int_id. lia. }
    rewrite IH; rewrite Hadd; [|lia..].
    rewrite length_cons, Nat2Z.inj_succ. lia.
Qed.

(** What [run()] leaves behind. *)
Lemma run_start tasks w :
  Node.acyclic (graph_of table w) (Some <$> tasks) →
  ∃ fuel0, ∀ fuel hardware_concurrency, (fuel0 ≤ fuel)%nat →
    ∃ s0 r,
      run table fuel hardware_concurrency tasks w = Some s0 ∧
      world s0 = set_reachabilities r w ∧
      workers_ s0 = replicate hardware_concurrency Idle ∧
      ThreadPool.tasks_ (pool_ s0) ≡ₚ tasks ∧
      producers_first (graph_of table w) (ThreadPool.tasks_ (pool_ s0)) ∧
      ThreadPool.on_complete_ (pool_ s0) = false ∧
      ThreadPool.thread_count_ (pool_ s0) = hardware_concurrency ∧
      ThreadPool.completions (pool_ s0) = O ∧
      (Z.of_nat (length tasks) ≤ INT_MAX →
       ThreadPool.active_task_count_ (pool_ s0) = Z.of_nat (length tasks)).
Proof.
  intros Hdag.
  destruct (compute_reachability_orders _ _ Hdag) as [fuel0 Hfuel0].
  exists fuel0. intros fuel hc Hfuel.
  destruct (Hfuel0 fuel (reachability_ w) Hfuel) as (r & Hrun & Horder).
  set (g := graph_of table w) in *.
  set (q0 := sort (Node.lt g r) tasks).
  assert (q0 ≡ₚ tasks) as Hperm by apply sort_perm.
  destruct (submit_all_tasks q0 (ThreadPool.make hc false)) as (Hq & Hcb & Htc & Hfired).
  simpl in Hq, Hcb, Htc, Hfired.
  eexists. exists r. split; [unfold run; fold g; rewrite Hrun; reflexivity|].
  simpl. fold q0. rewrite Hq.
  do 3 (split; [done|]). split; [|split; [done|split; [done|split; [done|]]]].
  - intros i j p n Hi Hj Hprod.
    assert (Node.get_reachability g r p < Node.get_reachability g r n) as Hlt.
    { apply Horder; [|done]. exists n. split; [|apply rtc_refl].
      apply list_elem_of_fmap. exists n. split; [done|].
      rewrite <- Hperm. by eapply list_elem_of_lookup_2. }
    destruct (decide (i < j)%nat) as [|Hge]; [done|exfalso].
    destruct (decide (i = j)) as [->|Hne].
    + assert (p = n) as -> by congruence. lia.
    + assert (Node.get_reachability g r n ≤ Node.get_reachability g r p); [|lia].
      eapply (ascending_lookup (Node.get_reachability g r) q0 j i);
        [|done|done|lia].
      by apply (sort_ascending (Node.get_reachability g r)).
  - intros Hmax. rewrite submit_all_count; simpl.
    + by rewrite (Permutation_length Hperm).
    + unfold INT_MIN. lia.
    + by rewrite (Permutation_length Hperm).
Qed.

(** X11.  [ThreadPoolExecutor::run] on tasks from which no cycle is
    reachable returns, with enough fuel for the recursion of the pass.
    It leaves every worker idle and a queue that holds the submitted
    tasks, each as often as it was submitted, with every task that
    produces an input of another one ahead of it; the counter is the
    number of tasks; and only the reachabilities have changed in the
    world. *)
Theorem run_queues_producers_first tasks w :
  Node.acyclic (graph_of table w) (Some <$> tasks) →
  Z.of_nat (length tasks) ≤ INT_MAX →
  ∃ fuel0, ∀ fuel hardware_concurrency, (fuel0 ≤ fuel)%nat →
    ∃ s0,
      run table fuel hardware_concurrency tasks w = Some s0 ∧
      workers_ s0 = replicate hardware_concurrency Idle ∧
      ThreadPool.tasks_ (pool_ s0) ≡ₚ tasks ∧
      ThreadPool.active_task_count_ (pool_ s0) = Z.of_nat (length tasks) ∧
      (∀ i j p n,
         ThreadPool.tasks_ (pool_ s0) !! i = Some p →
         ThreadPool.tasks_ (pool_ s0) !! j = Some n →
         Node.producer (graph_of table w) n p → (i < j)%nat) ∧
      ∃ r, world s0 = set_reachabilities r w.
Proof.
  intros Hdag Hmax. destruct (run_start tasks w Hdag) as [fuel0 Hfuel0].
  exists fuel0. intros fuel hc Hfuel.
  destruct (Hfuel0 fuel hc Hfuel)
    as (s0 & r & Hrun & Hw & Hws & Hperm & Hfirst & _ & _ & _ & Hcount).
  exists s0. do 3 (split; [done|]). split; [by apply Hcount|].
  split; [done|]. by exists r.
Qed.
End ExecutorStart.

(** The diamond, submitted consumers first. *)
Lemma run_queues_producers_first_witness :
  ∃ fuel0, ∀ fuel hardware_concurrency, (fuel0 ≤ fuel)%nat →
    ∃ s0,
      ThreadPoolExecutor.run Scenario.diamond fuel hardware_concurrency
          Scenario.diamond_tasks (Scenario.fresh Scenario.diamond_edges) = Some s0 ∧
      ThreadPoolExecutor.workers_ s0
        = replicate hardware_concurrency ThreadPoolExecutor.Idle ∧
      ThreadPool.tasks_ (ThreadPoolExecutor.pool_ s0) ≡ₚ Scenario.diamond_tasks ∧
      ThreadPool.active_task_count_ (ThreadPoolExecutor.pool_ s0)
        = Z.of_nat (length Scenario.diamond_tasks) ∧
      (∀ i j p n,
         ThreadPool.tasks_ (ThreadPoolExecutor.pool_ s0) !! i = Some p →
         ThreadPool.tasks_ (ThreadPoolExecutor.pool_ s0) !! j = Some n →
         Node.producer Scenario.diamond_graph n p → (i < j)%nat) ∧
      ∃ r, ThreadPoolExecutor.world s0
           = Task.set_reachabilities r (Scenario.fresh Scenario.diamond_edges).
Proof.
  apply (run_queues_producers_first Scenario.diamond Scenario.diamond_tasks
           (Scenario.fresh Scenario.diamond_edges)).
  - apply (check_acyclic_sound 3). vm_compute. reflexivity.
  - vm_compute. discriminate.
Defined.

Section ExecutorWork.
Import MachineInt Task ThreadPoolExecutor.
Context {V : Type} `{ValueInit V}.
Variable table : gmap nat (Task.t V).
Implicit Types (s : System V) (w : Task.World V) (wk : Worker).

Local Abbreviation cost := (ThreadPoolExecutor.cost table).
Local Abbreviation remaining := (ThreadPoolExecutor.remaining table).
Local Abbreviation work := (ThreadPoolExecutor.work table).
Local Abbreviation in_range := (ThreadPoolExecutor.in_range table).

Lemma cost_ge n : (2 ≤ cost n)%nat.
Proof. unfold ThreadPoolExecutor.cost. destruct (table !! n); lia. Qed.

Lemma sum_list_insert {A} (f : A → nat) (l : list A) i x y :
  l !! i = Some x →
  (sum_list (f <$> <[i := y]> l) + f x = sum_list (f <$> l) + f y)%nat.
Proof.
  revert i. induction l as [|z l IH]; intros i Hi; [done|].
  destruct i as [|i]; csimpl in *.
  - inversion Hi; subst. lia.
  - specialize (IH i Hi). lia.
Qed.

Lemma step_work i s s' :
  Forall in_range (workers_ s) → step table i s = Some s' →
  work s = S (work s') ∧ Forall in_range (workers_ s').
Proof.
  intros Hrange Hstep.
  apply step_cases in Hstep
    as [(self & rest & Hwk & Hq & Hw & Hp & Hws)
       |[(self & pc & task & stmt & Hwk & Htask & Hpc & Hexec & Hp & Hws)
        |(self & pc & task & Hwk & Htask & Hpc & Hw & Hp & Hws)]].
  - (* a closure is popped *)
    assert (ThreadPool.tasks_ (pool_ s') = rest) as Hq'.
    { rewrite Hp. unfold ThreadPool.pop_task. by rewrite Hq. }
    pose proof (sum_list_insert remaining _ _ _ (Busy self O) Hwk) as Hsum.
    pose proof (cost_ge self) as Hcost.
    unfold ThreadPoolExecutor.work. rewrite Hws, Hq', Hq. csimpl in *. split; [lia|].
    apply Forall_insert; [done|]. simpl. lia.
  - (* a statement of [run()] *)
    pose proof (sum_list_insert remaining _ _ _ (Busy self (S pc)) Hwk) as Hsum.
    apply lookup_lt_Some in Hpc.
    assert (cost self = 2 + length (run_body task))%nat as Hcost
      by (unfold ThreadPoolExecutor.cost; by rewrite Htask).
    unfold ThreadPoolExecutor.work. rewrite Hws, Hp. csimpl in *. split; [lia|].
    apply Forall_insert; [done|]. simpl. lia.
  - (* the closure has returned *)
    pose proof (sum_list_insert remaining _ _ _ Idle Hwk) as Hsum.
    pose proof (Forall_lookup_1 _ _ _ _ Hrange Hwk) as Hin.
    apply lookup_ge_None in Hpc.
    assert (cost self = 2 + length (run_body task))%nat as Hcost
      by (unfold ThreadPoolExecutor.cost; by rewrite Htask).
    assert (ThreadPool.tasks_ (pool_ s') = ThreadPool.tasks_ (pool_ s)) as Hq'.
    { rewrite Hp. unfold ThreadPool.complete_task, ThreadPool.check_idle.
      by destruct (_ && _). }
    unfold ThreadPoolExecutor.work. rewrite Hws, Hq'. csimpl in *. split; [lia|].
    by apply Forall_insert.
Qed.

Lemma steps_work schedule : ∀ s s',
  Forall in_range (workers_ s) → steps table schedule s = Some s' →
  work s = (length schedule + work s')%nat ∧ Forall in_range (workers_ s').
Proof.
  induction schedule as [|i schedule IH]; intros s s' Hrange Hsteps; simpl in *.
  - by inversion Hsteps; subst.
  - destruct (step table i s) as [s1|] eqn:Hstep; [|done]. simpl in Hsteps.
    destruct (step_work i s s1 Hrange Hstep) as [Hwork Hrange1].
    destruct (IH s1 s' Hrange1 Hsteps) as [Hwork' Hrange'].
    split; [lia|done].
Qed.

Lemma sum_list_zero (l : list nat) : sum_list l = O → Forall (λ x, x = O) l.
Proof.
  induction l as [|x l IH]; simpl; intros Hsum; constructor; [lia|].
  apply IH. lia.
Qed.

Lemma remaining_idle (workers : list Worker) :
  Forall (λ wk, wk = Idle) workers → sum_list (remaining <$> workers) = O.
Proof. induction 1 as [|wk l -> _ IH]; csimpl; [done|]. by rewrite IH. Qed.

Lemma work_zero s :
  Forall in_range (workers_ s) → work s = O ↔ drained s.
Proof.
  intros Hrange. unfold ThreadPoolExecutor.work, drained, all_idle. split.
  - intros Hzero.
    assert (sum_list (cost <$> ThreadPool.tasks_ (pool_ s)) = O) as Hq by lia.
    assert (sum_list (remaining <$> workers_ s) = O) as Hws by lia.
    split.
    + apply sum_list_zero, Forall_fmap in Hws.
      apply Forall_forall. intros wk Hwk.
      rewrite Forall_forall in Hws, Hrange.
      specialize (Hws wk Hwk). specialize (Hrange wk Hwk).
      destruct wk as [|self pc]; [done|]. simpl in *. lia.
    + destruct (ThreadPool.tasks_ (pool_ s)) as [|n q]; [done|].
      simpl in Hq. pose proof (cost_ge n). lia.
  - intros [Hidle ->]. simpl. by apply remaining_idle.
Qed.

(** X12.  After [run()] every schedule of the workers is finite: each
    step of a worker (popping a closure, executing a statement of
    [Task::run], accounting for a finished closure) uses up one unit of
    the work that is left, which starts as the sum over the submitted
    tasks of their statements plus two; and the work is used up exactly
    when the queue is empty and every worker is idle. *)
Theorem run_terminates tasks w :
  Node.acyclic (graph_of table w) (Some <$> tasks) →
  ∃ fuel0, ∀ fuel hardware_concurrency, (fuel0 ≤ fuel)%nat →
    ∃ s0,
      run table fuel hardware_concurrency tasks w = Some s0 ∧
      ∀ schedule s, steps table schedule s0 = Some s →
        (length schedule + work s)%nat = sum_list (cost <$> tasks) ∧
        (work s = O ↔ drained s).
Proof.
  intros Hdag. destruct (run_start table tasks w Hdag) as [fuel0 Hfuel0].
  exists fuel0. intros fuel hc Hfuel.
  destruct (Hfuel0 fuel hc Hfuel) as (s0 & r & Hrun & Hw & Hws & Hperm & _).
  exists s0. split; [done|]. intros schedule s Hsteps.
  assert (Forall in_range (workers_ s0)) as Hrange0.
  { rewrite Hws. by apply Forall_replicate. }
  destruct (steps_work schedule s0 s Hrange0 Hsteps) as [Hwork Hrange].
  split; [|by apply work_zero].
  rewrite <- Hwork. unfold ThreadPoolExecutor.work. rewrite Hws, Hperm.
  rewrite remaining_idle by (by apply Forall_replicate). lia.
Qed.
End ExecutorWork.

(** The diamond: twenty-four steps in all. *)
Lemma run_terminates_witness :
  ∃ fuel0, ∀ fuel hardware_concurrency, (fuel0 ≤ fuel)%nat →
    ∃ s0,
      ThreadPoolExecutor.run Scenario.diamond fuel hardware_concurrency
          Scenario.diamond_tasks (Scenario.fresh Scenario.diamond_edges) = Some s0 ∧
      ∀ schedule s, ThreadPoolExecutor.steps Scenario.diamond schedule s0 = Some s →
        (length schedule + ThreadPoolExecutor.work Scenario.diamond s)%nat
          = sum_list (ThreadPoolExecutor.cost Scenario.diamond
                        <$> Scenario.diamond_tasks) ∧
        (ThreadPoolExecutor.work Scenario.diamond s = O ↔
           ThreadPoolExecutor.drained s).
Proof.
  apply (run_terminates Scenario.diamond Scenario.diamond_tasks
           (Scenario.fresh Scenario.diamond_edges)).
  apply (check_acyclic_sound 3). vm_compute. reflexivity.
Defined.

Section ExecutorProgress.
Import MachineInt Task ThreadPoolExecutor.
Context {V : Type} `{ValueInit V}.
Variable table : gmap nat (Task.t V).
Implicit Types (s : System V) (w : Task.World V) (wk : Worker) (task : Task.t V).

Local Abbreviation draining := (ThreadPoolExecutor.draining table).
Local Abbreviation closed := (ThreadPoolExecutor.closed table).

Lemma run_body_length task :
  length (run_body task) = (length (waits task) + 7)%nat.
Proof. unfold run_body. by rewrite length_app, length_fmap. Qed.

Lemma run_body_wait task pc :
  (pc < length (waits task))%nat →
  run_body task !! pc = WaitUntilRetrievable <$> waits task !! pc.
Proof.
  intros Hlt. unfold run_body.
  rewrite lookup_app_l by (by rewrite length_fmap). by rewrite list_lookup_fmap.
Qed.

Lemma run_body_after task k :
  run_body task !! (length (waits task) + k)%nat = after_waits !! k.
Proof.
  unfold run_body. rewrite lookup_app_r by (rewrite length_fmap; lia).
  rewrite length_fmap. f_equal. lia.
Qed.

Lemma exec_edges_dom task self stmt w w' e :
  exec task self stmt w = Some w' →
  is_Some (edges w !! e) → is_Some (edges w' !! e).
Proof.
  destruct stmt; simpl; intros Hexec He; simplify_option_eq; try done.
  - by destruct (return_void task).
  - apply lookup_insert_is_Some.
    destruct (decide (out_edge_ task = e)); [by left|by right].
Qed.

Lemma arguments_exist task w :
  (∀ e, e ∈ waits task → is_Some (edges w !! e)) → is_Some (arguments w task).
Proof.
  intros Hedges. unfold arguments. apply mapM_is_Some, Forall_forall.
  intros idx _. unfold get_inward_edge_value. simpl.
  destruct (in_edges_ task !! idx) as [[e|]|] eqn:Hidx; [|done..].
  destruct (Hedges e) as [edge ->]; [by eapply waits_elem|]. by eexists.
Qed.

(** Past the loop over the inward edges, no statement of [run()]
    blocks. *)
Lemma exec_after_waits task self stmt pc w :
  run_body task !! pc = Some stmt → (length (waits task) ≤ pc)%nat →
  (∀ e, e ∈ waits task → is_Some (edges w !! e)) →
  is_Some (edges w !! out_edge_ task) →
  is_Some (exec task self stmt w).
Proof.
  intros Hpc Hge Hedges [edge Hout].
  assert (∃ k, pc = (length (waits task) + k)%nat) as [k ->]
    by (exists (pc - length (waits task))%nat; lia).
  rewrite run_body_after in Hpc. unfold after_waits in Hpc.
  do 7 (destruct k as [|k];
        [inversion Hpc; subst; simpl;
         first [done
               |by destruct (arguments_exist task w Hedges) as [args ->]
               |by rewrite Hout]|]).
  done.
Qed.

Lemma step_workers_length i s s' :
  step table i s = Some s' → length (workers_ s') = length (workers_ s).
Proof.
  intros Hstep.
  apply step_cases in Hstep
    as [(self & rest & Hwk & Hq & Hw & Hp & Hws)
       |[(self & pc & task & stmt & Hwk & Htask & Hpc & Hexec & Hp & Hws)
        |(self & pc & task & Hwk & Htask & Hpc & Hw & Hp & Hws)]];
    rewrite Hws; apply length_insert.
Qed.

Lemma workers_cases (workers : list Worker) :
  Forall (λ wk, wk = Idle) workers ∨ ∃ i n pc, workers !! i = Some (Busy n pc).
Proof.
  induction workers as [|[|n pc] workers [IH|(i & n' & pc' & Hi)]].
  - by left.
  - left. by constructor.
  - right. by exists (S i), n', pc'.
  - right. by exists O, n, pc.
  - right. by exists O, n, pc.
Qed.

Section Draining.
Variables (q0 : list nat) (w0 : Task.World V).
Hypothesis Hclosed : closed q0 w0.
Hypothesis Hfirst : producers_first (graph_of table w0) q0.

Lemma draining_step i s s' :
  draining q0 w0 s → step table i s = Some s' → draining q0 w0 s'.
Proof.
  intros (popped & Hq0 & Hpopped & Hbusy & Hedges) Hstep.
  apply step_cases in Hstep
    as [(self & rest & Hwk & Hq & Hw & Hp & Hws)
       |[(self & pc & task & stmt & Hwk & Htask & Hpc & Hexec & Hp & Hws)
        |(self & pc & task & Hwk & Htask & Hpc & Hw & Hp & Hws)]].
  - (* a closure is popped *)
    assert (ThreadPool.tasks_ (pool_ s') = rest) as Hq'.
    { rewrite Hp. unfold ThreadPool.pop_task. by rewrite Hq. }
    exists (popped ++ [self]).
    split; [by rewrite Hq', Hq0, Hq, <- app_assoc|]. split; [|split].
    + intros n [Hn|Hn%list_elem_of_singleton]%elem_of_app.
      * destruct (Hpopped n Hn) as [(j & pc & Hj)|Hdone].
        -- left. exists j, pc. rewrite Hws, list_lookup_insert_ne; [done|].
           intros ->. congruence.
        -- right. by rewrite Hw.
      * subst n. left. exists i, O. rewrite Hws.
        apply list_lookup_insert_eq. by eapply lookup_lt_Some.
    + intros j n pc Hj. rewrite Hws in Hj.
      destruct (decide (j = i)) as [->|Hne].
      * rewrite list_lookup_insert_eq in Hj by (by eapply lookup_lt_Some).
        inversion Hj; subst. split.
        -- apply elem_of_app. right. by apply list_elem_of_singleton.
        -- intros task _ Hlt. lia.
      * rewrite list_lookup_insert_ne in Hj by done.
        destruct (Hbusy j n pc Hj) as [Hn Hl]. split.
        -- apply elem_of_app. by left.
        -- by rewrite Hw.
    + by rewrite Hw.
  - (* a statement of [run()] *)
    exists popped. split; [by rewrite Hp|]. split; [|split].
    + intros n Hn. destruct (Hpopped n Hn) as [(j & pc' & Hj)|(task' & Htask' & Hl)].
      * left. destruct (decide (j = i)) as [->|Hne].
        -- exists i, (S pc).
           rewrite Hws, list_lookup_insert_eq by (by eapply lookup_lt_Some).
           congruence.
        -- exists j, pc'. by rewrite Hws, list_lookup_insert_ne.
      * right. exists task'. split; [done|]. by eapply exec_latch.
    + intros j n pc' Hj. rewrite Hws in Hj.
      destruct (decide (j = i)) as [->|Hne].
      * rewrite list_lookup_insert_eq in Hj by (by eapply lookup_lt_Some).
        inversion Hj; subst n pc'.
        destruct (Hbusy i self pc Hwk) as [Hn Hl]. split; [done|].
        intros task' Htask' Hlt. assert (task' = task) as -> by congruence.
        destruct (decide (pc = length (waits task) + 4)%nat) as [->|Hother].
        -- rewrite run_body_after in Hpc. inversion Hpc; subst stmt.
           by eapply exec_out_edge_latched.
        -- eapply exec_latch; [done|]. apply Hl; [done|lia].
      * rewrite list_lookup_insert_ne in Hj by done.
        destruct (Hbusy j n pc' Hj) as [Hn Hl]. split; [done|].
        intros task' Htask' Hlt. eapply exec_latch; [done|]. by apply Hl.
    + intros e He. eapply exec_edges_dom; [done|]. by apply Hedges.
  - (* the closure has returned *)
    assert (ThreadPool.tasks_ (pool_ s') = ThreadPool.tasks_ (pool_ s)) as Hq'.
    { rewrite Hp. unfold ThreadPool.complete_task, ThreadPool.check_idle.
      by destruct (_ && _). }
    exists popped. split; [by rewrite Hq'|]. split; [|split].
    + intros n Hn. destruct (Hpopped n Hn) as [(j & pc' & Hj)|Hdone].
      * destruct (decide (j = i)) as [->|Hne].
        -- right. assert (n = self ∧ pc' = pc) as [-> ->] by (split; congruence).
           exists task. split; [done|]. rewrite Hw.
           destruct (Hbusy i self pc Hwk) as [_ Hl]. apply Hl; [done|].
           apply lookup_ge_None in Hpc. rewrite run_body_length in Hpc. lia.
        -- left. exists j, pc'. by rewrite Hws, list_lookup_insert_ne.
      * right. by rewrite Hw.
    + intros j n pc' Hj. rewrite Hws in Hj.
      destruct (decide (j = i)) as [->|Hne].
      * by rewrite list_lookup_insert_eq in Hj by (by eapply lookup_lt_Some).
      * rewrite list_lookup_insert_ne in Hj by done. rewrite Hw.
        apply (Hbusy j n pc' Hj).
    + by rewrite Hw.
Qed.

Lemma draining_progress s :
  draining q0 w0 s → workers_ s ≠ [] →
  drained s ∨ ∃ i s', step table i s = Some s'.
Proof.
  intros (popped & Hq0 & Hpopped & Hbusy & Hedges) Hworkers.
  assert (∀ idx n, popped !! idx = Some n →
            ∀ i pc, workers_ s !! i = Some (Busy n pc) →
              ∃ j s', step table j s = Some s') as Hchase.
  { intros idx. induction idx as [idx IH] using lt_wf_ind.
    intros n Hidx i pc Hwk.
    assert (q0 !! idx = Some n) as Hidx0
      by (rewrite Hq0; by apply lookup_app_l_Some).
    destruct (Hclosed n) as (task & Htask & Hout & Hin);
      [by eapply list_elem_of_lookup_2|].
    assert (∀ e, e ∈ waits task → is_Some (edges (world s) !! e)) as Hexist.
    { intros e He. destruct (Hin e He) as (p & producer & edge & _ & _ & _ & Hedge & _).
      apply Hedges. by rewrite Hedge. }
    destruct (run_body task !! pc) as [stmt|] eqn:Hpc.
    2:{ exists i. eexists. unfold step. rewrite Hwk, Htask. simpl. by rewrite Hpc. }
    assert (is_Some (exec task n stmt (world s)) →
            ∃ j s', step table j s = Some s') as Hexec.
    { intros [w' Hw']. exists i. eexists. unfold step. rewrite Hwk, Htask. simpl.
      rewrite Hpc, Hw'. done. }
    destruct (decide (length (waits task) ≤ pc)%nat) as [Hge|Hlt].
    { apply Hexec. apply (exec_after_waits task n stmt pc); [done..|].
      by apply Hedges. }
    rewrite run_body_wait in Hpc by lia.
    destruct (waits task !! pc) as [e|] eqn:He; [|done].
    inversion Hpc; subst stmt; clear Hpc.
    destruct (Hin e) as (p & producer & edge & Hp & Hproducer & Hown & Hedge & Howner);
      [by eapply list_elem_of_lookup_2|].
    assert (Node.producer (graph_of table w0) n p) as Hprod.
    { exists (in_edges_ task), e. simpl. rewrite !lookup_fmap, Htask, Hedge. simpl.
      split; [done|]. split; [|by rewrite Howner].
      apply list_elem_of_lookup_2 in He. unfold waits in He.
      apply list_elem_of_omap in He as (x & Hx & Hsome). simpl in Hsome. by subst x. }
    apply list_elem_of_lookup in Hp as [ip Hip].
    pose proof (Hfirst ip idx p n Hip Hidx0 Hprod) as Hless.
    assert (popped !! ip = Some p) as Hip'.
    { rewrite Hq0 in Hip. rewrite lookup_app_l in Hip; [done|].
      apply lookup_lt_Some in Hidx. lia. }
    destruct (Hpopped p) as [(j & pc' & Hj)|(producer' & Hproducer' & Hlatched)];
      [by eapply list_elem_of_lookup_2|..].
    - by apply (IH ip Hless p Hip' j pc').
    - assert (producer' = producer) as -> by congruence.
      apply Hexec. simpl. rewrite Hown in Hlatched.
      unfold is_retrievable in Hlatched.
      destruct (edges (world s) !! e) as [edge'|]; [|done]. simpl.
      unfold Edge.wait_until_retrievable. unfold Edge.is_retrievable in Hlatched.
      by rewrite Hlatched. }
  destruct (workers_cases (workers_ s)) as [Hidle|(i & n & pc & Hwk)].
  - destruct (ThreadPool.tasks_ (pool_ s)) as [|self rest] eqn:Hq; [by left|].
    right. destruct (workers_ s) as [|wk workers] eqn:Hws; [done|].
    inversion Hidle; subst.
    exists O. eexists. unfold step, ThreadPool.pop_task. rewrite Hws, Hq. done.
  - right. destruct (Hbusy i n pc Hwk) as [Hn _].
    apply list_elem_of_lookup in Hn as [idx Hidx].
    by apply (Hchase idx n Hidx i pc).
Qed.
End Draining.

Lemma closed_perm tasks tasks' w :
  tasks ≡ₚ tasks' → closed tasks w → closed tasks' w.
Proof.
  intros Hperm Hclosed n Hn. rewrite <- Hperm in Hn.
  destruct (Hclosed n Hn) as (task & Htask & Hout & Hin).
  exists task. do 2 (split; [done|]). intros e He.
  destruct (Hin e He) as (p & producer & edge & Hp & Hrest).
  exists p, producer, edge. by rewrite <- Hperm.
Qed.

Lemma check_closed_sound tasks w :
  check_closed table tasks w = true → closed tasks w.
Proof.
  unfold check_closed. intros Hcheck n Hn.
  rewrite forallb_forall in Hcheck.
  specialize (Hcheck n ltac:(by apply list_elem_of_In)).
  destruct (table !! n) as [task|]; [|done]. exists task. split; [done|].
  apply andb_prop in Hcheck as [Hout Hin]. split; [by apply bool_decide_eq_true_1 in Hout|].
  intros e He. rewrite forallb_forall in Hin.
  specialize (Hin e ltac:(by apply list_elem_of_In)).
  apply existsb_exists in Hin as (p & Hp & Hcheckp).
  destruct (table !! p) as [producer|] eqn:Hproducer; [|done].
  destruct (edges w !! e) as [edge|] eqn:Hedge; [|done].
  apply andb_prop in Hcheckp as [Hown Howner].
  exists p, producer, edge. split; [by apply list_elem_of_In|]. split; [done|].
  split; [by apply bool_decide_eq_true_1 in Hown|]. split; [done|].
  by apply bool_decide_eq_true_1 in Howner.
Qed.

(** X13.  The executor does not deadlock.  On tasks that are closed
    under their inputs and from which no cycle is reachable, with at
    least one worker: [run()] returns, and in every state that the
    workers can reach, whatever the schedule and however few the
    workers, either the queue is empty and every worker is idle, or
    some worker can take a step. *)
Theorem run_never_deadlocks tasks w :
  closed tasks w →
  Node.acyclic (graph_of table w) (Some <$> tasks) →
  ∃ fuel0, ∀ fuel hardware_concurrency,
    (fuel0 ≤ fuel)%nat → (1 ≤ hardware_concurrency)%nat →
    ∃ s0,
      run table fuel hardware_concurrency tasks w = Some s0 ∧
      ∀ s, reachable table s0 s →
        drained s ∨ ∃ i s', step table i s = Some s'.
Proof.
  intros Hclosed Hdag. destruct (run_start table tasks w Hdag) as [fuel0 Hfuel0].
  exists fuel0. intros fuel hc Hfuel Hhc.
  destruct (Hfuel0 fuel hc Hfuel) as (s0 & r & Hrun & Hw & Hws & Hperm & Hfirst & _).
  exists s0. split; [done|]. intros s Hreach.
  set (q0 := ThreadPool.tasks_ (pool_ s0)) in *.
  assert (closed q0 w) as Hclosed0 by (by apply (closed_perm tasks)).
  assert (draining q0 w s ∧ length (workers_ s) = hc) as [Hdrain Hlen].
  { apply (reachable_ind table
             (λ s', draining q0 w s' ∧ length (workers_ s') = hc) s0 s Hreach).
    - split; [|by rewrite Hws, length_replicate].
      exists []. split; [done|]. split; [intros n Hn; by inversion Hn|].
      split; [|by rewrite Hw].
      intros i n pc Hi. rewrite Hws in Hi.
      by apply lookup_replicate in Hi as [? _].
    - intros s1 i s2 [Hdrain1 Hlen1] Hstep. split.
      + by eapply draining_step.
      + by rewrite (step_workers_length _ _ _ Hstep). }
  apply (draining_progress q0 w Hclosed0 Hfirst s Hdrain).
  destruct (workers_ s); [simpl in Hlen; lia|done].
Qed.
End ExecutorProgress.

(** The diamond on any number of workers. *)
Lemma run_never_deadlocks_witness :
  ∃ fuel0, ∀ fuel hardware_concurrency,
    (fuel0 ≤ fuel)%nat → (1 ≤ hardware_concurrency)%nat →
    ∃ s0,
      ThreadPoolExecutor.run Scenario.diamond fuel hardware_concurrency
          Scenario.diamond_tasks (Scenario.fresh Scenario.diamond_edges) = Some s0 ∧
      ∀ s, ThreadPoolExecutor.reachable Scenario.diamond s0 s →
        ThreadPoolExecutor.drained s ∨
        ∃ i s', ThreadPoolExecutor.step Scenario.diamond i s = Some s'.
Proof.
  apply (run_never_deadlocks Scenario.diamond Scenario.diamond_tasks
           (Scenario.fresh Scenario.diamond_edges)).
  - apply check_closed_sound. vm_compute. reflexivity.
  - apply (check_acyclic_sound 3). vm_compute. reflexivity.
Defined.

Section ExecutorDone.
Import MachineInt Task ThreadPoolExecutor.
Context {V : Type} `{ValueInit V}.
Variable table : gmap nat (Task.t V).
Implicit Types (s : System V) (w : Task.World V) (wk : Worker) (task : Task.t V).

Local Abbreviation pending := (ThreadPoolExecutor.pending table).
Local Abbreviation worker_completed := (ThreadPoolExecutor.worker_completed table).

Lemma omap_insert_perm {A B} (f : A → option B) (l : list A) i x y :
  l !! i = Some x →
  omap f (<[i := y]> l) ++ option_list (f x) ≡ₚ omap f l ++ option_list (f y).
Proof.
  revert i. induction l as [|z l IH]; intros i Hi; [done|].
  destruct i as [|i]; csimpl in *.
  - inversion Hi; subst. destruct (f x), (f y); csimpl; try done.
    + rewrite !(comm (++) _ [_]). simpl. apply Permutation_swap.
    + by rewrite app_nil_r, <- Permutation_cons_append.
    + by rewrite app_nil_r, <- Permutation_cons_append.
  - specialize (IH i Hi). destruct (f z); csimpl; by rewrite IH.
Qed.

Lemma running_elem (workers : list Worker) n :
  n ∈ omap running workers ↔ ∃ i pc, workers !! i = Some (Busy n pc).
Proof.
  rewrite list_elem_of_omap. split.
  - intros ([|m pc] & Hin & Hsome); [done|]. simpl in Hsome.
    inversion Hsome; subst. apply list_elem_of_lookup in Hin as [i Hi].
    by exists i, pc.
  - intros (i & pc & Hi). exists (Busy n pc).
    split; [by eapply list_elem_of_lookup_2|done].
Qed.

Lemma running_inj (workers : list Worker) i j n pc pc' :
  NoDup (omap running workers) →
  workers !! i = Some (Busy n pc) → workers !! j = Some (Busy n pc') → i = j.
Proof.
  revert i j. induction workers as [|wk workers IH]; intros i j Hnd Hi Hj; [done|].
  destruct wk as [|m pcm]; csimpl in Hnd.
  - destruct i, j; simpl in *; try done. f_equal. by eapply IH.
  - apply NoDup_cons in Hnd as [Hm Hnd].
    destruct i as [|i], j as [|j]; simpl in *; try done.
    + inversion Hi; subst. exfalso. apply Hm, running_elem. by exists j, pc'.
    + inversion Hj; subst. exfalso. apply Hm, running_elem. by exists i, pc.
    + f_equal. by eapply IH.
Qed.

Lemma busy_count_idle (workers : list Worker) :
  busy_count workers = O ↔ Forall (λ wk, wk = Idle) workers.
Proof.
  induction workers as [|[|n pc] workers IH]; simpl.
  - split; [by constructor|done].
  - rewrite IH. split; [by constructor|by inversion 1].
  - split; [done|by inversion 1].
Qed.

Lemma outstanding_zero s : outstanding s = O ↔ drained s.
Proof.
  unfold outstanding, drained, all_idle. rewrite <- busy_count_idle.
  destruct (ThreadPool.tasks_ (pool_ s)); simpl; split; try lia; try (by intros [? ?]).
  intros ?. split; [lia|done].
Qed.

(** The counter is the number of closures queued or running. *)
Lemma step_outstanding i s s' :
  ThreadPool.active_task_count_ (pool_ s) = Z.of_nat (outstanding s) →
  Z.of_nat (outstanding s) ≤ INT_MAX →
  step table i s = Some s' →
  ThreadPool.active_task_count_ (pool_ s') = Z.of_nat (outstanding s') ∧
  Z.of_nat (outstanding s') ≤ INT_MAX.
Proof.
  intros Hcount Hmax Hstep.
  apply step_cases in Hstep
    as [(self & rest & Hwk & Hq & Hw & Hp & Hws)
       |[(self & pc & task & stmt & Hwk & Htask & Hpc & Hexec & Hp & Hws)
        |(self & pc & task & Hwk & Htask & Hpc & Hw & Hp & Hws)]].
  - pose proof (busy_count_insert _ _ _ (Busy self O) Hwk) as Hbusy.
    simpl in Hbusy.
    assert (ThreadPool.tasks_ (pool_ s') = rest ∧
            ThreadPool.active_task_count_ (pool_ s')
              = ThreadPool.active_task_count_ (pool_ s)) as [Hq' Hc'].
    { rewrite Hp. unfold ThreadPool.pop_task. by rewrite Hq. }
    unfold outstanding in *. rewrite Hws, Hq', Hc'. rewrite Hq in *.
    simpl in *. lia.
  - pose proof (busy_count_insert _ _ _ (Busy self (S pc)) Hwk) as Hbusy.
    simpl in Hbusy. unfold outstanding in *. rewrite Hp, Hws. lia.
  - pose proof (busy_count_insert _ _ _ Idle Hwk) as Hbusy.
    simpl in Hbusy.
    assert (ThreadPool.tasks_ (pool_ s') = ThreadPool.tasks_ (pool_ s) ∧
            ThreadPool.active_task_count_ (pool_ s')
              = ThreadPool.active_task_count_ (pool_ s) - 1) as [Hq' Hc'].
    { rewrite Hp. unfold ThreadPool.complete_task, ThreadPool.check_idle,
        ThreadPool.decrement. simpl.
      assert (atomic_sub (ThreadPool.active_task_count_ (pool_ s)) 1
              = ThreadPool.active_task_count_ (pool_ s) - 1) as ->.
      { unfold atomic_sub. apply to_int_id. unfold outstanding in *.
        unfold INT_MIN. lia. }
      by destruct (_ && _). }
    unfold outstanding in *. rewrite Hws, Hq', Hc'. lia.
Qed.

Lemma exec_invoked_eq task self stmt w w' :
  exec task self stmt w = Some w' →
  invoked w' = if decide (stmt = Invoke) then self :: invoked w else invoked w.
Proof.
  destruct stmt; simpl; intros Hexec; simplify_option_eq; try done.
  by destruct (return_void task).
Qed.

Lemma run_body_invoke task pc :
  run_body task !! pc = Some Invoke ↔ pc = (length (waits task) + 2)%nat.
Proof.
  split.
  - intros Hpc. apply run_body_lookup in Hpc as (nw & -> & Hstmt).
    destruct Hstmt as [(e & _ & ?)|[[? ?]|[[? ?]|[[? ?]|
                      [[? ?]|[[? ?]|[[? ?]|[? ?]]]]]]]]; try done. lia.
  - intros ->. by rewrite run_body_after.
Qed.

(** Every closure is on its way to exactly one invocation: the log, the
    workers that have not yet invoked and the queue make up the
    submitted tasks. *)
Lemma step_invocations i s s' :
  step table i s = Some s' →
  invoked (world s') ++ omap pending (workers_ s') ++ ThreadPool.tasks_ (pool_ s')
  ≡ₚ invoked (world s) ++ omap pending (workers_ s) ++ ThreadPool.tasks_ (pool_ s).
Proof.
  intros Hstep.
  apply step_cases in Hstep
    as [(self & rest & Hwk & Hq & Hw & Hp & Hws)
       |[(self & pc & task & stmt & Hwk & Htask & Hpc & Hexec & Hp & Hws)
        |(self & pc & task & Hwk & Htask & Hpc & Hw & Hp & Hws)]].
  - assert (ThreadPool.tasks_ (pool_ s') = rest) as Hq'.
    { rewrite Hp. unfold ThreadPool.pop_task. by rewrite Hq. }
    pose proof (omap_insert_perm pending _ _ _ (Busy self O) Hwk) as Hperm.
    assert (pending (Busy self O) = Some self) as Hself.
    { unfold ThreadPoolExecutor.pending. destruct (table !! self); [|done].
      apply decide_True. lia. }
    rewrite Hself in Hperm. simpl in Hperm. rewrite app_nil_r in Hperm.
    rewrite Hw, Hws, Hq', Hq, Hperm, <- app_assoc. done.
  - pose proof (omap_insert_perm pending _ _ _ (Busy self (S pc)) Hwk) as Hperm.
    rewrite (exec_invoked_eq _ _ _ _ _ Hexec), Hws, Hp.
    simpl in Hperm. rewrite Htask in Hperm.
    destruct (decide (stmt = Invoke)) as [->|Hother].
    + apply run_body_invoke in Hpc as ->.
      rewrite decide_True in Hperm by lia. rewrite decide_False in Hperm by lia.
      simpl in Hperm. rewrite app_nil_r in Hperm. rewrite <- Hperm.
      rewrite <- !app_assoc. simpl. rewrite !app_assoc. apply Permutation_middle.
    + assert (pc ≠ length (waits task) + 2)%nat as Hpc'.
      { intros ->. rewrite run_body_after in Hpc. by inversion Hpc. }
      destruct (decide (pc ≤ 2 + length (waits task))%nat).
      * rewrite !decide_True in Hperm by lia. simpl in Hperm.
        apply Permutation_app_inv_r in Hperm. by rewrite Hperm.
      * rewrite !decide_False in Hperm by lia. simpl in Hperm.
        rewrite !app_nil_r in Hperm. by rewrite Hperm.
  - assert (ThreadPool.tasks_ (pool_ s') = ThreadPool.tasks_ (pool_ s)) as Hq'.
    { rewrite Hp. unfold ThreadPool.complete_task, ThreadPool.check_idle.
      by destruct (_ && _). }
    pose proof (omap_insert_perm pending _ _ _ Idle Hwk) as Hperm.
    simpl in Hperm. rewrite Htask in Hperm.
    apply lookup_ge_None in Hpc. rewrite run_body_length in Hpc.
    rewrite decide_False in Hperm by lia. simpl in Hperm.
    rewrite !app_nil_r in Hperm. by rewrite Hw, Hws, Hq', Hperm.
Qed.

(** With every task submitted once: no two workers are in the same
    task, a worker past the last store of the state has left its task
    [Complete], and a submitted task is queued, in a worker or
    [Complete]. *)
Lemma step_completed (tasks : list nat) i s s' :
  NoDup (omap running (workers_ s) ++ ThreadPool.tasks_ (pool_ s)) →
  Forall (worker_completed (world s)) (workers_ s) →
  (∀ n, n ∈ tasks →
     n ∈ ThreadPool.tasks_ (pool_ s) ∨ n ∈ omap running (workers_ s) ∨
     get_state (world s) n = Complete) →
  step table i s = Some s' →
  NoDup (omap running (workers_ s') ++ ThreadPool.tasks_ (pool_ s')) ∧
  Forall (worker_completed (world s')) (workers_ s') ∧
  (∀ n, n ∈ tasks →
     n ∈ ThreadPool.tasks_ (pool_ s') ∨ n ∈ omap running (workers_ s') ∨
     get_state (world s') n = Complete).
Proof.
  intros Hnd Hworkers Hall Hstep.
  apply step_cases in Hstep
    as [(self & rest & Hwk & Hq & Hw & Hp & Hws)
       |[(self & pc & task & stmt & Hwk & Htask & Hpc & Hexec & Hp & Hws)
        |(self & pc & task & Hwk & Htask & Hpc & Hw & Hp & Hws)]].
  - (* a closure is popped *)
    assert (ThreadPool.tasks_ (pool_ s') = rest) as Hq'.
    { rewrite Hp. unfold ThreadPool.pop_task. by rewrite Hq. }
    pose proof (omap_insert_perm running _ _ _ (Busy self O) Hwk) as Hperm.
    simpl in Hperm. rewrite app_nil_r in Hperm.
    rewrite Hw, Hws, Hq', Hperm. rewrite Hq in Hnd, Hall.
    split; [by rewrite <- app_assoc|]. split.
    + apply Forall_insert; [done|]. intros task _ Hlt. lia.
    + intros n Hn. rewrite Hperm. destruct (Hall n Hn) as [Hin|[Hin|Hdone]].
      * apply elem_of_cons in Hin as [->|Hin]; [|by left].
        right; left. apply elem_of_app. right. by apply list_elem_of_singleton.
      * right; left. apply elem_of_app. by left.
      * by right; right.
  - (* a statement of [run()] *)
    pose proof (omap_insert_perm running _ _ _ (Busy self (S pc)) Hwk) as Hperm.
    simpl in Hperm. apply Permutation_app_inv_r in Hperm.
    rewrite Hws, Hp, Hperm. split; [done|]. split; [|setoid_rewrite Hperm].
    + apply Forall_insert.
      * apply Forall_lookup. intros j wk Hj.
        pose proof (Forall_lookup_1 _ _ _ _ Hworkers Hj) as Hold.
        destruct wk as [|n pc']; [done|]. intros task' Htask' Hlt.
        destruct (decide (n = self)) as [->|Hne];
          [|rewrite (exec_state _ _ _ _ _ n Hexec) by done;
            exact (Hold task' Htask' Hlt)].
        apply NoDup_app in Hnd as (Hnd & _ & _).
        pose proof (running_inj _ _ _ _ _ _ Hnd Hj Hwk) as ->.
        assert (pc' = pc) as -> by congruence.
        assert (task' = task) as -> by congruence.
        assert (pc = length (waits task) + 6)%nat as ->.
        { apply lookup_lt_Some in Hpc. rewrite run_body_length in Hpc. lia. }
        rewrite run_body_after in Hpc. inversion Hpc; subst stmt.
        rewrite (exec_state_self _ _ _ _ _ Hexec).
        exact (Hold task Htask' Hlt).
      * intros task' Htask' Hlt. assert (task' = task) as -> by congruence.
        rewrite (exec_state_self _ _ _ _ _ Hexec).
        destruct (decide (pc = length (waits task) + 5)%nat) as [->|Hother].
        -- rewrite run_body_after in Hpc. by inversion Hpc.
        -- assert (pc = length (waits task) + 6)%nat as ->.
           { apply lookup_lt_Some in Hpc. rewrite run_body_length in Hpc. lia. }
           rewrite run_body_after in Hpc. inversion Hpc; subst stmt.
           apply (Forall_lookup_1 _ _ _ _ Hworkers Hwk task Htask). lia.
    + intros n Hn. destruct (Hall n Hn) as [Hin|[Hin|Hdone]].
      * by left.
      * by right; left.
      * destruct (decide (n = self)) as [->|Hne].
        -- right; left. apply running_elem. by exists i, pc.
        -- right; right. by rewrite (exec_state _ _ _ _ _ n Hexec).
  - (* the closure has returned *)
    assert (ThreadPool.tasks_ (pool_ s') = ThreadPool.tasks_ (pool_ s)) as Hq'.
    { rewrite Hp. unfold ThreadPool.complete_task, ThreadPool.check_idle.
      by destruct (_ && _). }
    pose proof (omap_insert_perm running _ _ _ Idle Hwk) as Hperm.
    simpl in Hperm. rewrite app_nil_r in Hperm.
    rewrite Hw, Hws, Hq'. rewrite <- Hperm in Hnd. setoid_rewrite <- Hperm in Hall.
    split; [|split].
    + rewrite <- app_assoc in Hnd. apply NoDup_app in Hnd as (Hnd1 & Hdisj & Hnd2).
      apply NoDup_app. split; [done|]. split.
      * intros x Hx Hx'. apply (Hdisj x Hx). by right.
      * by apply NoDup_cons in Hnd2 as [_ ?].
    + by apply Forall_insert.
    + intros n Hn. destruct (Hall n Hn) as [Hin|[Hin|Hdone]].
      * by left.
      * apply elem_of_app in Hin as [Hin|Hin%list_elem_of_singleton]; [by right; left|].
        subst n. right; right.
        apply (Forall_lookup_1 _ _ _ _ Hworkers Hwk task Htask).
        apply lookup_ge_None in Hpc. rewrite run_body_length in Hpc. lia.
      * by right; right.
Qed.

(** X14.  After [run()] on tasks that were each submitted once,
    [wait()] returns exactly in the states where the queue is empty and
    every worker is idle; and whenever it returns, whatever the
    schedule was, the callable of every submitted task has been invoked
    exactly once and every submitted task is [Complete]. *)
Theorem wait_returns_when_done tasks w :
  Node.acyclic (graph_of table w) (Some <$> tasks) →
  Z.of_nat (length tasks) ≤ INT_MAX →
  NoDup tasks →
  ∃ fuel0, ∀ fuel hardware_concurrency, (fuel0 ≤ fuel)%nat →
    ∃ s0,
      run table fuel hardware_concurrency tasks w = Some s0 ∧
      ∀ s, reachable table s0 s →
        (wait_returns s ↔ drained s) ∧
        (wait_returns s →
           invoked (world s) ≡ₚ tasks ++ invoked w ∧
           ∀ n, n ∈ tasks → get_state (world s) n = Complete).
Proof.
  intros Hdag Hmax Hnodup. destruct (run_start table tasks w Hdag) as [fuel0 Hfuel0].
  exists fuel0. intros fuel hc Hfuel.
  destruct (Hfuel0 fuel hc Hfuel)
    as (s0 & r & Hrun & Hw & Hws & Hperm & _ & _ & _ & _ & Hcount).
  specialize (Hcount Hmax).
  exists s0. split; [done|]. intros s Hreach.
  assert (omap pending (workers_ s0) = [] ∧ omap running (workers_ s0) = []
          ∧ busy_count (workers_ s0) = O) as (Hpending0 & Hrunning0 & Hbusy0).
  { rewrite Hws. clear. induction hc as [|hc (? & ? & ?)]; csimpl; done. }
  assert ((ThreadPool.active_task_count_ (pool_ s) = Z.of_nat (outstanding s) ∧
           Z.of_nat (outstanding s) ≤ INT_MAX) ∧
          invoked (world s) ++ omap pending (workers_ s)
            ++ ThreadPool.tasks_ (pool_ s) ≡ₚ tasks ++ invoked w ∧
          (NoDup (omap running (workers_ s) ++ ThreadPool.tasks_ (pool_ s)) ∧
           Forall (worker_completed (world s)) (workers_ s) ∧
           (∀ n, n ∈ tasks →
              n ∈ ThreadPool.tasks_ (pool_ s) ∨ n ∈ omap running (workers_ s) ∨
              get_state (world s) n = Complete)))
    as ([Hc _] & Hlog & (_ & _ & Hall)).
  { apply (reachable_ind table
             (λ s, (ThreadPool.active_task_count_ (pool_ s) = Z.of_nat (outstanding s) ∧
                    Z.of_nat (outstanding s) ≤ INT_MAX) ∧
                   invoked (world s) ++ omap pending (workers_ s)
                     ++ ThreadPool.tasks_ (pool_ s) ≡ₚ tasks ++ invoked w ∧
                   (NoDup (omap running (workers_ s) ++ ThreadPool.tasks_ (pool_ s)) ∧
                    Forall (worker_completed (world s)) (workers_ s) ∧
                    (∀ n, n ∈ tasks →
                       n ∈ ThreadPool.tasks_ (pool_ s) ∨ n ∈ omap running (workers_ s) ∨
                       get_state (world s) n = Complete))) s0 s Hreach).
    - unfold outstanding. rewrite Hpending0, Hrunning0, Hbusy0, Hw, Hcount. simpl.
      rewrite Nat.add_0_r, (Permutation_length Hperm), Hperm.
      split; [by split|]. split; [apply Permutation_app_comm|].
      split; [done|]. split.
      + rewrite Hws. by apply Forall_replicate.
      + intros n Hn. left. by rewrite Hperm.
    - intros s1 i s2 ([Hc1 Hm1] & Hlog1 & (Hnd1 & Hws1 & Hall1)) Hstep.
      split; [by eapply step_outstanding|].
      split; [by rewrite (step_invocations _ _ _ Hstep)|].
      by eapply step_completed. }
  assert (wait_returns s ↔ drained s) as Hidle.
  { unfold wait_returns, ThreadPool.wait_returns, ThreadPool.is_idle.
    rewrite <- outstanding_zero, bool_decide_eq_true, Hc. lia. }
  split; [done|]. intros Hwait. apply Hidle in Hwait as [Hidle' Hq].
  apply busy_count_idle in Hidle' as Hbusy.
  assert (omap pending (workers_ s) = [] ∧ omap running (workers_ s) = [])
    as [Hpending Hrunning].
  { clear -Hidle'. unfold all_idle in Hidle'.
    induction Hidle' as [|wk l -> _ [? ?]]; csimpl; done. }
  rewrite Hpending, Hq in Hlog. simpl in Hlog. rewrite app_nil_r in Hlog.
  split; [done|]. intros n Hn.
  destruct (Hall n Hn) as [Hin|[Hin|Hdone]];
    [|rewrite Hrunning in Hin; by inversion Hin|done].
  rewrite Hq in Hin. by inversion Hin.
Qed.
End ExecutorDone.

(** The diamond, each task submitted once. *)
Lemma wait_returns_when_done_witness :
  ∃ fuel0, ∀ fuel hardware_concurrency, (fuel0 ≤ fuel)%nat →
    ∃ s0,
      ThreadPoolExecutor.run Scenario.diamond fuel hardware_concurrency
          Scenario.diamond_tasks (Scenario.fresh Scenario.diamond_edges) = Some s0 ∧
      ∀ s, ThreadPoolExecutor.reachable Scenario.diamond s0 s →
        (ThreadPoolExecutor.wait_returns s ↔ ThreadPoolExecutor.drained s) ∧
        (ThreadPoolExecutor.wait_returns s →
           Task.invoked (ThreadPoolExecutor.world s)
             ≡ₚ Scenario.diamond_tasks
                ++ Task.invoked (Scenario.fresh Scenario.diamond_edges) ∧
           ∀ n, n ∈ Scenario.diamond_tasks →
                Task.get_state (ThreadPoolExecutor.world s) n = Complete).
Proof.
  apply (wait_returns_when_done Scenario.diamond Scenario.diamond_tasks
           (Scenario.fresh Scenario.diamond_edges)).
  - apply (check_acyclic_sound 3). vm_compute. reflexivity.
  - vm_compute. discriminate.
  - apply (bool_decide_unpack _). vm_compute. exact I.
Defined.

Section ExecutorOrder.
Import MachineInt Task ThreadPoolExecutor.
Context {V : Type} `{ValueInit V}.
Variable table : gmap nat (Task.t V).
Implicit Types (s : System V) (w : Task.World V) (wk : Worker) (task : Task.t V).

Local Abbreviation worker_waited := (ThreadPoolExecutor.worker_waited table).
Local Abbreviation log_in_order := (ThreadPoolExecutor.log_in_order table).
Local Abbreviation produced_in_order := (ThreadPoolExecutor.produced_in_order table).

Lemma fresh_tasks_reachabilities r w :
  fresh_tasks table w → fresh_tasks table (set_reachabilities r w).
Proof. done. Qed.

Lemma step_waited i s s' :
  Forall (worker_waited (world s)) (workers_ s) → step table i s = Some s' →
  Forall (worker_waited (world s')) (workers_ s').
Proof.
  intros Hworkers Hstep.
  apply step_cases in Hstep
    as [(self & rest & Hwk & Hq & Hw & Hp & Hws)
       |[(self & pc & task & stmt & Hwk & Htask & Hpc & Hexec & Hp & Hws)
        |(self & pc & task & Hwk & Htask & Hpc & Hw & Hp & Hws)]].
  - rewrite Hw, Hws. apply Forall_insert; [done|]. intros task _ k e _ Hlt. lia.
  - rewrite Hws. apply Forall_insert.
    + eapply Forall_impl; [exact Hworkers|]. intros [|n pc']; [done|].
      intros Hold task' Htask' k e Hk Hlt. eapply exec_latch; [done|].
      by apply (Hold task' Htask' k e).
    + intros task' Htask' k e Hk Hlt. assert (task' = task) as -> by congruence.
      eapply exec_latch; [done|].
      destruct (decide (k = pc)) as [->|Hne].
      * rewrite run_body_wait in Hpc by (by eapply lookup_lt_Some).
        rewrite Hk in Hpc. inversion Hpc; subst stmt.
        by eapply exec_wait_latched.
      * apply (Forall_lookup_1 _ _ _ _ Hworkers Hwk task Htask k e Hk). lia.
  - rewrite Hw, Hws. by apply Forall_insert.
Qed.

Lemma step_log_in_order i s s' :
  produced_in_order s → Forall (worker_waited (world s)) (workers_ s) →
  log_in_order (invoked (world s)) → step table i s = Some s' →
  log_in_order (invoked (world s')).
Proof.
  intros [Hglobal _] Hworkers Hlog Hstep.
  apply step_cases in Hstep
    as [(self & rest & Hwk & Hq & Hw & Hp & Hws)
       |[(self & pc & task & stmt & Hwk & Htask & Hpc & Hexec & Hp & Hws)
        |(self & pc & task & Hwk & Htask & Hpc & Hw & Hp & Hws)]];
    [by rewrite Hw| |by rewrite Hw].
  rewrite (exec_invoked_eq _ _ _ _ _ Hexec).
  destruct (decide (stmt = Invoke)) as [->|_]; [|done].
  apply run_body_invoke in Hpc as ->.
  intros l1 n l2 Hsplit task' e p producer Htask' He Hproducer Hout.
  destruct l1 as [|x l1]; simpl in Hsplit; inversion Hsplit; subst.
  - assert (task' = task) as -> by congruence.
    apply (Hglobal p producer Hproducer).
    apply list_elem_of_lookup in He as [k Hk].
    apply (Forall_lookup_1 _ _ _ _ Hworkers Hwk task Htask k _ Hk).
    apply lookup_lt_Some in Hk. lia.
  - by eapply (Hlog l1 n l2).
Qed.

(** X15.  The executor honours the edges.  After [run()] on a world in
    which no task of the table has run, in every state that the workers
    can reach, whatever the schedule: wherever the invocation log holds
    a task, every task of the table whose outward edge is one of its
    attached inward edges was invoked, and had returned, before it. *)
Theorem invocations_follow_edges tasks w :
  out_edges_distinct table → fresh_tasks table w → invoked w = [] →
  Node.acyclic (graph_of table w) (Some <$> tasks) →
  ∃ fuel0, ∀ fuel hardware_concurrency, (fuel0 ≤ fuel)%nat →
    ∃ s0,
      run table fuel hardware_concurrency tasks w = Some s0 ∧
      ∀ s, reachable table s0 s →
        ∀ l1 n l2, invoked (world s) = l1 ++ n :: l2 →
          ∀ task e p producer,
            table !! n = Some task → e ∈ waits task →
            table !! p = Some producer → out_edge_ producer = e →
            p ∈ l2.
Proof.
  intros Hdistinct Hfresh Hlog Hdag.
  destruct (run_start table tasks w Hdag) as [fuel0 Hfuel0].
  exists fuel0. intros fuel hc Hfuel.
  destruct (Hfuel0 fuel hc Hfuel) as (s0 & r & Hrun & Hw & Hws & _).
  exists s0. split; [done|]. intros s Hreach.
  assert (produced_in_order s ∧ Forall (worker_waited (world s)) (workers_ s) ∧
          log_in_order (invoked (world s))) as (_ & _ & Hordered); [|exact Hordered].
  apply (reachable_ind table
           (λ s, produced_in_order s ∧
                 Forall (worker_waited (world s)) (workers_ s) ∧
                 log_in_order (invoked (world s))) s0 s Hreach).
  - split; [split|split].
    + intros m task' Htask'. destruct (Hfresh m task' Htask') as [Hst Hl].
      rewrite Hw. split; intros Hyp.
      * change (get_state w m = Complete) in Hyp. congruence.
      * change (is_retrievable w (out_edge_ task') = true) in Hyp. congruence.
    + rewrite Hws. by apply Forall_replicate.
    + rewrite Hws. by apply Forall_replicate.
    + rewrite Hw. simpl. rewrite Hlog. intros l1 n l2 Hsplit. by destruct l1.
  - intros s1 i s2 (Hprod & Hwaited & Hordered) Hstep.
    split; [by eapply produced_in_order_step|].
    split; [by eapply step_waited|by eapply step_log_in_order].
Qed.

(** X16.  The results of a run do not depend on the schedule.  Let
    every attached value input of a task of the table be the outward
    edge of a task of the table that returns a value, and let [eval]
    give, for each outward edge, the value of its task's callable on
    the values [eval] gives for the task's inputs.  After [run()] on a
    fresh world, whenever [wait()] returns, whatever the schedule was,
    every submitted task that returns a value holds the result that
    [eval] gives for its outward edge. *)
Theorem run_results (eval : nat → V) tasks w :
  evaluates table eval → wired table → out_edges_distinct table →
  fresh_tasks table w →
  Node.acyclic (graph_of table w) (Some <$> tasks) →
  Z.of_nat (length tasks) ≤ INT_MAX →
  ∃ fuel0, ∀ fuel hardware_concurrency, (fuel0 ≤ fuel)%nat →
    ∃ s0,
      run table fuel hardware_concurrency tasks w = Some s0 ∧
      ∀ s, reachable table s0 s → wait_returns s →
        ∀ n task, n ∈ tasks → table !! n = Some task →
          return_void task = false →
          get_result (world s) n = eval (out_edge_ task).
Proof.
  intros Hevaluates Hwired Hdistinct Hfresh Hdag Hmax.
  destruct (run_start table tasks w Hdag) as [fuel0 Hfuel0].
  exists fuel0. intros fuel hc Hfuel.
  destruct (Hfuel0 fuel hc Hfuel)
    as (s0 & r & Hrun & Hw & Hws & Hperm & _ & _ & _ & _ & Hcount).
  exists s0. split; [done|]. intros s Hreach Hwait n task Hn Htask Hvalue.
  apply (results_when_idle table eval Hevaluates Hwired Hdistinct s0 s n task);
    try done.
  - rewrite Hw. by apply fresh_tasks_reachabilities.
  - unfold all_idle. rewrite Hws. by apply Forall_replicate.
  - rewrite (Permutation_length Hperm). by apply Hcount.
  - by rewrite (Permutation_length Hperm).
  - by rewrite Hperm.
Qed.

Lemma exec_result_other task self stmt w w' n :
  exec task self stmt w = Some w' → n ≠ self →
  result_ w' !! n = result_ w !! n.
Proof.
  destruct stmt; simpl; intros Hexec Hn; simplify_option_eq; try done.
  destruct (return_void task); simpl; [done|]. by rewrite lookup_insert_ne.
Qed.

(** X17.  [cancel()] keeps every task that no worker is in from ever
    starting.  From whatever state it is called in, the queue stays
    empty afterwards, and a task that no worker was executing at the
    time of the call keeps its state and its result and gets no new
    entry in the invocation log, whatever the workers go on to do. *)
Theorem cancel_stops_queued s s' n :
  reachable table (cancel s) s' →
  (∀ i pc, workers_ s !! i ≠ Some (Busy n pc)) →
  ThreadPool.tasks_ (pool_ s') = [] ∧
  get_state (world s') n = get_state (world s) n ∧
  result_ (world s') !! n = result_ (world s) !! n ∧
  (n ∈ invoked (world s') ↔ n ∈ invoked (world s)).
Proof.
  intros Hreach Hout.
  assert ((∀ i pc, workers_ s' !! i ≠ Some (Busy n pc)) ∧
          ThreadPool.tasks_ (pool_ s') = [] ∧
          get_state (world s') n = get_state (world s) n ∧
          result_ (world s') !! n = result_ (world s) !! n ∧
          (n ∈ invoked (world s') ↔ n ∈ invoked (world s))) as [_ Hgoal];
    [|exact Hgoal].
  apply (reachable_ind table
           (λ s', (∀ i pc, workers_ s' !! i ≠ Some (Busy n pc)) ∧
                  ThreadPool.tasks_ (pool_ s') = [] ∧
                  get_state (world s') n = get_state (world s) n ∧
                  result_ (world s') !! n = result_ (world s) !! n ∧
                  (n ∈ invoked (world s') ↔ n ∈ invoked (world s)))
           (cancel s) s' Hreach); [done|].
  intros s1 i s2 (Hout1 & Hq1 & Hst1 & Hres1 & Hlog1) Hstep.
  apply step_cases in Hstep
    as [(self & rest & Hwk & Hq & Hw & Hp & Hws)
       |[(self & pc & task & stmt & Hwk & Htask & Hpc & Hexec & Hp & Hws)
        |(self & pc & task & Hwk & Htask & Hpc & Hw & Hp & Hws)]].
  - congruence.
  - assert (n ≠ self) as Hne by (intros ->; by eapply Hout1).
    split; [|split; [by rewrite Hp|split; [|split]]].
    + intros j pc'. rewrite Hws. destruct (decide (j = i)) as [->|Hji].
      * rewrite list_lookup_insert_eq by (by eapply lookup_lt_Some). congruence.
      * rewrite list_lookup_insert_ne by done. apply Hout1.
    + by rewrite (exec_state _ _ _ _ _ n Hexec).
    + by rewrite (exec_result_other _ _ _ _ _ n Hexec).
    + rewrite (exec_invoked_eq _ _ _ _ _ Hexec), <- Hlog1.
      destruct (decide (stmt = Invoke)); [|done].
      rewrite elem_of_cons. split; [by intros [?|?]|by right].
  - split; [|split; [|by rewrite Hw]].
    + intros j pc'. rewrite Hws. destruct (decide (j = i)) as [->|Hji].
      * by rewrite list_lookup_insert_eq by (by eapply lookup_lt_Some).
      * rewrite list_lookup_insert_ne by done. apply Hout1.
    + rewrite Hp. unfold ThreadPool.complete_task, ThreadPool.check_idle.
      by destruct (_ && _).
Qed.
End ExecutorOrder.

(** The diamond: [A] before [B] and [C], and these before [D]. *)
Lemma invocations_follow_edges_witness :
  ∃ fuel0, ∀ fuel hardware_concurrency, (fuel0 ≤ fuel)%nat →
    ∃ s0,
      ThreadPoolExecutor.run Scenario.diamond fuel hardware_concurrency
          Scenario.diamond_tasks (Scenario.fresh Scenario.diamond_edges) = Some s0 ∧
      ∀ s, ThreadPoolExecutor.reachable Scenario.diamond s0 s →
        ∀ l1 n l2, Task.invoked (ThreadPoolExecutor.world s) = l1 ++ n :: l2 →
          ∀ task e p producer,
            Scenario.diamond !! n = Some task → e ∈ Task.waits task →
            Scenario.diamond !! p = Some producer → Task.out_edge_ producer = e →
            p ∈ l2.
Proof.
  apply (invocations_follow_edges Scenario.diamond Scenario.diamond_tasks
           (Scenario.fresh Scenario.diamond_edges)).
  - apply (bool_decide_unpack _). vm_compute. exact I.
  - apply (bool_decide_unpack _). vm_compute. exact I.
  - reflexivity.
  - apply (check_acyclic_sound 3). vm_compute. reflexivity.
Defined.

(** The diamond: [A] holds [1], [B] holds [2] and [D] holds [20]. *)
Lemma run_results_witness :
  ∃ fuel0, ∀ fuel hardware_concurrency, (fuel0 ≤ fuel)%nat →
    ∃ s0,
      ThreadPoolExecutor.run Scenario.diamond fuel hardware_concurrency
          Scenario.diamond_tasks (Scenario.fresh Scenario.diamond_edges) = Some s0 ∧
      ∀ s, ThreadPoolExecutor.reachable Scenario.diamond s0 s →
        ThreadPoolExecutor.wait_returns s →
        ∀ n task, n ∈ Scenario.diamond_tasks → Scenario.diamond !! n = Some task →
          Task.return_void task = false →
          Task.get_result (ThreadPoolExecutor.world s) n
            = Scenario.diamond_eval (Task.out_edge_ task).
Proof.
  apply (run_results Scenario.diamond Scenario.diamond_eval Scenario.diamond_tasks
           (Scenario.fresh Scenario.diamond_edges)).
  - apply (bool_decide_unpack _). vm_compute. exact I.
  - apply (bool_decide_unpack _). vm_compute. exact I.
  - apply (bool_decide_unpack _). vm_compute. exact I.
  - apply (bool_decide_unpack _). vm_compute. exact I.
  - apply (check_acyclic_sound 3). vm_compute. reflexivity.
  - vm_compute. discriminate.
Defined.

(** The diamond on two workers, cancelled when worker [0] has popped
    [A] and started it: worker [0] finishes [A], and [B] never starts. *)
Lemma cancel_stops_queued_witness :
  ∃ s0 s s',
    ThreadPoolExecutor.run Scenario.diamond 4 2 Scenario.diamond_tasks
      (Scenario.fresh Scenario.diamond_edges) = Some s0 ∧
    ThreadPoolExecutor.steps Scenario.diamond [0; 0]%nat s0 = Some s ∧
    ThreadPoolExecutor.steps Scenario.diamond [0; 0; 0; 0; 0; 0]%nat
      (ThreadPoolExecutor.cancel s) = Some s' ∧
    ThreadPool.tasks_ (ThreadPoolExecutor.pool_ s') = [] ∧
    Task.get_state (ThreadPoolExecutor.world s') 21
      = Task.get_state (ThreadPoolExecutor.world s) 21 ∧
    Task.result_ (ThreadPoolExecutor.world s') !! 21%nat
      = Task.result_ (ThreadPoolExecutor.world s) !! 21%nat ∧
    (21%nat ∈ Task.invoked (ThreadPoolExecutor.world s') ↔
     21%nat ∈ Task.invoked (ThreadPoolExecutor.world s)).
Proof.
  eexists. eexists. eexists. split; [vm_compute; reflexivity|].
  split; [vm_compute; reflexivity|].
  match goal with
  | |- ThreadPoolExecutor.steps _ _ (ThreadPoolExecutor.cancel ?s) = _ ∧ _ =>
      set (before := s)
  end.
  split; [vm_compute; reflexivity|].
  apply (cancel_stops_queued Scenario.diamond before _ 21%nat).
  - exists [0; 0; 0; 0; 0; 0]%nat. vm_compute. reflexivity.
  - intros [|[|i]] pc; vm_compute; discriminate.
Defined.

(** * The metafunctions *)

Section MetafunctionFacts.
Import Metafunctions.
Context {Ty : Type} `{EqDecision Ty}.
Variable void : Ty.
Implicit Types (T : Ty) (Ts : list Ty).

Local Abbreviation voids := (fmap (λ T, bool_decide (T = void))).
Local Abbreviation non_voids := (Metafunctions.non_voids void).

Lemma non_voids_cons T Ts :
  non_voids (T :: Ts) = ((if decide (T = void) then O else 1) + non_voids Ts)%nat.
Proof. done. Qed.

Lemma foldl_store Ts : ∀ idx found m,
  (non_voids Ts ≤ m)%nat →
  foldl (store void) (found ++ replicate m O, length found)
        (zip Ts (seq idx (length Ts)))
  = (found ++ Task.filtered_from idx (voids Ts) ++ replicate (m - non_voids Ts) O,
     (length found + non_voids Ts)%nat).
Proof.
  induction Ts as [|T Ts IH]; intros idx found m Hm.
  - simpl. by rewrite Nat.sub_0_r, Nat.add_0_r.
  - rewrite non_voids_cons in *. cbn [length seq zip zip_with foldl fmap list_fmap].
    unfold store at 2. cbn [fst snd].
    destruct (decide (T = void)) as [->|Hne]; cbn iota in Hm |- *.
    + rewrite bool_decide_eq_true_2 by done. rewrite IH by lia. done.
    + rewrite bool_decide_eq_false_2 by done.
      destruct m as [|m]; [lia|].
      rewrite insert_app_r_alt by lia.
      replace (length found - length found)%nat with O by lia.
      cbn [replicate insert list_insert Task.filtered_from].
      rewrite (cons_middle idx found), app_assoc.
      replace (S (length found)) with (length (found ++ [idx]))
        by (rewrite length_app; simpl; lia).
      rewrite IH by lia. rewrite <- !app_assoc. simpl.
      rewrite length_app. simpl. f_equal. lia.
Qed.

Lemma filtered_from_length Ts idx :
  length (Task.filtered_from idx (voids Ts)) = non_voids Ts.
Proof.
  revert idx. induction Ts as [|T Ts IH]; intros idx; [done|].
  rewrite non_voids_cons. cbn [fmap list_fmap].
  destruct (decide (T = void)) as [->|Hne].
  - rewrite bool_decide_eq_true_2 by done. apply IH.
  - rewrite bool_decide_eq_false_2 by done. simpl. by rewrite IH.
Qed.

Lemma mapM_lookup_middle {A} (l : list A) : ∀ pre k,
  mapM (λ i, (pre ++ l ++ k) !! i) (seq (length pre) (length l)) = Some l.
Proof.
  induction l as [|x l IH]; intros pre k; csimpl; [done|].
  rewrite list_lookup_middle by done. csimpl.
  replace (S (length pre)) with (length (pre ++ [x]))
    by (rewrite length_app; simpl; lia).
  rewrite (cons_middle x pre), app_assoc. by rewrite IH.
Qed.

Lemma filtered_from_types Ts : ∀ pre,
  Forall2 (λ Idx T, (pre ++ Ts) !! Idx = Some T)
          (Task.filtered_from (length pre) (voids Ts)) (remove_voids void Ts).
Proof.
  unfold remove_voids.
  induction Ts as [|T Ts IH]; intros pre; csimpl; [constructor|].
  unfold filter_void at 1.
  specialize (IH (pre ++ [T])). rewrite length_app in IH. simpl in IH.
  rewrite Nat.add_1_r, <- app_assoc in IH. simpl in IH.
  destruct (decide (T = void)) as [->|Hne].
  - by rewrite bool_decide_eq_true_2 by done.
  - rewrite bool_decide_eq_false_2 by done. simpl.
    constructor; [by apply list_lookup_middle|done].
Qed.

(** X18.  [integer_sequence_void_filter<Ts...>::filtered], for a pack
    that is not empty, is the increasing sequence of the positions of
    the types that are not [void], which is what [Task::run] reads the
    arguments of the callable from; and the types at these positions
    are, in order, the types of [remove_voids<Ts...>], which are the
    parameter types of the callable. *)
Theorem filtered_selects_non_void Ts :
  Ts ≠ [] →
  filtered void Ts = Some (Task.filtered (voids Ts)) ∧
  Forall2 (λ Idx T, Ts !! Idx = Some T)
          (Task.filtered (voids Ts)) (remove_voids void Ts).
Proof.
  intros Hne. split; [|apply (filtered_from_types Ts [])].
  unfold filtered, indices, Task.filtered.
  assert (count void Ts = Some (non_voids Ts)) as -> by (by destruct Ts).
  change (mapM (λ Idxss,
                  (foldl (store void) ([] ++ replicate (length Ts) O, length (@nil nat))
                     (zip Ts (seq 0 (length Ts)))).1 !! Idxss)
               (seq 0 (non_voids Ts))
          = Some (Task.filtered_from 0 (voids Ts))).
  assert (non_voids Ts ≤ length Ts)%nat as Hle.
  { clear. induction Ts as [|T Ts IH]; [done|].
    rewrite non_voids_cons. simpl. destruct (decide (T = void)); lia. }
  rewrite (foldl_store Ts 0 [] (length Ts) Hle). simpl.
  rewrite <- (filtered_from_length Ts 0).
  apply (mapM_lookup_middle _ []).
Qed.

(** Where the check passes, a type that sits at two positions does not
    have the first of them before the second. *)
Lemma no_duplicate_types_ordered Ts i j T :
  forallb (λ I,
             forallb (λ J,
                        if decide ((I < J)%nat ∧ Ts !! I = Ts !! J)
                        then false else true)
                     (seq 0 (length Ts)))
          (seq 0 (length Ts)) = true →
  Ts !! i = Some T → Ts !! j = Some T → ¬ (i < j)%nat.
Proof.
  intros Hall Hi Hj Hlt.
  rewrite forallb_forall in Hall.
  specialize (Hall i). rewrite forallb_forall in Hall.
  assert (In i (seq 0 (length Ts))) as Hini
    by (apply in_seq; apply lookup_lt_Some in Hi; lia).
  assert (In j (seq 0 (length Ts))) as Hinj
    by (apply in_seq; apply lookup_lt_Some in Hj; lia).
  specialize (Hall Hini j Hinj).
  rewrite decide_True in Hall; [done|]. split; [done|congruence].
Qed.

(** X19.  [contained_no_duplicate_types<TupleT>] is [true] exactly
    when no type occurs twice in the tuple; the empty tuple passes. *)
Theorem contained_no_duplicate_types_NoDup Ts :
  contained_no_duplicate_types Ts = true ↔ NoDup Ts.
Proof.
  unfold contained_no_duplicate_types. rewrite NoDup_alt. split.
  - intros Hall.
    intros i j T Hi Hj.
    pose proof (no_duplicate_types_ordered Ts i j T Hall Hi Hj).
    pose proof (no_duplicate_types_ordered Ts j i T Hall Hj Hi). lia.
  - intros Hnodup. apply forallb_forall. intros i Hi.
    apply forallb_forall. intros j Hj.
    destruct (decide _) as [[Hlt Heq]|]; [|done].
    apply in_seq in Hi. 
    destruct (lookup_lt_is_Some_2 Ts i) as [T HT]; [lia|].
    rewrite HT in Heq. specialize (Hnodup i j T HT (eq_sym Heq)). lia.
Qed.

Lemma matched_prefix (args : list Ty) : ∀ (RequiredArgsT : list Ty) off,
  mapM (λ entry : nat * Ty,
          T ← args !! entry.1; Some (bool_decide (T = entry.2)))
       (zip (seq off (length RequiredArgsT)) RequiredArgsT)
    ≫= (λ matched, Some (forallb id matched))
  = if decide (length RequiredArgsT ≤ length (drop off args))%nat
    then Some (bool_decide (RequiredArgsT `prefix_of` drop off args))
    else None.
Proof.
  induction RequiredArgsT as [|R Rs IH]; intros off.
  - destruct (decide _) as [?|Hn]; [|simpl in Hn; lia]. simpl. f_equal.
    all: symmetry; apply bool_decide_eq_true_2, prefix_nil.
  - cbn [length seq zip zip_with mapM fst snd].
    rewrite <- (Nat.add_0_r off) at 1. rewrite <- lookup_drop.
    destruct (drop off args) as [|T rest] eqn:Hdrop.
    + destruct (decide _) as [Hle|?]; [simpl in Hle; lia|done].
    + assert (drop (S off) args = rest) as Hrest.
      { replace (S off) with (off + 1)%nat by lia.
        by rewrite <- drop_drop, Hdrop. }
      specialize (IH (S off)). rewrite Hrest in IH.
      cbn [lookup list_lookup].
      destruct (mapM _ (zip_with pair (seq (S off) (length Rs)) Rs)) as [matched|];
        simpl in IH |- *.
      * destruct (decide (length Rs ≤ length rest)%nat) as [Hle|]; [|done].
        destruct (decide _) as [?|Hn]; [|simpl in Hn; lia].
        f_equal. inversion IH as [Hm]. rewrite Hm.
        destruct (decide (T = R)) as [->|Hne].
        -- rewrite bool_decide_eq_true_2 by done. simpl.
           apply bool_decide_ext. split; [apply prefix_cons|apply prefix_cons_inv_2].
        -- rewrite bool_decide_eq_false_2 by done. simpl. symmetry.
           apply bool_decide_eq_false_2. intros Hp.
           by apply prefix_cons_inv_1 in Hp.
      * destruct (decide (length Rs ≤ length rest)%nat) as [|Hgt]; [done|].
        destruct (decide _) as [Hle|?]; [simpl in Hle; lia|done].
Qed.

(** X20.  [function_has_the_required_prototype] compares the return
    type and only as many argument types of the callable as there are
    required ones.  When the callable has at least that many
    parameters, the value is [true] exactly if the return types are the
    same and the required argument types are the first parameter types
    of the callable, so further parameters pass unnoticed; when it has
    fewer, a [static_assert] fails. *)
Theorem required_prototype_is_prefix FnT (RequiredReturnT : Ty) RequiredArgsT :
  function_has_the_required_prototype FnT RequiredReturnT RequiredArgsT
  = if decide (length RequiredArgsT ≤ arity FnT)%nat
    then Some (bool_decide (return_type FnT = RequiredReturnT ∧
                            RequiredArgsT `prefix_of` args_tuple FnT))
    else None.
Proof.
  unfold function_has_the_required_prototype, is_all_argument_matched, arg, arity.
  pose proof (matched_prefix (args_tuple FnT) RequiredArgsT 0) as Hm.
  rewrite drop_0 in Hm. rewrite Hm.
  destruct (decide _); [|done]. simpl. f_equal.
  by rewrite bool_decide_and.
Qed.
End MetafunctionFacts.

(** The pack [int, void, double, void, float], with [void] as [0]. *)
Lemma filtered_selects_non_void_witness :
  Metafunctions.filtered 0%nat [1; 0; 2; 0; 3]%nat
    = Some (Task.filtered ((λ T, bool_decide (T = 0%nat)) <$> [1; 0; 2; 0; 3]%nat)) ∧
  Forall2 (λ Idx T, [1; 0; 2; 0; 3]%nat !! Idx = Some T)
          (Task.filtered ((λ T, bool_decide (T = 0%nat)) <$> [1; 0; 2; 0; 3]%nat))
          (Metafunctions.remove_voids 0%nat [1; 0; 2; 0; 3]%nat).
Proof.
  apply (filtered_selects_non_void 0%nat [1; 0; 2; 0; 3]%nat). discriminate.
Defined.

(** * Access to the inward edges by type *)

Section AccessByType.
Import Task Metafunctions.
Context {V : Type} `{ValueInit V} {Ty : Type} `{EqDecision Ty}.
Variable void : Ty.
Implicit Types (task : Task.t V) (w : Task.World V) (Ts InwardTs : list Ty).

Lemma no_duplicate_types_inj Ts i j T :
  contained_no_duplicate_types Ts = true →
  Ts !! i = Some T → Ts !! j = Some T → i = j.
Proof.
  intros Hall Hi Hj.
  pose proof (no_duplicate_types_ordered Ts i j T Hall Hi Hj).
  pose proof (no_duplicate_types_ordered Ts j i T Hall Hj Hi). lia.
Qed.

Lemma tuple_index_Some Ts T Idx :
  tuple_index Ts T = Some Idx → Ts !! Idx = Some T.
Proof.
  unfold tuple_index. intros Hidx.
  destruct (filter _ _) as [|i [|??]] eqn:Hf; simplify_eq.
  assert (Idx ∈ filter (λ Idx, Ts !! Idx = Some T) (seq 0 (length Ts))) as Hin
    by (rewrite Hf; apply list_elem_of_singleton; done).
  by apply list_elem_of_filter in Hin as [? _].
Qed.

Lemma tuple_index_lookup Ts T Idx :
  contained_no_duplicate_types Ts = true →
  Ts !! Idx = Some T → tuple_index Ts T = Some Idx.
Proof.
  intros Hall HIdx. unfold tuple_index.
  assert (∀ i, i ∈ filter (λ Idx, Ts !! Idx = Some T) (seq 0 (length Ts))
               ↔ i = Idx) as Hchar.
  { intros i. rewrite list_elem_of_filter, elem_of_seq. split.
    - intros [Hi _]. by eapply no_duplicate_types_inj.
    - intros ->. split; [done|]. apply lookup_lt_Some in HIdx. lia. }
  assert (NoDup (filter (λ Idx, Ts !! Idx = Some T) (seq 0 (length Ts)))) as Hnd
    by apply NoDup_filter, NoDup_seq.
  destruct (filter _ _) as [|i [|j l]].
  - specialize (Hchar Idx). destruct Hchar as [_ Hin].
    specialize (Hin eq_refl). by apply elem_of_nil in Hin.
  - f_equal. apply Hchar. by left.
  - assert (i = Idx) as -> by (apply Hchar; by left).
    assert (j = Idx) as -> by (apply Hchar; right; by left).
    apply NoDup_cons in Hnd as [Hnot _]. destruct Hnot. by left.
Qed.

Lemma tuple_index_None Ts T : T ∉ Ts → tuple_index Ts T = None.
Proof.
  intros Hnot. destruct (tuple_index Ts T) as [Idx|] eqn:Hidx; [|done].
  apply tuple_index_Some in Hidx. destruct Hnot.
  by eapply list_elem_of_lookup_2.
Qed.

(** X22.  Access by type is access by index at the position of the
    type.  For a node with inward types [InwardTs...], an input type
    [InputT] other than [void] at position [Idx] and a declared slot
    there: when no type occurs twice, [add_inward_edge<InputT>] is
    [add_inward_edge<Idx>], [get_inward_edge_value<InputT>] then reads
    the data of the wired edge, and reading by any other type gives
    what it gave before; when a type occurs twice, neither call
    compiles.  Nor does either compile for a type that is not among
    [InwardTs...]. *)
Theorem access_by_type InwardTs InputT Idx e task w :
  InwardTs !! Idx = Some InputT → InputT ≠ void →
  (Idx < length (in_edges_ task))%nat →
  (if contained_no_duplicate_types InwardTs
   then
     add_inward_edge_by_type InwardTs InputT e task
       = Some (add_inward_edge Idx e task) ∧
     get_inward_edge_value_by_type void w InwardTs InputT
         (add_inward_edge Idx e task)
       = Some (Edge.get_data <$> edges w !! e) ∧
     ∀ T, T ≠ InputT →
       get_inward_edge_value_by_type void w InwardTs T
           (add_inward_edge Idx e task)
       = get_inward_edge_value_by_type void w InwardTs T task
   else
     add_inward_edge_by_type InwardTs InputT e task = None ∧
     get_inward_edge_value_by_type void w InwardTs InputT task = None) ∧
  ∀ T, T ∉ InwardTs →
    add_inward_edge_by_type InwardTs T e task = None ∧
    get_inward_edge_value_by_type void w InwardTs T task = None.
Proof.
  intros HIdx Hvoid Hslot.
  unfold add_inward_edge_by_type, get_inward_edge_value_by_type. split.
  - destruct (contained_no_duplicate_types InwardTs) eqn:Hall; [|done].
    rewrite (tuple_index_lookup InwardTs InputT Idx Hall HIdx).
    rewrite bool_decide_eq_true_2 by (by eapply list_elem_of_lookup_2).
    rewrite decide_False by done. simpl.
    split; [done|]. split.
    + unfold get_inward_edge_value. simpl.
      by rewrite list_lookup_insert_eq.
    + intros T HT. destruct (decide (T = void)); [done|].
      destruct (tuple_index InwardTs T) as [j|] eqn:Hj; [|done]. simpl.
      apply tuple_index_Some in Hj.
      unfold get_inward_edge_value. simpl.
      rewrite list_lookup_insert_ne; [done|]. congruence.
  - intros T HT. rewrite (tuple_index_None InwardTs T HT).
    rewrite bool_decide_eq_false_2 by done.
    by destruct (contained_no_duplicate_types InwardTs), (decide (T = void)).
Qed.
End AccessByType.

(** [D] of the diamond, a [Task<int, int, void>], wired by type; [void]
    is [0] and [int] is [1]. *)
Lemma access_by_type_witness :
  let w := Scenario.fresh Scenario.diamond_edges in
  (if Metafunctions.contained_no_duplicate_types [1; 0]%nat
   then
     Task.add_inward_edge_by_type [1; 0]%nat 1%nat 121 Scenario.D
       = Some (Task.add_inward_edge 0 121 Scenario.D) ∧
     Task.get_inward_edge_value_by_type 0%nat w [1; 0]%nat 1%nat
         (Task.add_inward_edge 0 121 Scenario.D)
       = Some (Edge.get_data <$> Task.edges w !! 121%nat) ∧
     ∀ T, T ≠ 1%nat →
       Task.get_inward_edge_value_by_type 0%nat w [1; 0]%nat T
           (Task.add_inward_edge 0 121 Scenario.D)
       = Task.get_inward_edge_value_by_type 0%nat w [1; 0]%nat T Scenario.D
   else
     Task.add_inward_edge_by_type [1; 0]%nat 1%nat 121 Scenario.D = None ∧
     Task.get_inward_edge_value_by_type 0%nat w [1; 0]%nat 1%nat Scenario.D
       = None) ∧
  ∀ T, T ∉ [1; 0]%nat →
    Task.add_inward_edge_by_type [1; 0]%nat T 121 Scenario.D = None ∧
    Task.get_inward_edge_value_by_type 0%nat w [1; 0]%nat T Scenario.D = None.
Proof.
  intros w. apply (access_by_type 0%nat [1; 0]%nat 1%nat 0%nat 121%nat Scenario.D w).
  - reflexivity.
  - discriminate.
  - vm_compute. lia.
Defined.

Section ExecutorFinish.
Import MachineInt Task ThreadPoolExecutor.
Context {V : Type} `{ValueInit V}.
Variable table : gmap nat (Task.t V).
Implicit Types (s : System V) (w : Task.World V) (wk : Worker) (task : Task.t V).

Local Abbreviation draining := (ThreadPoolExecutor.draining table).
Local Abbreviation closed := (ThreadPoolExecutor.closed table).
Local Abbreviation work := (ThreadPoolExecutor.work table).
Local Abbreviation in_range := (ThreadPoolExecutor.in_range table).

(** From a state that the workers keep draining, the remaining work
    can be done. *)
Lemma draining_finishes q0 w0 :
  closed q0 w0 → producers_first (graph_of table w0) q0 →
  ∀ k s,
    work s = k → draining q0 w0 s → workers_ s ≠ [] →
    Forall in_range (workers_ s) →
    ThreadPool.active_task_count_ (pool_ s) = Z.of_nat (outstanding s) →
    Z.of_nat (outstanding s) ≤ INT_MAX →
    ∃ schedule s',
      steps table schedule s = Some s' ∧ length schedule = k ∧
      drained s' ∧ wait_returns s'.
Proof.
  intros Hclosed Hfirst k. induction k as [|k IH];
    intros s Hwork Hdrain Hworkers Hrange Hcount Hmax.
  - exists [], s. split; [done|]. split; [done|].
    assert (drained s) as Hdone by (by apply (work_zero table)).
    split; [done|].
    unfold wait_returns, ThreadPool.wait_returns, ThreadPool.is_idle.
    apply bool_decide_eq_true_2. rewrite Hcount.
    apply outstanding_zero in Hdone. by rewrite Hdone.
  - destruct (draining_progress table q0 w0 Hclosed Hfirst s Hdrain Hworkers)
      as [Hdone|(i & s1 & Hstep)].
    { apply (work_zero table) in Hdone; [|done].
      rewrite Hdone in Hwork. discriminate Hwork. }
    destruct (step_work table i s s1 Hrange Hstep) as [Hwork1 Hrange1].
    destruct (step_outstanding table i s s1 Hcount Hmax Hstep) as [Hcount1 Hmax1].
    destruct (IH s1) as (schedule & s' & Hsteps & Hlen & Hdone & Hwait);
      [lia|exact (draining_step table q0 w0 Hclosed Hfirst i s s1 Hdrain Hstep)|
       |exact Hrange1|exact Hcount1|exact Hmax1|].
    { intros Hnil. apply (f_equal length) in Hnil.
      rewrite (step_workers_length table _ _ _ Hstep) in Hnil.
      by destruct (workers_ s). }
    exists (i :: schedule), s'. simpl. rewrite Hstep. simpl.
    split; [done|]. split; [by rewrite Hlen|done].
Qed.

(** X21.  Every run of the executor can be completed.  On tasks that
    are closed under their inputs and from which no cycle is
    reachable, with at least one worker: from every state that the
    workers can reach after [run()], the workers can go on, in exactly
    as many steps as there is work left, to a state in which the queue
    is empty, every worker is idle and [wait()] returns. *)
Theorem run_can_finish tasks w :
  closed tasks w →
  Node.acyclic (graph_of table w) (Some <$> tasks) →
  Z.of_nat (length tasks) ≤ INT_MAX →
  ∃ fuel0, ∀ fuel hardware_concurrency,
    (fuel0 ≤ fuel)%nat → (1 ≤ hardware_concurrency)%nat →
    ∃ s0,
      run table fuel hardware_concurrency tasks w = Some s0 ∧
      ∀ s, reachable table s0 s →
        ∃ schedule s',
          steps table schedule s = Some s' ∧ length schedule = work s ∧
          drained s' ∧ wait_returns s'.
Proof.
  intros Hclosed Hdag Hmax. destruct (run_start table tasks w Hdag) as [fuel0 Hfuel0].
  exists fuel0. intros fuel hc Hfuel Hhc.
  destruct (Hfuel0 fuel hc Hfuel)
    as (s0 & r & Hrun & Hw & Hws & Hperm & Hfirst & _ & _ & _ & Hcount).
  specialize (Hcount Hmax).
  exists s0. split; [done|]. intros s Hreach.
  set (q0 := ThreadPool.tasks_ (pool_ s0)) in *.
  assert (closed q0 w) as Hclosed0 by (by apply (closed_perm table tasks)).
  assert (draining q0 w s ∧ length (workers_ s) = hc ∧
          Forall in_range (workers_ s) ∧
          ThreadPool.active_task_count_ (pool_ s) = Z.of_nat (outstanding s) ∧
          Z.of_nat (outstanding s) ≤ INT_MAX) as (Hdrain & Hlen & Hrange & Hc & Hm).
  { apply (reachable_ind table
             (λ s', draining q0 w s' ∧ length (workers_ s') = hc ∧
                    Forall in_range (workers_ s') ∧
                    ThreadPool.active_task_count_ (pool_ s') = Z.of_nat (outstanding s') ∧
                    Z.of_nat (outstanding s') ≤ INT_MAX) s0 s Hreach).
    - assert (busy_count (workers_ s0) = O) as Hbusy0.
      { rewrite Hws. clear. induction hc as [|hc IH]; csimpl; done. }
      split; [|split; [by rewrite Hws, length_replicate|split; [|split]]].
      + exists []. split; [done|]. split; [intros n Hn; by inversion Hn|].
        split; [|by rewrite Hw].
        intros i n pc Hi. rewrite Hws in Hi.
        by apply lookup_replicate in Hi as [? _].
      + rewrite Hws. by apply Forall_replicate.
      + unfold outstanding. fold q0. rewrite Hbusy0, Nat.add_0_r, Hcount.
        by rewrite (Permutation_length Hperm).
      + unfold outstanding. fold q0. rewrite Hbusy0, Nat.add_0_r.
        by rewrite (Permutation_length Hperm).
    - intros s1 i s2 (Hdrain1 & Hlen1 & Hrange1 & Hc1 & Hm1) Hstep.
      destruct (step_work table i s1 s2 Hrange1 Hstep) as [_ Hrange2].
      destruct (step_outstanding table i s1 s2 Hc1 Hm1 Hstep) as [Hc2 Hm2].
      split; [exact (draining_step table q0 w Hclosed0 Hfirst i s1 s2 Hdrain1 Hstep)|].
      split; [by rewrite (step_workers_length table _ _ _ Hstep)|done]. }
  apply (draining_finishes q0 w Hclosed0 Hfirst (work s) s); try done.
  destruct (workers_ s); [simpl in Hlen; lia|done].
Qed.
End ExecutorFinish.

(** The diamond on any number of workers. *)
Lemma run_can_finish_witness :
  ∃ fuel0, ∀ fuel hardware_concurrency,
    (fuel0 ≤ fuel)%nat → (1 ≤ hardware_concurrency)%nat →
    ∃ s0,
      ThreadPoolExecutor.run Scenario.diamond fuel hardware_concurrency
          Scenario.diamond_tasks (Scenario.fresh Scenario.diamond_edges) = Some s0 ∧
      ∀ s, ThreadPoolExecutor.reachable Scenario.diamond s0 s →
        ∃ schedule s',
          ThreadPoolExecutor.steps Scenario.diamond schedule s = Some s' ∧
          length schedule = ThreadPoolExecutor.work Scenario.diamond s ∧
          ThreadPoolExecutor.drained s' ∧ ThreadPoolExecutor.wait_returns s'.
Proof.
  apply (run_can_finish Scenario.diamond Scenario.diamond_tasks
           (Scenario.fresh Scenario.diamond_edges)).
  - apply check_closed_sound. vm_compute. reflexivity.
  - apply (check_acyclic_sound 3). vm_compute. reflexivity.
  - vm_compute. discriminate.
Defined.
